(** * An ambient e-mail agent: the human-in-the-loop coordinator and the Gmail poller

    A shallow embedding of [ui/app.py] (the websocket handler, the approval
    registries and [run_agent_workflow]) and of [gmail_poller.py] (the polling
    loop and its consecutive-error counter).

    Coroutines are written in a small free monad over the operations the
    Python code performs on its module-level registries; a scheduler then
    interleaves the workflow coroutine with the websocket handler and with the
    callbacks queued on the background event loop. *)

From stdpp Require Import base option strings gmap list.


(** ** Python values *)

(** The exception classes the modelled code can meet. All of them are
    subclasses of [Exception]; [asyncio.TimeoutError] is the only one an
    [except asyncio.TimeoutError] clause catches. *)
Inductive exn : Type :=
| TimeoutError
| KeyError (key : string)
| AttributeError (msg : string)
| Exception (msg : string).

(** [str(e)] *)
Definition str (e : exn) : string :=
  match e with
  | TimeoutError => ""
  | KeyError key => "'" +:+ key +:+ "'"
  | AttributeError msg => msg
  | Exception msg => msg
  end.

(** The [email_data] dict both callers build ([process_email] and
    [process_incoming_email]): the keys read by the workflow. *)
Record email_data : Type := {
  email_id : string;
  email_from : string;
  email_to : option string;
  email_subject : string;
  email_body : string
}.

(** [pending_action]: a dict with an optional ["action_type"] and an optional
    ["args"] dict. *)
Record pending_action : Type := {
  action_type : option string;
  args : option (gmap string string)
}.

(** An entry of [messages]: a dict (with or without ["content"]) or any other
    object, kept as its [str]. *)
Inductive py_message : Type :=
| MsgDict (content : option string)
| MsgObject (repr : string).

(** The pipeline state dict ([result], [draft_result], [updated_state],
    [execution_result]). Every field is a key of the dict: [None] is an absent
    key. For [st_pending_action], [Some None] is the Python value [None]. *)
Record agent_state : Type := {
  st_triage_decision : option string;
  st_triage_reasoning : option string;
  st_requires_approval : option bool;
  st_pending_action : option (option pending_action);
  st_messages : option (list py_message);
  st_email_id : option string;
  st_email_from : option string;
  st_email_to : option string;
  st_email_subject : option string;
  st_email_body : option string;
  st_human_decision : option string;
  st_human_feedback : option string;
  st_execution_status : option string;
  st_execution_result : option string
}.

(** [{**a, **b}]: the keys of [b] win. *)
Definition dict_merge (a b : agent_state) : agent_state := {|
  st_triage_decision := st_triage_decision b ∪ st_triage_decision a;
  st_triage_reasoning := st_triage_reasoning b ∪ st_triage_reasoning a;
  st_requires_approval := st_requires_approval b ∪ st_requires_approval a;
  st_pending_action := st_pending_action b ∪ st_pending_action a;
  st_messages := st_messages b ∪ st_messages a;
  st_email_id := st_email_id b ∪ st_email_id a;
  st_email_from := st_email_from b ∪ st_email_from a;
  st_email_to := st_email_to b ∪ st_email_to a;
  st_email_subject := st_email_subject b ∪ st_email_subject a;
  st_email_body := st_email_body b ∪ st_email_body a;
  st_human_decision := st_human_decision b ∪ st_human_decision a;
  st_human_feedback := st_human_feedback b ∪ st_human_feedback a;
  st_execution_status := st_execution_status b ∪ st_execution_status a;
  st_execution_result := st_execution_result b ∪ st_execution_result a
|}.

Definition empty_state : agent_state := {|
  st_triage_decision := None; st_triage_reasoning := None;
  st_requires_approval := None; st_pending_action := None;
  st_messages := None; st_email_id := None; st_email_from := None;
  st_email_to := None; st_email_subject := None; st_email_body := None;
  st_human_decision := None; st_human_feedback := None;
  st_execution_status := None; st_execution_result := None
|}.

(** The entries of [pending_approvals] ([approval_data]). *)
Record approval : Type := {
  ap_workflow_id : string;
  ap_action_type : string;
  ap_recipient : string;
  ap_subject : string;
  ap_body : string;
  ap_draft_preview : string;
  ap_timestamp : string;
  ap_notification_type : bool
}.

(** The entries of [approval_decisions]. *)
Record decision_record : Type := {
  dr_decision : string;
  dr_edited_content : string;
  dr_timestamp : string
}.

(** The arguments of [memory.save_email_interaction]. *)
Record interaction : Type := {
  ia_email_id : string;
  ia_email_from : string;
  ia_email_subject : string;
  ia_triage_decision : string;
  ia_action_taken : string;
  ia_human_approved : bool
}.

(** The messages handed to [broadcast_message]. *)
Inductive message : Type :=
| triage_complete (workflow_id decision reasoning : string)
| approval_required (data : approval)
| decision_recorded (workflow_id decision : string)
| workflow_complete (workflow_id decision execution_status : string)
    (execution_result : option string)
| workflow_timeout (workflow_id : string)
| workflow_error (workflow_id error : string).

(** An inbound websocket message, after [json.loads]. *)
Record inbound : Type := {
  in_type : string;
  in_workflow_id : string;
  in_decision : string;
  in_edited_content : option string
}.

(** The blocking pipeline calls handed to [loop.run_in_executor]. *)
Inductive stage_call : Type :=
| agent_invoke (e : email_data) (thread_id : string)
| react_agent_node (s : agent_state)
| execute_action_node (s : agent_state)
| update_memory_node (s : agent_state).

(** An [asyncio.Event] object is known by its address in the heap of events. *)
Abbreviation event_ref := nat.

(** ** The module-level state of [ui/app.py] and the world around it *)

(** A websocket connection; [ws_alive] tells whether [send_json] on it
    succeeds. *)
Record connection : Type := {
  ws_id : nat;
  ws_alive : bool
}.

Record server : Type := {
  (** [pending_approvals: Dict[str, dict]] *)
  pending_approvals : gmap string approval;
  (** [approval_events: Dict[str, asyncio.Event]] *)
  approval_events : gmap string event_ref;
  (** [approval_decisions: Dict[str, dict]] *)
  approval_decisions : gmap string decision_record;
  (** [websocket_connections: list] *)
  websocket_connections : list connection;
  (** whether [background_loop] is set ([run_server.main] shares its loop) *)
  background_loop : bool;
  (** the [asyncio.Event] objects allocated so far: their [is_set()] flag *)
  events : list bool;
  (** the [_set_event(event)] coroutines queued on the background loop by
      [asyncio.run_coroutine_threadsafe], oldest first *)
  scheduled : list event_ref;
  (** every message handed to [broadcast_message], oldest first *)
  broadcasts : list message;
  (** what was delivered to which connection *)
  outbox : list (nat * message);
  (** [get_memory()]: [None] before [initialize_memory], else the rows saved *)
  memory : option (list interaction);
  (** [datetime.now().isoformat()] *)
  clock : string
}.

Definition set_pending_approvals (f : gmap string approval -> gmap string approval)
    (σ : server) : server :=
  {| pending_approvals := f (pending_approvals σ);
     approval_events := approval_events σ;
     approval_decisions := approval_decisions σ;
     websocket_connections := websocket_connections σ;
     background_loop := background_loop σ;
     events := events σ; scheduled := scheduled σ;
     broadcasts := broadcasts σ; outbox := outbox σ;
     memory := memory σ; clock := clock σ |}.

Definition set_approval_events (f : gmap string event_ref -> gmap string event_ref)
    (σ : server) : server :=
  {| pending_approvals := pending_approvals σ;
     approval_events := f (approval_events σ);
     approval_decisions := approval_decisions σ;
     websocket_connections := websocket_connections σ;
     background_loop := background_loop σ;
     events := events σ; scheduled := scheduled σ;
     broadcasts := broadcasts σ; outbox := outbox σ;
     memory := memory σ; clock := clock σ |}.

Definition set_approval_decisions
    (f : gmap string decision_record -> gmap string decision_record)
    (σ : server) : server :=
  {| pending_approvals := pending_approvals σ;
     approval_events := approval_events σ;
     approval_decisions := f (approval_decisions σ);
     websocket_connections := websocket_connections σ;
     background_loop := background_loop σ;
     events := events σ; scheduled := scheduled σ;
     broadcasts := broadcasts σ; outbox := outbox σ;
     memory := memory σ; clock := clock σ |}.

Definition set_websocket_connections (f : list connection -> list connection)
    (σ : server) : server :=
  {| pending_approvals := pending_approvals σ;
     approval_events := approval_events σ;
     approval_decisions := approval_decisions σ;
     websocket_connections := f (websocket_connections σ);
     background_loop := background_loop σ;
     events := events σ; scheduled := scheduled σ;
     broadcasts := broadcasts σ; outbox := outbox σ;
     memory := memory σ; clock := clock σ |}.

Definition set_events (f : list bool -> list bool) (σ : server) : server :=
  {| pending_approvals := pending_approvals σ;
     approval_events := approval_events σ;
     approval_decisions := approval_decisions σ;
     websocket_connections := websocket_connections σ;
     background_loop := background_loop σ;
     events := f (events σ); scheduled := scheduled σ;
     broadcasts := broadcasts σ; outbox := outbox σ;
     memory := memory σ; clock := clock σ |}.

Definition set_scheduled (f : list event_ref -> list event_ref) (σ : server) : server :=
  {| pending_approvals := pending_approvals σ;
     approval_events := approval_events σ;
     approval_decisions := approval_decisions σ;
     websocket_connections := websocket_connections σ;
     background_loop := background_loop σ;
     events := events σ; scheduled := f (scheduled σ);
     broadcasts := broadcasts σ; outbox := outbox σ;
     memory := memory σ; clock := clock σ |}.

Definition set_broadcasts (f : list message -> list message) (σ : server) : server :=
  {| pending_approvals := pending_approvals σ;
     approval_events := approval_events σ;
     approval_decisions := approval_decisions σ;
     websocket_connections := websocket_connections σ;
     background_loop := background_loop σ;
     events := events σ; scheduled := scheduled σ;
     broadcasts := f (broadcasts σ); outbox := outbox σ;
     memory := memory σ; clock := clock σ |}.

Definition set_outbox (f : list (nat * message) -> list (nat * message))
    (σ : server) : server :=
  {| pending_approvals := pending_approvals σ;
     approval_events := approval_events σ;
     approval_decisions := approval_decisions σ;
     websocket_connections := websocket_connections σ;
     background_loop := background_loop σ;
     events := events σ; scheduled := scheduled σ;
     broadcasts := broadcasts σ; outbox := f (outbox σ);
     memory := memory σ; clock := clock σ |}.

Definition set_memory (f : option (list interaction) -> option (list interaction))
    (σ : server) : server :=
  {| pending_approvals := pending_approvals σ;
     approval_events := approval_events σ;
     approval_decisions := approval_decisions σ;
     websocket_connections := websocket_connections σ;
     background_loop := background_loop σ;
     events := events σ; scheduled := scheduled σ;
     broadcasts := broadcasts σ; outbox := outbox σ;
     memory := f (memory σ); clock := clock σ |}.

Definition set_clock (t : string) (σ : server) : server :=
  {| pending_approvals := pending_approvals σ;
     approval_events := approval_events σ;
     approval_decisions := approval_decisions σ;
     websocket_connections := websocket_connections σ;
     background_loop := background_loop σ;
     events := events σ; scheduled := scheduled σ;
     broadcasts := broadcasts σ; outbox := outbox σ;
     memory := memory σ; clock := t |}.

(** [event.is_set()] *)
Definition is_set (σ : server) (e : event_ref) : bool :=
  match events σ !! e with
  | Some b => b
  | None => false
  end.

(** [broadcast_message], taken as one step with nothing else running at
    its awaits: send to every connection; the connections whose
    [send_json] raised are collected and removed afterwards. What the call
    does between its awaits is modelled further down, by
    [broadcast_step]. *)
Definition do_broadcast_message (m : message) (σ : server) : server :=
  let reached := filter (λ ws, ws_alive ws = true) (websocket_connections σ) in
  set_websocket_connections (λ l, filter (λ ws, ws_alive ws = true) l)
    (set_outbox (λ o, o ++ ((λ ws, (ws_id ws, m)) <$> reached))
       (set_broadcasts (λ b, b ++ [m]) σ)).

(** ** Coroutines *)

(** The operations a coroutine of [ui/app.py] performs on the state above,
    each with the type of the value it gives back. *)
Inductive effect : Type -> Type :=
(** [await loop.run_in_executor(None, lambda: c)] *)
| RunInExecutor (c : stage_call) : effect agent_state
(** [await broadcast_message(m)] *)
| BroadcastMessage (m : message) : effect unit
(** [datetime.now().isoformat()] *)
| DatetimeNow : effect string
(** [pending_approvals[workflow_id] = a] *)
| PendingSetitem (workflow_id : string) (a : approval) : effect unit
(** [workflow_id in pending_approvals] *)
| PendingContains (workflow_id : string) : effect bool
(** [del pending_approvals[workflow_id]] *)
| PendingDelitem (workflow_id : string) : effect unit
(** [approval_events[workflow_id] = asyncio.Event()] *)
| EventsSetitemNew (workflow_id : string) : effect unit
(** [workflow_id in approval_events] *)
| EventsContains (workflow_id : string) : effect bool
(** [approval_events[workflow_id]] *)
| EventsGetitem (workflow_id : string) : effect event_ref
(** [e.set()] *)
| EventSet (e : event_ref) : effect unit
(** [await asyncio.wait_for(e.wait(), timeout=timeout)] *)
| WaitFor (e : event_ref) (timeout : nat) : effect unit
(** the truth value of [background_loop] *)
| BackgroundLoop : effect bool
(** [asyncio.run_coroutine_threadsafe(_set_event(e), background_loop)] *)
| RunCoroutineThreadsafe (e : event_ref) : effect unit
(** [approval_decisions[workflow_id] = d] *)
| DecisionsSetitem (workflow_id : string) (d : decision_record) : effect unit
(** [approval_decisions.get(workflow_id)] *)
| DecisionsGet (workflow_id : string) : effect (option decision_record)
(** [memory = get_memory()] followed by
    [if memory: memory.save_email_interaction(...)] *)
| SaveEmailInteraction (i : interaction) : effect unit.

(** A coroutine: it returns, raises, or performs an operation and goes on
    with what the operation gave back (a value or an exception). *)
Inductive coro (A : Type) : Type :=
| Ret (a : A)
| Raise (e : exn)
| Do {X : Type} (op : effect X) (k : exn + X -> coro A).

Arguments Ret {A} a.
Arguments Raise {A} e.
Arguments Do {A X} op k.

Fixpoint bind {A B : Type} (m : coro A) (f : A -> coro B) : coro B :=
  match m with
  | Ret a => f a
  | Raise e => Raise e
  | Do op k => Do op (λ r, bind (k r) f)
  end.

#[export] Instance coro_ret : MRet coro := λ A a, Ret a.
#[export] Instance coro_bind : MBind coro := λ A B f m, bind m f.

(** [try: m except ...: h]. The clause [h] answers [None] for an exception it
    does not match, which then goes on propagating. *)
Fixpoint try_except {A : Type} (m : coro A) (h : exn -> option (coro A)) : coro A :=
  match m with
  | Ret a => Ret a
  | Raise e => match h e with Some m' => m' | None => Raise e end
  | Do op k => Do op (λ r, try_except (k r) h)
  end.

(** [except Exception as e: h e] *)
Definition except_Exception {A : Type} (h : exn -> coro A) : exn -> option (coro A) :=
  λ e, Some (h e).

(** [except asyncio.TimeoutError: h] *)
Definition except_TimeoutError {A : Type} (h : coro A) : exn -> option (coro A) :=
  λ e, match e with TimeoutError => Some h | _ => None end.

(** An operation used as a statement: an exception it meets propagates. *)
Definition call {X : Type} (op : effect X) : coro X :=
  Do op (λ r, match r with inl e => Raise e | inr x => Ret x end).

(** ** The scheduler *)

(** What can happen next in the process. *)
Inductive action : Type :=
(** the coroutine performs its next operation, if it is not blocked *)
| Go
(** the executor job the coroutine awaits finishes, with a result or an
    exception *)
| Completes (r : exn + agent_state)
(** the timeout of the [wait_for] the coroutine is blocked in elapses *)
| Deadline
(** [websocket_endpoint], serving connection [ws], receives one message *)
| Receive (ws : nat) (m : inbound)
(** the background loop runs the oldest scheduled [_set_event] *)
| Callback
(** time passes *)
| Tick (t : string).

(** One operation performed by a coroutine that is scheduled. [None]: the
    operation is blocked (an executor job still running, an event not set). *)
Definition perform_go {X : Type} (op : effect X) (σ : server)
    : option (server * (exn + X)) :=
  match op in effect X return option (server * (exn + X)) with
  | RunInExecutor c => None
  | BroadcastMessage m => Some (do_broadcast_message m σ, inr ())
  | DatetimeNow => Some (σ, inr (clock σ))
  | PendingSetitem wid ap =>
      Some (set_pending_approvals (insert wid ap) σ, inr ())
  | PendingContains wid =>
      Some (σ, inr (bool_decide (is_Some (pending_approvals σ !! wid))))
  | PendingDelitem wid =>
      match pending_approvals σ !! wid with
      | Some _ => Some (set_pending_approvals (delete wid) σ, inr ())
      | None => Some (σ, inl (KeyError wid))
      end
  | EventsSetitemNew wid =>
      Some (set_approval_events (insert wid (length (events σ)))
              (set_events (λ l, l ++ [false]) σ), inr ())
  | EventsContains wid =>
      Some (σ, inr (bool_decide (is_Some (approval_events σ !! wid))))
  | EventsGetitem wid =>
      match approval_events σ !! wid with
      | Some e => Some (σ, inr e)
      | None => Some (σ, inl (KeyError wid))
      end
  | EventSet e => Some (set_events (λ l, <[e:=true]> l) σ, inr ())
  | WaitFor e timeout => if is_set σ e then Some (σ, inr ()) else None
  | BackgroundLoop => Some (σ, inr (background_loop σ))
  | RunCoroutineThreadsafe e =>
      Some (set_scheduled (λ q, q ++ [e]) σ, inr ())
  | DecisionsSetitem wid d =>
      Some (set_approval_decisions (insert wid d) σ, inr ())
  | DecisionsGet wid => Some (σ, inr (approval_decisions σ !! wid))
  | SaveEmailInteraction i =>
      Some (set_memory (fmap (λ rows, rows ++ [i])) σ, inr ())
  end.

(** One operation, performed in state [σ] when [a] happens. An executor
    job that finishes gives its result or its exception; what the pipeline
    stage did on its own to the memory is outside [ui/app.py] and not part
    of the state here. *)
Definition perform {X : Type} (op : effect X) (a : action) (σ : server)
    : option (server * (exn + X)) :=
  match a with
  | Go => perform_go op σ
  | Completes r =>
      match op in effect X return option (server * (exn + X)) with
      | RunInExecutor c => Some (σ, r)
      | _ => None
      end
  | Deadline =>
      match op in effect X return option (server * (exn + X)) with
      | WaitFor e timeout =>
          if is_set σ e then None else Some (σ, inl TimeoutError)
      | _ => None
      end
  | _ => None
  end.

(** The coroutine [p] when [a] happens: it moves on by one operation, or
    stays where it is. *)
Definition resume {A : Type} (a : action) (σ : server) (p : coro A)
    : server * coro A :=
  match p with
  | Do op k =>
      match perform op a σ with
      | Some (σ', r) => (σ', k r)
      | None => (σ, p)
      end
  | _ => (σ, p)
  end.

(** A coroutine run without interruption until it ends or blocks: the code
    between two [await]s of a handler. *)
Fixpoint run_atomic {A : Type} (p : coro A) (σ : server) : server * coro A :=
  match p with
  | Do op k =>
      match perform_go op σ with
      | Some (σ', r) => run_atomic (k r) σ'
      | None => (σ, p)
      end
  | _ => (σ, p)
  end.

(** ** [websocket_endpoint]: one inbound message (lines 89-130) *)

Definition handle_message (message : inbound) : coro unit :=
  if String.eqb (in_type message) "human_decision" then
    let workflow_id := in_workflow_id message in
    let decision := in_decision message in
    let edited_content := default "" (in_edited_content message) in
    (* Store the decision *)
    timestamp ← call DatetimeNow;
    call (DecisionsSetitem workflow_id
            {| dr_decision := decision;
               dr_edited_content := edited_content;
               dr_timestamp := timestamp |});;
    (* Signal the waiting workflow *)
    registered ← call (EventsContains workflow_id);
    (if registered : bool then
       loop ← call BackgroundLoop;
       if loop : bool then
         event ← call (EventsGetitem workflow_id);
         call (RunCoroutineThreadsafe event)
       else
         event ← call (EventsGetitem workflow_id);
         call (EventSet event)
     else mret ());;
    (* Remove from pending *)
    pending ← call (PendingContains workflow_id);
    (if pending : bool then call (PendingDelitem workflow_id) else mret ());;
    (* Notify all clients *)
    call (BroadcastMessage (decision_recorded workflow_id decision))
  else mret ().

(** The handler's [except Exception] (lines 134-137): the connection is
    dropped from [websocket_connections]. *)
Definition websocket_receive (ws : nat) (m : inbound) (σ : server) : server :=
  match run_atomic (handle_message m) σ with
  | (σ', Raise _) =>
      set_websocket_connections
        (filter (λ c, ws_id c ≠ ws)) σ'
  | (σ', _) => σ'
  end.

(** The background loop runs [_set_event(event)]: [event.set()]. *)
Definition run_callback (σ : server) : server :=
  match scheduled σ with
  | [] => σ
  | e :: q => set_events (λ l, <[e:=true]> l) (set_scheduled (λ _, q) σ)
  end.

(** What the rest of the process does to the state on [a]. *)
Definition environment (a : action) (σ : server) : server :=
  match a with
  | Receive ws m => websocket_receive ws m σ
  | Callback => run_callback σ
  | Tick t => set_clock t σ
  | _ => σ
  end.

(** One step of the process: the server state and one workflow coroutine. *)
Definition step {A : Type} (a : action) (c : server * coro A) : server * coro A :=
  match a with
  | Go | Completes _ | Deadline => resume a (fst c) (snd c)
  | _ => (environment a (fst c), snd c)
  end.

Definition exec {A : Type} (l : list action) (c : server * coro A) : server * coro A :=
  foldl (λ c a, step a c) c l.

(** What the rest of the process does to the state along [l]. *)
Definition environment_all (l : list action) (σ : server) : server :=
  foldl (λ σ a, environment a σ) σ l.

(** Several workflows in flight, one coroutine each ([process_email] and
    [process_incoming_email] start one per e-mail and return). An action
    comes with the position of the coroutine it concerns. *)
Definition pool_step (ia : nat * action) (c : server * list (coro unit))
    : server * list (coro unit) :=
  match snd ia with
  | Go | Completes _ | Deadline =>
      match snd c !! fst ia with
      | Some p =>
          (fst (resume (snd ia) (fst c) p),
           <[fst ia := snd (resume (snd ia) (fst c) p)]> (snd c))
      | None => c
      end
  | _ => (environment (snd ia) (fst c), snd c)
  end.

Definition pool_exec (l : list (nat * action)) (c : server * list (coro unit))
    : server * list (coro unit) :=
  foldl (λ c ia, pool_step ia c) c l.

(** ** [run_agent_workflow] (lines 198-541) *)

(** How a block of the function ends: with [return], or by falling through
    to the statement after it with the current [result]. *)
Inductive flow : Type :=
| Returned
| FallsThrough (result : agent_state).

Definition nl : string := String (Ascii.ascii_of_nat 10) EmptyString.

(** Truth value of a string and of [result.get("requires_approval")]. *)
Definition truthy_str (s : string) : bool := negb (String.eqb s "").
Definition truthy_flag (b : option bool) : bool := default false b.
(** Truth value of [updated_state.get("pending_action")]: a dict with at
    least one key. *)
Definition truthy_pending (p : option (option pending_action)) : bool :=
  match p with
  | Some (Some pa) => bool_decide (is_Some (action_type pa) ∨ is_Some (args pa))
  | _ => false
  end.

(** [await asyncio.wait_for(approval_events[workflow_id].wait(), timeout=600)] *)
Definition wait_for_decision (workflow_id : string) : coro unit :=
  event ← call (EventsGetitem workflow_id);
  call (WaitFor event 600).

(** Lines 250-251 and 383-384: the pending approval and a new event are
    stored under the workflow id. *)
Definition register (workflow_id : string) (approval_data : approval) : coro unit :=
  call (PendingSetitem workflow_id approval_data);;
  call (EventsSetitemNew workflow_id).

(** Lines 238-247. Characters are bytes here, so the [[:500]] slice is the
    Python one on ASCII bodies. *)
Definition notification_data (workflow_id : string) (email_data : email_data)
    (timestamp : string) : approval :=
  {| ap_workflow_id := workflow_id;
     ap_action_type := "notify_human";
     ap_recipient := email_from email_data;
     ap_subject := email_subject email_data;
     ap_body := email_body email_data;
     ap_draft_preview :=
       "📧 **Notification Email**" +:+ nl +:+ nl +:+
       "From: " +:+ email_from email_data +:+ nl +:+
       "Subject: " +:+ email_subject email_data +:+ nl +:+ nl +:+
       String.substring 0 500 (email_body email_data) +:+ "...";
     ap_timestamp := timestamp;
     ap_notification_type := true |}.

(** Lines 315-323 *)
Definition email_data_for_draft (result : agent_state) (email_data : email_data)
    : agent_state :=
  {| st_triage_decision := Some "respond";
     st_triage_reasoning := st_triage_reasoning result;
     st_requires_approval := st_requires_approval result;
     st_pending_action := st_pending_action result;
     st_messages := st_messages result;
     st_email_id := Some (email_id email_data);
     st_email_from := Some (email_from email_data);
     st_email_to := Some (default "you@company.com" (email_to email_data));
     st_email_subject := Some (email_subject email_data);
     st_email_body := Some (email_body email_data);
     st_human_decision := st_human_decision result;
     st_human_feedback := st_human_feedback result;
     st_execution_status := st_execution_status result;
     st_execution_result := st_execution_result result |}.

(** Lines 338-342: [{**result, **draft_result, "requires_approval": True}] *)
Definition with_draft (result draft_result : agent_state) : agent_state :=
  let merged := dict_merge result draft_result in
  {| st_triage_decision := st_triage_decision merged;
     st_triage_reasoning := st_triage_reasoning merged;
     st_requires_approval := Some true;
     st_pending_action := st_pending_action merged;
     st_messages := st_messages merged;
     st_email_id := st_email_id merged;
     st_email_from := st_email_from merged;
     st_email_to := st_email_to merged;
     st_email_subject := st_email_subject merged;
     st_email_body := st_email_body merged;
     st_human_decision := st_human_decision merged;
     st_human_feedback := st_human_feedback merged;
     st_execution_status := st_execution_status merged;
     st_execution_result := st_execution_result merged |}.

(** Lines 274-354: the notification branch once the event is set. *)
Definition notify_resume (workflow_id : string) (email_data : email_data)
    (result : agent_state) : coro flow :=
  (* Get decision *)
  decision_data ← call (DecisionsGet workflow_id);
  let decision := default "ignore" (dr_decision <$> decision_data) in
  if String.eqb decision "ignore" then
    call (BroadcastMessage
            (workflow_complete workflow_id "ignored" "complete" None));;
    call (SaveEmailInteraction
            {| ia_email_id := workflow_id;
               ia_email_from := email_from email_data;
               ia_email_subject := email_subject email_data;
               ia_triage_decision := "notify_human";
               ia_action_taken := "none";
               ia_human_approved := false |});;
    mret Returned
  else if String.eqb decision "respond" then
    try_except
      (draft_result ←
         call (RunInExecutor
                 (react_agent_node (email_data_for_draft result email_data)));
       mret (FallsThrough (with_draft result draft_result)))
      (except_Exception (λ e,
         call (BroadcastMessage
                 (workflow_error workflow_id
                    ("Failed to create draft: " +:+ str e)));;
         mret Returned))
  else mret (FallsThrough result).

(** Lines 234-354: [if triage_decision == "notify_human":] *)
Definition notify_human (workflow_id : string) (email_data : email_data)
    (result : agent_state) : coro flow :=
  timestamp ← call DatetimeNow;
  let approval_data := notification_data workflow_id email_data timestamp in
  (* Store and broadcast *)
  register workflow_id approval_data;;
  call (BroadcastMessage (approval_required approval_data));;
  (* Wait for human decision *)
  timed_out ←
    try_except (wait_for_decision workflow_id;; mret false)
      (except_TimeoutError
         (call (BroadcastMessage (workflow_timeout workflow_id));;
          mret true));
  if timed_out : bool then mret Returned
  else notify_resume workflow_id email_data result.

(** Lines 362-369: the preview shown for a draft. *)
Definition draft_preview_of (result : agent_state) : string :=
  match default [] (st_messages result) with
  | MsgDict content :: _ => default "" content
  | MsgObject repr :: _ => repr
  | [] => ""
  end.

(** Lines 371-380 *)
Definition draft_data (workflow_id : string) (result : agent_state)
    (pending_action : pending_action) (timestamp : string) : approval :=
  let args := default ∅ (args pending_action) in
  {| ap_workflow_id := workflow_id;
     ap_action_type := default "" (action_type pending_action);
     ap_recipient := default "" (args !! "recipient");
     ap_subject := default "" (args !! "subject");
     ap_body := default "" (args !! "body");
     ap_draft_preview := draft_preview_of result;
     ap_timestamp := timestamp;
     ap_notification_type := false |}.

(** Lines 448-451: [{**result, "human_decision": decision}] *)
Definition with_human_decision (result : agent_state) (decision : string)
    : agent_state :=
  {| st_triage_decision := st_triage_decision result;
     st_triage_reasoning := st_triage_reasoning result;
     st_requires_approval := st_requires_approval result;
     st_pending_action := st_pending_action result;
     st_messages := st_messages result;
     st_email_id := st_email_id result;
     st_email_from := st_email_from result;
     st_email_to := st_email_to result;
     st_email_subject := st_email_subject result;
     st_email_body := st_email_body result;
     st_human_decision := Some decision;
     st_human_feedback := st_human_feedback result;
     st_execution_status := st_execution_status result;
     st_execution_result := st_execution_result result |}.

(** Lines 459-462: the feedback and the decision of an edit. *)
Definition with_human_feedback (s : agent_state) (edited_content : string)
    : agent_state :=
  {| st_triage_decision := st_triage_decision s;
     st_triage_reasoning := st_triage_reasoning s;
     st_requires_approval := st_requires_approval s;
     st_pending_action := st_pending_action s;
     st_messages := st_messages s;
     st_email_id := st_email_id s;
     st_email_from := st_email_from s;
     st_email_to := st_email_to s;
     st_email_subject := st_email_subject s;
     st_email_body := st_email_body s;
     st_human_decision := Some "edit";
     st_human_feedback := Some edited_content;
     st_execution_status := st_execution_status s;
     st_execution_result := st_execution_result s |}.

Definition with_pending_action (s : agent_state) (pa : pending_action)
    : agent_state :=
  {| st_triage_decision := st_triage_decision s;
     st_triage_reasoning := st_triage_reasoning s;
     st_requires_approval := st_requires_approval s;
     st_pending_action := Some (Some pa);
     st_messages := st_messages s;
     st_email_id := st_email_id s;
     st_email_from := st_email_from s;
     st_email_to := st_email_to s;
     st_email_subject := st_email_subject s;
     st_email_body := st_email_body s;
     st_human_decision := st_human_decision s;
     st_human_feedback := st_human_feedback s;
     st_execution_status := st_execution_status s;
     st_execution_result := st_execution_result s |}.

(** Lines 456-466: [if decision == "edit" and edited_content:]. The last
    assignment, [updated_state["pending_action"]["args"]["body"] =
    edited_content], raises [KeyError] on a pending action without ["args"]. *)
Definition apply_edit (updated_state : agent_state) (decision edited_content : string)
    : coro agent_state :=
  if String.eqb decision "edit" && truthy_str edited_content then
    let updated_state := with_human_feedback updated_state edited_content in
    if truthy_pending (st_pending_action updated_state) then
      match st_pending_action updated_state with
      | Some (Some pa) =>
          match args pa with
          | Some a =>
              mret (with_pending_action updated_state
                      {| action_type := action_type pa;
                         args := Some (<["body" := edited_content]> a) |})
          | None => Raise (KeyError "args")
          end
      | _ => mret updated_state
      end
    else mret updated_state
  else mret updated_state.

(** Lines 407-521: the approval branch once the event is set. *)
Definition approval_resume (workflow_id : string) (email_data : email_data)
    (result : agent_state) : coro unit :=
  (* Get decision *)
  decision_data ← call (DecisionsGet workflow_id);
  let decision := default "deny" (dr_decision <$> decision_data) in
  let edited_content := default "" (dr_edited_content <$> decision_data) in
  if String.eqb decision "deny" then
    call (SaveEmailInteraction
            {| ia_email_id := workflow_id;
               ia_email_from := email_from email_data;
               ia_email_subject := email_subject email_data;
               ia_triage_decision := default "respond" (st_triage_decision result);
               ia_action_taken := "none";
               ia_human_approved := false |});;
    call (BroadcastMessage
            (workflow_complete workflow_id "denied" "cancelled" None))
  else
    (* Update state with decision *)
    updated_state ←
      apply_edit (with_human_decision result decision) decision edited_content;
    try_except
      ((* Execute the action *)
       execution_result ← call (RunInExecutor (execute_action_node updated_state));
       (* Update memory *)
       memory_result ← call (RunInExecutor (update_memory_node execution_result));
       (* Notify completion *)
       call (BroadcastMessage
               (workflow_complete workflow_id decision
                  (default "" (st_execution_status execution_result))
                  (Some (default "" (st_execution_result execution_result))))))
      (except_Exception (λ e,
         call (BroadcastMessage
                 (workflow_error workflow_id ("Execution failed: " +:+ str e))))).

(** Lines 357-521: [if result.get("requires_approval"):] *)
Definition draft_approval (workflow_id : string) (email_data : email_data)
    (result : agent_state) : coro unit :=
  (* pending_action = result.get("pending_action", {});
     args = pending_action.get("args", {}) *)
  pending_action ←
    match st_pending_action result with
    | None => mret {| action_type := None; args := None |}
    | Some (Some pa) => mret pa
    | Some None =>
        Raise (AttributeError "'NoneType' object has no attribute 'get'")
    end;
  timestamp ← call DatetimeNow;
  let approval_data := draft_data workflow_id result pending_action timestamp in
  (* Store and broadcast *)
  register workflow_id approval_data;;
  call (BroadcastMessage (approval_required approval_data));;
  (* Wait for human decision *)
  timed_out ←
    try_except (wait_for_decision workflow_id;; mret false)
      (except_TimeoutError
         (call (BroadcastMessage (workflow_timeout workflow_id));;
          mret true));
  if timed_out : bool then mret ()
  else approval_resume workflow_id email_data result.

(** Lines 356-530: what follows the notification block, unless it returned. *)
Definition finish (workflow_id : string) (email_data : email_data) (after : flow)
    : coro unit :=
  match after with
  | Returned => mret ()
  | FallsThrough result =>
      (* Handle respond - show draft for approval *)
      if truthy_flag (st_requires_approval result) then
        draft_approval workflow_id email_data result
      else
        (* No approval needed (auto-processed) *)
        call (BroadcastMessage
                (workflow_complete workflow_id "auto_approved" "complete" None))
  end.

(** Lines 204-530: the body of the outer [try]. *)
Definition run_agent_workflow_body (workflow_id : string) (email_data : email_data)
    : coro unit :=
  (* Phase 1: Run until HITL checkpoint or triage decision *)
  result ← call (RunInExecutor (agent_invoke email_data workflow_id));
  (* Get triage decision *)
  let triage_decision := default "" (st_triage_decision result) in
  let triage_reasoning := default "" (st_triage_reasoning result) in
  (* Notify triage result *)
  call (BroadcastMessage
          (triage_complete workflow_id triage_decision triage_reasoning));;
  (* Handle notify_human - show notification with options *)
  after ←
    (if String.eqb triage_decision "notify_human"
     then notify_human workflow_id email_data result
     else mret (FallsThrough result));
  finish workflow_id email_data after.

(** The outer [except Exception as e:] (lines 532-541). *)
Definition report_error (workflow_id : string) : exn → option (coro unit) :=
  except_Exception (λ e,
    call (BroadcastMessage (workflow_error workflow_id (str e)))).

(** [run_agent_workflow]: [try: body except Exception as e: ...] *)
Definition run_agent_workflow (workflow_id : string) (email_data : email_data)
    : coro unit :=
  try_except (run_agent_workflow_body workflow_id email_data)
    (report_error workflow_id).

(** ** [gmail_poller.py]: [GmailPoller] *)

Module Poller.

(** One e-mail as [_parse_message] returns it, with what the environment
    does when the loop handles it: [header_fails] is an exception raised
    while the loop prints the e-mail (outside the inner [try]), and
    [callback_raises] is an exception raised by [callback(email)]. *)
Record email : Type := {
  id : string;
  header_fails : bool;
  callback_raises : bool
}.

(** What fetching and parsing one listed message does: the [get] raises,
    [_parse_message] returns [None], or it returns the e-mail. *)
Inductive fetched : Type :=
| GetRaises
| ParsedNone
| Parsed (e : email).

(** What one polling cycle meets: the listing raises, the user interrupts
    it (a [KeyboardInterrupt] inside the [try] of the loop), or the listing
    returns message ids, each with the outcome of its fetch. *)
Inductive listing : Type :=
| ListRaises
| KeyboardInterrupt
| Listed (messages : list (string * fetched)).

(** The poller object and the locals of [start_polling], with a record of
    what the loop did. *)
Record poller : Type := {
  (** [self.processed_ids] *)
  processed_ids : gset string;
  (** [self.running] *)
  running : bool;
  consecutive_errors : nat;
  (** the [time.sleep] calls made, oldest first, in seconds *)
  sleeps : list nat;
  (** the ids handed to [callback], oldest first *)
  callbacks : list string;
  (** the ids [mark_as_read] was called on *)
  marked_read : list string
}.

Definition max_errors : nat := 5.

Definition with_processed (p : poller) (ids : gset string) : poller :=
  {| processed_ids := ids; running := running p;
     consecutive_errors := consecutive_errors p; sleeps := sleeps p;
     callbacks := callbacks p; marked_read := marked_read p |}.

Definition with_running (p : poller) (b : bool) : poller :=
  {| processed_ids := processed_ids p; running := b;
     consecutive_errors := consecutive_errors p; sleeps := sleeps p;
     callbacks := callbacks p; marked_read := marked_read p |}.

Definition with_errors (p : poller) (n : nat) : poller :=
  {| processed_ids := processed_ids p; running := running p;
     consecutive_errors := n; sleeps := sleeps p;
     callbacks := callbacks p; marked_read := marked_read p |}.

Definition with_sleep (p : poller) (seconds : nat) : poller :=
  {| processed_ids := processed_ids p; running := running p;
     consecutive_errors := consecutive_errors p;
     sleeps := sleeps p ++ [seconds];
     callbacks := callbacks p; marked_read := marked_read p |}.

(** Lines 54-76: [for msg in messages:] of [fetch_unread_emails]. *)
Fixpoint fetch_messages (seen : gset string) (messages : list (string * fetched))
    : list email * gset string :=
  match messages with
  | [] => ([], seen)
  | (msg_id, outcome) :: rest =>
      if decide (msg_id ∈ seen) then fetch_messages seen rest
      else
        match outcome with
        | Parsed e =>
            let '(emails, seen') := fetch_messages ({[msg_id]} ∪ seen) rest in
            (e :: emails, seen')
        | ParsedNone | GetRaises => fetch_messages seen rest
        end
  end.

(** [fetch_unread_emails] (lines 33-82). Its outer [except Exception] turns
    a listing that raises into the empty list. *)
Definition fetch_unread_emails (p : poller) (l : listing) : list email * poller :=
  match l with
  | Listed messages =>
      let '(emails, seen) := fetch_messages (processed_ids p) messages in
      (emails, with_processed p seen)
  | _ => ([], p)
  end.

(** Lines 228-242: the inner [try] around one [callback(email)]. *)
Definition handle_email (p : poller) (e : email) : poller :=
  if callback_raises e then
    {| processed_ids := processed_ids p; running := running p;
       consecutive_errors := consecutive_errors p + 1;
       sleeps := sleeps p;
       callbacks := callbacks p ++ [id e];
       marked_read := marked_read p |}
  else
    {| processed_ids := processed_ids p; running := running p;
       consecutive_errors := 0;
       sleeps := sleeps p;
       callbacks := callbacks p ++ [id e];
       marked_read := marked_read p ++ [id e] |}.

(** Lines 220-242: [for email in emails:]. [inr p] when the loop ran through,
    [inl p] when printing an e-mail raised, which leaves both the [for] and
    the outer [try]. *)
Fixpoint for_emails (p : poller) (emails : list email) : poller + poller :=
  match emails with
  | [] => inr p
  | e :: rest =>
      if header_fails e then inl p
      else for_emails (handle_email p e) rest
  end.

(** Lines 248-253: [if consecutive_errors >= max_errors:] *)
Definition check_errors (p : poller) : poller :=
  if decide (max_errors ≤ consecutive_errors p)
  then with_errors (with_sleep p 300) 0
  else p.

(** One iteration of [while self.running:] (lines 213-266) with poll
    interval [poll_interval]. *)
Definition cycle (poll_interval : nat) (p : poller) (l : listing) : poller :=
  match l with
  | KeyboardInterrupt => with_running p false
  | _ =>
      let '(emails, p) := fetch_unread_emails p l in
      match for_emails p emails with
      | inr p' =>
          (* Check if too many consecutive errors; wait before next check *)
          with_sleep (check_errors p') poll_interval
      | inl p' =>
          (* except Exception as e: *)
          with_sleep (with_errors p' (consecutive_errors p' + 1)) poll_interval
      end
  end.

(** [start_polling] (lines 199-266) over what the successive cycles meet. *)
Definition start_polling (poll_interval : nat) (ls : list listing) (p : poller)
    : poller :=
  foldl (λ p l, if running p then cycle poll_interval p l else p)
    (with_errors (with_running p true) 0) ls.

End Poller.

(** ** What holds along every schedule *)

Definition is_decision_recorded (m : message) : bool :=
  match m with decision_recorded _ _ => true | _ => false end.

(** The workflow a message is about. *)
Definition message_workflow_id (m : message) : string :=
  match m with
  | triage_complete w _ _ => w
  | approval_required data => ap_workflow_id data
  | decision_recorded w _ => w
  | workflow_complete w _ _ _ => w
  | workflow_timeout w => w
  | workflow_error w _ => w
  end.

(** A message the coroutine of workflow [workflow_id] does not send. *)
Definition foreign (workflow_id : string) (m : message) : bool :=
  is_decision_recorded m
  || negb (String.eqb (message_workflow_id m) workflow_id).

(** The event [e] has been signalled: it is set, or a [_set_event] for it
    waits on the background loop. *)
Definition signalled (e : event_ref) (σ : server) : Prop :=
  e < length (events σ) ∧ (is_set σ e = true ∨ e ∈ scheduled σ).

(** A decision for [workflow_id] is announced among the messages [l]. *)
Definition decision_among (workflow_id : string) (l : list message) : Prop :=
  ∃ d, decision_recorded workflow_id d ∈ l.

(** What the rest of the process (the websocket handler, the callbacks of
    the background loop, the clock, the workflows of other e-mails) may do to
    the state while the coroutine of workflow [workflow_id] is not running:
    it leaves the event registered for [workflow_id] alone, never frees or
    resets an event and keeps a signalled one signalled, only appends
    messages that are not this coroutine's to the broadcasts, announces a
    decision for [workflow_id] only once the event registered for it is
    signalled, keeps a recorded decision, and removes this workflow's pending
    approval only under a recorded decision. *)
Record rely (workflow_id : string) (σ σ' : server) : Prop := {
  rely_approval_events :
    approval_events σ' !! workflow_id = approval_events σ !! workflow_id;
  rely_events : length (events σ) ≤ length (events σ');
  rely_is_set : ∀ e, is_set σ e = true → is_set σ' e = true;
  rely_signalled : ∀ e, signalled e σ → signalled e σ';
  rely_broadcasts :
    ∃ more, broadcasts σ' = broadcasts σ ++ more
            ∧ forallb (foreign workflow_id) more = true
            ∧ (decision_among workflow_id more →
               ∀ e, approval_events σ !! workflow_id = Some e →
                    e < length (events σ) → signalled e σ');
  rely_pending_approvals :
    pending_approvals σ' !! workflow_id = pending_approvals σ !! workflow_id
    ∨ (pending_approvals σ' !! workflow_id = None
       ∧ is_Some (approval_decisions σ' !! workflow_id));
  rely_approval_decisions :
    is_Some (approval_decisions σ !! workflow_id) →
    is_Some (approval_decisions σ' !! workflow_id)
}.

(** [invariant R P p σ]: the assertion [P] holds of every configuration the
    coroutine [p], started in [σ], can reach, whatever the executor jobs
    return and whatever the rest of the process does in between, as long as
    it changes the state within [R]. *)
Fixpoint invariant {A : Type} (R : relation server) (P : server → coro A → Prop)
    (p : coro A) (σ : server) : Prop :=
  (∀ σ', R σ σ' → P σ' p) ∧
  match p with
  | Do op k =>
      ∀ σ' a σ1 r, R σ σ' → perform op a σ' = Some (σ1, r) →
                   invariant R P (k r) σ1
  | _ => True
  end.

(** A configuration under an invariant: the coroutine started in some
    earlier state, and only the rest of the process ran since. *)
Definition under {A : Type} (R : relation server) (P : server → coro A → Prop)
    (c : server * coro A) : Prop :=
  ∃ σ0, invariant R P (snd c) σ0 ∧ R σ0 (fst c).

(** No assumption on the rest of the process. *)
Definition anything : relation server := λ _ _, True.

(** The assertions used below. *)

(** No exception leaves the coroutine. *)
Definition not_raised {A : Type} (p : coro A) : Prop :=
  match p with Raise _ => False | _ => True end.

(** While the coroutine awaits an executor job: if the job raises, the
    coroutine's next step broadcasts one [workflow_error] for [workflow_id]
    whose text ends with the exception's text, and the coroutine returns. *)
Definition error_reported (workflow_id : string) (p : coro unit) : Prop :=
  match p with
  | @Do _ X op k =>
      match op in effect X return (exn + X → coro unit) → Prop with
      | RunInExecutor c => λ k,
          ∀ e σ, ∃ prefix,
            resume Go σ (k (inl e))
            = (do_broadcast_message
                 (workflow_error workflow_id (prefix +:+ str e)) σ, Ret ())
      | _ => λ _, True
      end k
  | _ => True
  end.

(** The coroutine's next operation writes only what belongs to
    [workflow_id]: its pending approval, its event, messages about it, rows
    about it. *)
Definition acts_for (workflow_id : string) (p : coro unit) : Prop :=
  match p with
  | Do op _ =>
      match op with
      | BroadcastMessage m =>
          message_workflow_id m = workflow_id ∧ is_decision_recorded m = false
      | PendingSetitem w _ => w = workflow_id
      | EventsSetitemNew w => w = workflow_id
      | SaveEmailInteraction i => ia_email_id i = workflow_id
      | PendingDelitem _ | EventSet _ | RunCoroutineThreadsafe _
      | DecisionsSetitem _ _ => False
      | _ => True
      end
  | _ => True
  end.

(** The approval [data] of [workflow_id] was announced, with the event [e]
    registered, and every decision for [workflow_id] announced since has
    signalled [e]. *)
Definition announced (workflow_id : string) (e : event_ref) (data : approval)
    (σ : server) : Prop :=
  ∃ before since,
    broadcasts σ = before ++ approval_required data :: since
    ∧ (decision_among workflow_id since → signalled e σ).

(** While the coroutine is blocked in [wait_for] on the event [e]: [e] is the
    event registered for [workflow_id]; an [approval_required] message for
    [workflow_id] has been broadcast, and a decision received since then has
    signalled [e]; the approval is still pending unless a decision for
    [workflow_id] has been recorded. *)
Definition registered_while_waiting (workflow_id : string) (σ : server)
    (p : coro unit) : Prop :=
  match p with
  | Do op _ =>
      match op with
      | WaitFor e timeout =>
          approval_events σ !! workflow_id = Some e
          ∧ e < length (events σ)
          ∧ ∃ data,
              ap_workflow_id data = workflow_id
              ∧ announced workflow_id e data σ
              ∧ (pending_approvals σ !! workflow_id = Some data
                 ∨ is_Some (approval_decisions σ !! workflow_id))
      | _ => True
      end
  | _ => True
  end.

(** What [run_agent_workflow] maintains, whatever the schedule. *)
Definition workflow_assertion (workflow_id : string) (σ : server) (p : coro unit)
    : Prop :=
  not_raised p
  ∧ error_reported workflow_id p
  ∧ acts_for workflow_id p
  ∧ registered_while_waiting workflow_id σ p.

(** What it maintains even among workflows that share its id. *)
Definition contained (workflow_id : string) (σ : server) (p : coro unit) : Prop :=
  not_raised p ∧ error_reported workflow_id p.

(** The workflows started for the e-mails [mails]. *)
Definition spawn (mails : list (string * email_data)) : list (coro unit) :=
  (λ m, run_agent_workflow (fst m) (snd m)) <$> mails.

(** Two more facts that, once true, stay true while the rest of the process
    runs: the event registered for a workflow, and its approval pending
    unless a decision was recorded. *)
Definition event_registered (workflow_id : string) (e : event_ref) (σ : server)
    : Prop :=
  approval_events σ !! workflow_id = Some e ∧ e < length (events σ).

Definition pending_or_decided (workflow_id : string) (data : approval)
    (σ : server) : Prop :=
  pending_approvals σ !! workflow_id = Some data
  ∨ is_Some (approval_decisions σ !! workflow_id).

(** Every coroutine of the pool is under its invariant. *)
Definition pool_under (Q : string → server * coro unit → Prop)
    (mails : list (string * email_data)) (c : server * list (coro unit)) : Prop :=
  ∀ i p, snd c !! i = Some p → ∃ m, mails !! i = Some m ∧ Q (fst m) (fst c, p).

(** The actions that move a coroutine. *)
Definition is_task (a : action) : bool :=
  match a with Go | Completes _ | Deadline => true | _ => false end.

(** The state after [websocket_endpoint] handled a [human_decision]
    message: the decision stored, the event signalled, the pending approval
    removed, the decision announced. *)
Definition signal (workflow_id : string) (σ : server) : server :=
  match approval_events σ !! workflow_id with
  | Some e =>
      if background_loop σ
      then set_scheduled (λ q, q ++ [e]) σ
      else set_events (λ l, <[e:=true]> l) σ
  | None => σ
  end.

Definition decided (m : inbound) (σ : server) : server :=
  do_broadcast_message (decision_recorded (in_workflow_id m) (in_decision m))
    (set_pending_approvals (delete (in_workflow_id m))
       (signal (in_workflow_id m)
          (set_approval_decisions
             (insert (in_workflow_id m)
                {| dr_decision := in_decision m;
                   dr_edited_content := default "" (in_edited_content m);
                   dr_timestamp := clock σ |}) σ))).

(** An inbound decision message. *)
Definition human_decision (workflow_id decision : string)
    (edited_content : option string) : inbound :=
  {| in_type := "human_decision";
     in_workflow_id := workflow_id;
     in_decision := decision;
     in_edited_content := edited_content |}.

Definition is_workflow_timeout (workflow_id : string) (m : message) : bool :=
  match m with
  | workflow_timeout w => String.eqb w workflow_id
  | _ => false
  end.


(** Whether the coroutine has returned. *)
Definition returned {A : Type} (p : coro A) : bool :=
  match p with Ret _ => true | _ => false end.


(** ** Sample data *)

Definition server0 : server := {|
  pending_approvals := ∅;
  approval_events := ∅;
  approval_decisions := ∅;
  websocket_connections := [ {| ws_id := 1; ws_alive := true |} ];
  background_loop := true;
  events := [];
  scheduled := [];
  broadcasts := [];
  outbox := [];
  memory := Some [];
  clock := "2024-05-01T09:00:00"
|}.

Definition refund_mail : email_data := {|
  email_id := "m1";
  email_from := "customer@example.com";
  email_to := Some "you@company.com";
  email_subject := "Refund request";
  email_body := "Please refund my order."
|}.


(** Stage 1 answered with a draft that needs approval. *)
Definition drafted : agent_state := {|
  st_triage_decision := Some "respond";
  st_triage_reasoning := Some "needs a reply";
  st_requires_approval := Some true;
  st_pending_action :=
    Some (Some {| action_type := Some "send_email";
                  args := Some {[ "recipient" := "customer@example.com";
                                  "subject" := "Re: Refund request";
                                  "body" := "Dear customer..." ]} |});
  st_messages := Some [MsgDict (Some "Draft: Dear customer...")];
  st_email_id := Some "m1";
  st_email_from := Some "customer@example.com";
  st_email_to := Some "you@company.com";
  st_email_subject := Some "Refund request";
  st_email_body := Some "Please refund my order.";
  st_human_decision := None;
  st_human_feedback := None;
  st_execution_status := None;
  st_execution_result := None
|}.

(** Stage 1 answered that the human is to be notified. *)
Definition notified : agent_state := {|
  st_triage_decision := Some "notify_human";
  st_triage_reasoning := Some "for your information";
  st_requires_approval := Some false;
  st_pending_action := Some None;
  st_messages := Some [];
  st_email_id := Some "m1";
  st_email_from := Some "customer@example.com";
  st_email_to := Some "you@company.com";
  st_email_subject := Some "Refund request";
  st_email_body := Some "Please refund my order.";
  st_human_decision := None;
  st_human_feedback := None;
  st_execution_status := None;
  st_execution_result := None
|}.

(** What [react_agent_node] answers with: a draft. *)
Definition draft_only : agent_state := {|
  st_triage_decision := None;
  st_triage_reasoning := None;
  st_requires_approval := Some true;
  st_pending_action :=
    Some (Some {| action_type := Some "send_email";
                  args := Some {[ "body" := "Dear customer..." ]} |});
  st_messages := Some [MsgDict (Some "Draft: Dear customer...")];
  st_email_id := None;
  st_email_from := None;
  st_email_to := None;
  st_email_subject := None;
  st_email_body := None;
  st_human_decision := None;
  st_human_feedback := None;
  st_execution_status := None;
  st_execution_result := None
|}.

(** What [execute_action_node] answers with. *)
Definition executed : agent_state := {|
  st_triage_decision := Some "respond";
  st_triage_reasoning := None;
  st_requires_approval := Some true;
  st_pending_action := None;
  st_messages := None;
  st_email_id := Some "m1";
  st_email_from := None;
  st_email_to := None;
  st_email_subject := None;
  st_email_body := None;
  st_human_decision := Some "approve";
  st_human_feedback := None;
  st_execution_status := Some "success";
  st_execution_result := Some "sent"
|}.

(** The schedule that takes a workflow whose stage 1 answered [result] to
    its first wait: the triage broadcast, the clock, the two registry
    writes, the approval broadcast, the lookup of the event. *)
Definition until_waiting (result : agent_state) : list action :=
  Completes (inr result) :: replicate 6 Go.

(** An approval already pending for "m1", with its event. *)
Definition stale_approval : approval := {|
  ap_workflow_id := "m1";
  ap_action_type := "notify_human";
  ap_recipient := "customer@example.com";
  ap_subject := "Refund request";
  ap_body := "Please refund my order.";
  ap_draft_preview := "";
  ap_timestamp := "2024-05-01T08:59:00";
  ap_notification_type := true
|}.

Definition fresh_approval : approval := {|
  ap_workflow_id := "m1";
  ap_action_type := "send_email";
  ap_recipient := "customer@example.com";
  ap_subject := "Re: Refund request";
  ap_body := "Dear customer...";
  ap_draft_preview := "Draft: Dear customer...";
  ap_timestamp := "2024-05-01T09:00:00";
  ap_notification_type := false
|}.

Definition server_pending : server := {|
  pending_approvals := {[ "m1" := stale_approval ]};
  approval_events := {[ "m1" := 0 ]};
  approval_decisions := ∅;
  websocket_connections := [ {| ws_id := 1; ws_alive := true |} ];
  background_loop := true;
  events := [false];
  scheduled := [];
  broadcasts := [approval_required stale_approval];
  outbox := [(1, approval_required stale_approval)];
  memory := Some [];
  clock := "2024-05-01T09:00:00"
|}.

(** [pending_action = result.get("pending_action", {})] when it is a dict. *)
Definition pending_action_of (result : agent_state) : pending_action :=
  match st_pending_action result with
  | Some (Some pa) => pa
  | _ => {| action_type := None; args := None |}
  end.

(** The state after [register] and the [approval_required] broadcast. *)
Definition suspended (workflow_id : string) (data : approval) (σ : server)
    : server :=
  do_broadcast_message (approval_required data)
    (set_approval_events (insert workflow_id (length (events σ)))
       (set_events (λ l, l ++ [false])
          (set_pending_approvals (insert workflow_id data) σ))).

(** What [run_agent_workflow] has left to run when it comes to line 356
    with [result]: the approval block, inside the outer [try]. *)
Definition from_approval_block (workflow_id : string) (email_data : email_data)
    (result : agent_state) : coro unit :=
  try_except (finish workflow_id email_data (FallsThrough result))
    (report_error workflow_id).

(** What it has left to run when the wait of the approval block returns
    (line 407). *)
Definition from_approval_resume (workflow_id : string) (email_data : email_data)
    (result : agent_state) : coro unit :=
  try_except (approval_resume workflow_id email_data result)
    (report_error workflow_id).

(** The two ways [run_agent_workflow] comes to line 356 with [result]:
    straight from stage 1, when the triage decision is not "notify_human";
    or from a notification answered with "respond", [result] being the
    state of stage 1 merged with the draft that [react_agent_node]
    returned. *)
Definition comes_to_approval_block (workflow_id : string)
    (email_data : email_data) (result : agent_state) : Prop :=
  (default "" (st_triage_decision result) ≠ "notify_human" →
   ∀ σ, exec [Completes (inr result); Go]
          (σ, run_agent_workflow workflow_id email_data)
        = (do_broadcast_message
             (triage_complete workflow_id
                (default "" (st_triage_decision result))
                (default "" (st_triage_reasoning result))) σ,
           from_approval_block workflow_id email_data result))
  ∧ (∀ notified draft_result dec σ,
       result = with_draft notified draft_result →
       default "" (st_triage_decision notified) = "notify_human" →
       dr_decision dec = "respond" →
       ∃ e k,
         snd (exec (Completes (inr notified) :: replicate 6 Go)
                (σ, run_agent_workflow workflow_id email_data))
         = Do (WaitFor e 600) k
         ∧ ∀ σ1, approval_decisions σ1 !! workflow_id = Some dec →
             ∃ k1,
               run_atomic (k (inr ())) σ1
               = (σ1, Do (RunInExecutor
                            (react_agent_node
                               (email_data_for_draft notified email_data))) k1)
               ∧ k1 (inr draft_result)
                 = from_approval_block workflow_id email_data result).

(** The state handed to [execute_action_node] after an edit, for a pending
    action [pa] with arguments [a]. *)
Definition edited_state (result : agent_state) (pa : pending_action)
    (a : gmap string string) (content : string) : agent_state :=
  with_pending_action
    (with_human_feedback (with_human_decision result "edit") content)
    {| action_type := action_type pa;
       args := Some (<["body" := content]> a) |}.

(** The row saved for a workflow that executes nothing. *)
Definition not_approved (workflow_id : string) (email_data : email_data)
    (triage_decision : string) : interaction :=
  {| ia_email_id := workflow_id;
     ia_email_from := email_from email_data;
     ia_email_subject := email_subject email_data;
     ia_triage_decision := triage_decision;
     ia_action_taken := "none";
     ia_human_approved := false |}.

Definition edit_decision : decision_record := {|
  dr_decision := "edit";
  dr_edited_content := "New body";
  dr_timestamp := "2024-05-01T09:05:00"
|}.


Definition failing_email : Poller.email := {|
  Poller.id := "m7";
  Poller.header_fails := false;
  Poller.callback_raises := true
|}.

(** ** [broadcast_message] between its awaits (lines 140-150) *)

(** [perform_go] above takes [await broadcast_message(m)] as one step that
    returns, as if no other coroutine ran while it awaits its [send_json]
    calls, and [connection] fixes once and for all whether a [send_json]
    raises. This section looks inside the call: the iterator of the [for]
    loop, one [send_json] at a time, each returning or raising as the
    schedule says, other code running at the awaits, and the second loop
    with its [remove]. *)

#[export] Instance connection_eq_dec : EqDecision connection.
Proof. solve_decision. Defined.

(** [l.remove(x)]: the first occurrence of [x] goes; [None] is the
    [ValueError] of a list that does not hold [x]. *)
Fixpoint list_remove (x : connection) (l : list connection)
    : option (list connection) :=
  match l with
  | [] => None
  | y :: l' =>
      if decide (x = y) then Some l' else cons y <$> list_remove x l'
  end.

(** A call of [broadcast_message] under way: its message, the position of
    the iterator of [for ws in websocket_connections] in the list, the
    connection whose [send_json] is being awaited, and [disconnected]. *)
Record broadcasting : Type := {
  bc_message : message;
  bc_position : nat;
  bc_awaited : option connection;
  bc_disconnected : list connection
}.

(** What moves the call on: the loop goes to its next iteration or, the
    list being exhausted, to the second loop; or the [send_json] awaited
    returns; or it raises. *)
Inductive send_event : Type :=
| Advance
| SendReturns
| SendRaises.

Inductive progress : Type :=
| StillSending (b : broadcasting)
| Sent
| Failed (e : exn).

(** Lines 149-150: the second loop, one [remove] after the other, up to
    the first that raises. *)
Fixpoint remove_each (disconnected connections : list connection)
    : list connection * option exn :=
  match disconnected with
  | [] => (connections, None)
  | ws :: rest =>
      match list_remove ws connections with
      | Some connections => remove_each rest connections
      | None => (connections, Some (Exception "list.remove(x): x not in list"))
      end
  end.

(** The call at the start of line 143. *)
Definition broadcast_start (m : message) : broadcasting :=
  {| bc_message := m; bc_position := 0; bc_awaited := None;
     bc_disconnected := [] |}.

(** One move of the call, in the state as it is then. *)
Definition broadcast_step (ev : send_event) (b : broadcasting) (σ : server)
    : server * progress :=
  match bc_awaited b with
  | Some ws =>
      match ev with
      | SendReturns =>
          (set_outbox (λ o, o ++ [(ws_id ws, bc_message b)]) σ,
           StillSending {| bc_message := bc_message b;
                           bc_position := bc_position b;
                           bc_awaited := None;
                           bc_disconnected := bc_disconnected b |})
      | SendRaises =>
          (σ, StillSending {| bc_message := bc_message b;
                              bc_position := bc_position b;
                              bc_awaited := None;
                              bc_disconnected := bc_disconnected b ++ [ws] |})
      | Advance => (σ, StillSending b)
      end
  | None =>
      match ev with
      | Advance =>
          match websocket_connections σ !! bc_position b with
          | Some ws =>
              (σ, StillSending {| bc_message := bc_message b;
                                  bc_position := S (bc_position b);
                                  bc_awaited := Some ws;
                                  bc_disconnected := bc_disconnected b |})
          | None =>
              let '(connections, raised) :=
                remove_each (bc_disconnected b) (websocket_connections σ) in
              (set_websocket_connections (λ _, connections) σ,
               match raised with Some e => Failed e | None => Sent end)
          end
      | _ => (σ, StillSending b)
      end
  end.

(** The call moved on by [evs], nothing else running in between. *)
Fixpoint broadcast_run (evs : list send_event) (b : broadcasting) (σ : server)
    : server * progress :=
  match evs with
  | [] => (σ, StillSending b)
  | ev :: evs =>
      match broadcast_step ev b σ with
      | (σ', StillSending b') => broadcast_run evs b' σ'
      | ended => ended
      end
  end.

(** The moves of a call that is not interrupted, [sends] telling for each
    connection in turn whether its [send_json] returns. *)
Definition uninterrupted (sends : list bool) : list send_event :=
  concat ((λ returns : bool,
             [Advance; if returns then SendReturns else SendRaises]) <$> sends)
  ++ [Advance].

(** The connections whose [send_json] returned, and the others. *)
Fixpoint reached (connections : list connection) (sends : list bool)
    : list connection :=
  match connections, sends with
  | ws :: connections, returns :: sends =>
      if returns : bool then ws :: reached connections sends
      else reached connections sends
  | _, _ => []
  end.

Fixpoint unreached (connections : list connection) (sends : list bool)
    : list connection :=
  match connections, sends with
  | ws :: connections, returns :: sends =>
      if returns : bool then unreached connections sends
      else ws :: unreached connections sends
  | _, _ => []
  end.

(** ** [websocket_endpoint]: the text received and the end of the handler *)

(** A JSON value, as far as the handler tells the values apart: a string;
    a number, [true], [false] or [null], which can be a key of a dict and is
    equal to no string; a list or an object, which cannot be a key
    ([type_name] is "list" or "dict"). *)
Inductive json : Type :=
| JString (s : string)
| JScalar
| JContainer (type_name : string).

(** What [websocket.receive_text()] gave, as [json.loads] and the
    subscripts of lines 90-95 see it: a text [json.loads] raises [e] on, a
    JSON value that is not an object (a subscript by a string raises [e] on
    it), or an object. *)
Inductive text : Type :=
| NotJson (e : exn)
| NotObject (e : exn)
| Object (fields : gmap string json).

(** What becomes of the text in lines 90-106, up to the assignment to
    [approval_decisions]: an exception leaves the loop; the message is of
    another type; it is a decision made of strings; or it is a decision
    that stores something that is not a string (a scalar for its id, or
    something else than a string for its verdict or its content), which the
    registries as they are modelled here do not hold. *)
Inductive received : Type :=
| Ends (e : exn)
| OtherType
| Decision (m : inbound)
| Beyond.

(** Lines 90-106: [message = json.loads(data)], [message["type"]] and, for
    a decision, [message["workflow_id"]], [message["decision"]],
    [message.get("edited_content", "")] and the hashing of the id by
    [approval_decisions[workflow_id] = ...]. *)
Definition loads (data : text) : received :=
  match data with
  | NotJson e => Ends e
  | NotObject e => Ends e
  | Object fields =>
      match fields !! "type" with
      | None => Ends (KeyError "type")
      | Some (JString type) =>
          if String.eqb type "human_decision" then
            match fields !! "workflow_id" with
            | None => Ends (KeyError "workflow_id")
            | Some workflow_id =>
                match fields !! "decision" with
                | None => Ends (KeyError "decision")
                | Some decision =>
                    match workflow_id with
                    | JContainer type_name =>
                        Ends (Exception
                                ("unhashable type: '" +:+ type_name +:+ "'"))
                    | JScalar => Beyond
                    | JString workflow_id =>
                        match decision, fields !! "edited_content" with
                        | JString decision, None =>
                            Decision {| in_type := type;
                                        in_workflow_id := workflow_id;
                                        in_decision := decision;
                                        in_edited_content := None |}
                        | JString decision, Some (JString edited_content) =>
                            Decision {| in_type := type;
                                        in_workflow_id := workflow_id;
                                        in_decision := decision;
                                        in_edited_content := Some edited_content |}
                        | _, _ => Beyond
                        end
                    end
                end
            end
          else OtherType
      | Some _ => OtherType
      end
  end.

(** One turn of the [while True] loop (lines 88-130) on connection [ws],
    with the [except Exception] clause of lines 134-137. The boolean tells
    whether the handler is still serving the connection. [None]: the
    message is [Beyond]. *)
Definition receive_text (ws : nat) (data : text) (σ : server)
    : option (server * bool) :=
  match loads data with
  | Ends e =>
      Some (set_websocket_connections (filter (λ c, ws_id c ≠ ws)) σ, false)
  | OtherType => Some (σ, true)
  | Decision m =>
      match run_atomic (handle_message m) σ with
      | (σ', Raise _) =>
          Some (set_websocket_connections (filter (λ c, ws_id c ≠ ws)) σ', false)
      | (σ', _) => Some (σ', true)
      end
  | Beyond => None
  end.

(** What ends the loop of the handler: [receive_text] raises
    [WebSocketDisconnect], or something raises another exception. *)
Inductive ending : Type :=
| WebSocketDisconnect
| OtherException (e : exn).

(** Lines 132-137: the two [except] clauses, for the connection object
    [websocket]. The first removes it without looking; the second only if
    it is in the list. [inl]: the exception that leaves the handler. *)
Definition websocket_closed (websocket : connection) (how : ending) (σ : server)
    : exn + server :=
  match how with
  | WebSocketDisconnect =>
      match list_remove websocket (websocket_connections σ) with
      | Some l => inr (set_websocket_connections (λ _, l) σ)
      | None => inl (Exception "list.remove(x): x not in list")
      end
  | OtherException _ =>
      if decide (websocket ∈ websocket_connections σ) then
        match list_remove websocket (websocket_connections σ) with
        | Some l => inr (set_websocket_connections (λ _, l) σ)
        | None => inl (Exception "list.remove(x): x not in list")
        end
      else inr σ
  end.

(** ** What a workflow tells the clients *)

(** The messages that end a workflow for the clients. *)
Definition is_outcome (m : message) : bool :=
  match m with
  | workflow_complete _ _ _ _ | workflow_timeout _ | workflow_error _ _ => true
  | _ => false
  end.

(** The messages of [l] that are about [workflow_id] and are not the
    handler's [decision_recorded]: those the coroutine of the workflow
    sent. *)
Definition own (workflow_id : string) (l : list message) : list message :=
  filter (λ m, foreign workflow_id m = false) l.

Definition no_outcome (l : list message) : bool :=
  forallb (λ m, negb (is_outcome m)) l.

(** [l] ends with an outcome, and holds no other. *)
Definition ends_in_outcome (l : list message) : bool :=
  match reverse l with
  | m :: earlier => is_outcome m && no_outcome earlier
  | [] => false
  end.

(** Since the broadcasts were [before], the coroutine of [workflow_id] has
    sent no outcome, or one outcome and nothing after it; and if it has
    returned, it has sent one. *)
Definition one_outcome (workflow_id : string) (before : list message)
    (σ : server) (p : coro unit) : Prop :=
  ∃ sent,
    own workflow_id (broadcasts σ) = before ++ sent
    ∧ (if returned p then ends_in_outcome sent
       else no_outcome sent || ends_in_outcome sent) = true.

(** The registries hold together: the events queued on the loop and the
    events registered exist; no event is registered for two workflows; and
    an event that is registered and signalled has a decision stored for its
    workflow. *)
Record consistent (σ : server) : Prop := {
  scheduled_allocated : ∀ e, e ∈ scheduled σ → e < length (events σ);
  registered_allocated :
    ∀ w e, approval_events σ !! w = Some e → e < length (events σ);
  registered_apart :
    ∀ w w' e, approval_events σ !! w = Some e →
              approval_events σ !! w' = Some e → w = w';
  signalled_decided :
    ∀ w e, approval_events σ !! w = Some e → signalled e σ →
           is_Some (approval_decisions σ !! w)
}.

(** The state [updated_state] of lines 448-466 for a decision that is not an
    edit with content: [{**result, "human_decision": decision}]. *)
Definition decided_state (result : agent_state) (decision : string) : agent_state :=
  with_human_decision result decision.

(** The text of the [AttributeError] that [pending_action.get] raises on
    [None] (line 359). *)
Definition none_has_no_get : string :=
  "'NoneType' object has no attribute 'get'".

(** ** More sample data *)

Definition approve_decision : decision_record := {|
  dr_decision := "approve";
  dr_edited_content := "";
  dr_timestamp := "2024-05-01T09:05:00"
|}.

(** A notification answered with a verdict the notification does not know. *)
Definition later_decision : decision_record := {|
  dr_decision := "later";
  dr_edited_content := "";
  dr_timestamp := "2024-05-01T09:05:00"
|}.


(** A draft whose pending action has a type and no arguments. *)
Definition drafted_without_args : agent_state := {|
  st_triage_decision := Some "respond";
  st_triage_reasoning := Some "needs a reply";
  st_requires_approval := Some true;
  st_pending_action :=
    Some (Some {| action_type := Some "send_email"; args := None |});
  st_messages := Some [];
  st_email_id := Some "m1";
  st_email_from := Some "customer@example.com";
  st_email_to := Some "you@company.com";
  st_email_subject := Some "Refund request";
  st_email_body := Some "Please refund my order.";
  st_human_decision := None;
  st_human_feedback := None;
  st_execution_status := None;
  st_execution_result := None
|}.

(** What [react_agent_node] answers with when the model called no tool. *)
Definition no_draft : agent_state := {|
  st_triage_decision := None;
  st_triage_reasoning := None;
  st_requires_approval := Some false;
  st_pending_action := Some None;
  st_messages := Some [MsgObject "I could not draft a reply."];
  st_email_id := None;
  st_email_from := None;
  st_email_to := None;
  st_email_subject := None;
  st_email_body := None;
  st_human_decision := None;
  st_human_feedback := None;
  st_execution_status := None;
  st_execution_result := None
|}.

Definition dead_client : connection := {| ws_id := 2; ws_alive := false |}.

Definition server_two_clients : server := {|
  pending_approvals := ∅;
  approval_events := ∅;
  approval_decisions := ∅;
  websocket_connections := [ {| ws_id := 1; ws_alive := true |}; dead_client ];
  background_loop := true;
  events := [];
  scheduled := [];
  broadcasts := [];
  outbox := [];
  memory := Some [];
  clock := "2024-05-01T09:00:00"
|}.

(** The same two clients, the dead one having connected first. *)
Definition server_dead_first : server := {|
  pending_approvals := ∅;
  approval_events := ∅;
  approval_decisions := ∅;
  websocket_connections := [ dead_client; {| ws_id := 1; ws_alive := true |} ];
  background_loop := true;
  events := [];
  scheduled := [];
  broadcasts := [];
  outbox := [];
  memory := Some [];
  clock := "2024-05-01T09:00:00"
|}.

(** Stage 1 answered that approval is required and gave no pending action
    at all. *)
Definition approval_without_action : agent_state := {|
  st_triage_decision := Some "respond";
  st_triage_reasoning := Some "needs a reply";
  st_requires_approval := Some true;
  st_pending_action := None;
  st_messages := Some [];
  st_email_id := Some "m1";
  st_email_from := Some "customer@example.com";
  st_email_to := Some "you@company.com";
  st_email_subject := Some "Refund request";
  st_email_body := Some "Please refund my order.";
  st_human_decision := None;
  st_human_feedback := None;
  st_execution_status := None;
  st_execution_result := None
|}.

(** The pipeline call a coroutine is waiting for, if it waits for one. *)
Definition awaited (p : coro unit) : option stage_call :=
  match p with
  | Do op _ =>
      match op with
      | RunInExecutor c => Some c
      | _ => None
      end
  | _ => None
  end.

(** Whether the coroutine is waiting for [execute_action_node]. *)
Definition awaits_execution (p : coro unit) : bool :=
  match awaited p with
  | Some (execute_action_node _) => true
  | _ => false
  end.

(** ** The process with [broadcast_message] taken apart *)

(** The message and what follows, for a coroutine that has come to an
    [await broadcast_message(m)]. *)
Definition at_broadcast (p : coro unit)
    : option (message * (exn + unit → coro unit)) :=
  match p with
  | @Do _ X op k =>
      match op in effect X
            return (exn + X → coro unit) →
                   option (message * (exn + unit → coro unit)) with
      | BroadcastMessage m => λ k, Some (m, k)
      | _ => λ _, None
      end k
  | _ => None
  end.

(** A workflow is in its own code, or inside a call of
    [broadcast_message], what follows the call waiting for its outcome. *)
Inductive task : Type :=
| Running (p : coro unit)
| Broadcasting (b : broadcasting) (k : exn + unit → coro unit).

(** What can happen next: what [action] says; or the call of
    [broadcast_message] the workflow is in moves on; or the handler of the
    connection [websocket] leaves its loop through one of its [except]
    clauses. *)
Inductive fine_action : Type :=
| Task (a : action)
| Send (ev : send_event)
| Closes (websocket : connection) (how : ending).

(** One step. A workflow that is scheduled at an
    [await broadcast_message(m)] enters the call; inside the call only
    [Send] moves it. *)
Definition fine_step (a : fine_action) (c : server * task) : server * task :=
  match a with
  | Task a =>
      match snd c with
      | Running p =>
          match a, at_broadcast p with
          | Go, Some (m, k) =>
              (set_broadcasts (λ b, b ++ [m]) (fst c),
               Broadcasting (broadcast_start m) k)
          | _, _ =>
              (fst (step a (fst c, p)), Running (snd (step a (fst c, p))))
          end
      | Broadcasting _ _ => (environment a (fst c), snd c)
      end
  | Send ev =>
      match snd c with
      | Broadcasting b k =>
          match broadcast_step ev b (fst c) with
          | (σ, StillSending b') => (σ, Broadcasting b' k)
          | (σ, Sent) => (σ, Running (k (inr ())))
          | (σ, Failed e) => (σ, Running (k (inl e)))
          end
      | Running _ => c
      end
  | Closes websocket how =>
      match websocket_closed websocket how (fst c) with
      | inr σ => (σ, snd c)
      | inl _ => c
      end
  end.

Definition fine_exec (l : list fine_action) (c : server * task)
    : server * task :=
  foldl (λ c a, fine_step a c) c l.

(** Lines 478-521: the inner [try] of the approval block, for the state
    [updated_state] and the verdict [decision]. *)
Definition execute_and_report (workflow_id decision : string)
    (updated_state : agent_state) : coro unit :=
  try_except
    ((* Execute the action *)
     execution_result ← call (RunInExecutor (execute_action_node updated_state));
     (* Update memory *)
     memory_result ← call (RunInExecutor (update_memory_node execution_result));
     (* Notify completion *)
     call (BroadcastMessage
             (workflow_complete workflow_id decision
                (default "" (st_execution_status execution_result))
                (Some (default "" (st_execution_result execution_result))))))
    (except_Exception (λ e,
       call (BroadcastMessage
               (workflow_error workflow_id ("Execution failed: " +:+ str e))))).

(** The same inside the outer [try] of [run_agent_workflow]. *)
Definition from_execution (workflow_id decision : string)
    (updated_state : agent_state) : coro unit :=
  try_except (execute_and_report workflow_id decision updated_state)
    (report_error workflow_id).

(** ** More of [gmail_poller.py] and [run_server.py] *)

(** [GmailPoller.__init__] (lines 28-31), with nothing done yet. *)
Definition new_poller : Poller.poller := {|
  Poller.processed_ids := ∅;
  Poller.running := false;
  Poller.consecutive_errors := 0;
  Poller.sleeps := [];
  Poller.callbacks := [];
  Poller.marked_read := []
|}.

(** [GmailPoller.stop] (lines 268-271) *)
Definition stop (p : Poller.poller) : Poller.poller := Poller.with_running p false.

(** The loop of [start_polling] from a poller that is already running. *)
Definition polling (poll_interval : nat) (ls : list Poller.listing)
    (p : Poller.poller) : Poller.poller :=
  foldl (λ p l, if Poller.running p then Poller.cycle poll_interval p l else p)
    p ls.

(** An iteration that comes to the [except Exception] clause of the loop
    (lines 263-266) and is interrupted by the user in the [time.sleep] of
    line 266, where no [except KeyboardInterrupt] applies: the poller as
    the [KeyboardInterrupt] leaves it on its way out of [start_polling].
    [None]: the iteration does not come to that clause. *)
Definition interrupted_in_except (p : Poller.poller) (l : Poller.listing)
    : option Poller.poller :=
  match l with
  | Poller.KeyboardInterrupt => None
  | _ =>
      let '(emails, p) := Poller.fetch_unread_emails p l in
      match Poller.for_emails p emails with
      | inl p' =>
          Some (Poller.with_errors p' (Poller.consecutive_errors p' + 1))
      | inr _ => None
      end
  end.

(** Gmail answers [messages().get(id=i)] with the message of id [i]: the
    e-mail parsed from it carries the id that was listed. *)
Definition listed_ids_agree (l : Poller.listing) : bool :=
  match l with
  | Poller.Listed messages =>
      forallb (λ m, match snd m with
                    | Poller.Parsed e => String.eqb (Poller.id e) (fst m)
                    | _ => true
                    end) messages
  | _ => true
  end.

(** The e-mails whose callback returned. *)
Definition went_well (emails : list Poller.email) : list Poller.email :=
  filter (λ e, Poller.callback_raises e = false) emails.

(** The keys of an e-mail dict that [process_incoming_email] reads
    ([email_data['from']] and the like; ["to"] is read with [get]). *)
Record incoming : Type := {
  incoming_id : string;
  incoming_from : string;
  incoming_to : option string;
  incoming_subject : string;
  incoming_body : string
}.

(** [agent_input] (run_server.py, lines 51-63): the keys the workflow
    reads. *)
Definition agent_input (email : incoming) : email_data := {|
  email_id := incoming_id email;
  email_from := incoming_from email;
  email_to := Some (default "you@company.com" (incoming_to email));
  email_subject := incoming_subject email;
  email_body := incoming_body email
|}.

(** [process_incoming_email] (run_server.py, lines 37-77): one more
    coroutine on the background loop. *)
Definition process_incoming_email (email : incoming)
    (tasks : list (coro unit)) : list (coro unit) :=
  tasks ++ [run_agent_workflow (incoming_id email) (agent_input email)].

(** Three polling cycles: "m7" is listed, its callback raises; "m7" is
    listed again with "m8"; then the user interrupts. *)
Definition fine_email : Poller.email := {|
  Poller.id := "m8";
  Poller.header_fails := false;
  Poller.callback_raises := false
|}.

Definition three_cycles : list Poller.listing :=
  [ Poller.Listed [("m7", Poller.Parsed failing_email)];
    Poller.Listed [("m7", Poller.Parsed failing_email);
                   ("m8", Poller.Parsed fine_email)];
    Poller.KeyboardInterrupt;
    Poller.Listed [("m9", Poller.GetRaises)] ].

Definition inbox (i : string) : incoming := {|
  incoming_id := i;
  incoming_from := "customer@example.com";
  incoming_to := None;
  incoming_subject := "Refund request";
  incoming_body := "Please refund my order."
|}.

(** ** [GmailPoller._parse_message] (lines 84-155) *)

(** Texts are strings of bytes here. The two regular expressions below
    look for ['<'], ['>'] and the newline only, which are single bytes in
    UTF-8 and occur in no other character's encoding, so that scanning the
    bytes finds what scanning the characters finds. *)

(** The characters ['<'], ['>'] and the newline. *)
Definition less_than : Ascii.ascii := Ascii.ascii_of_nat 60.
Definition greater_than : Ascii.ascii := Ascii.ascii_of_nat 62.
Definition newline : Ascii.ascii := Ascii.ascii_of_nat 10.

(** [c.isspace()] on the ASCII characters. [str.strip()] also strips the
    white space outside ASCII, which [strip] below leaves. *)
Definition isspace (c : Ascii.ascii) : bool :=
  let n := Ascii.nat_of_ascii c in
  (9 <=? n) && (n <=? 13) || (28 <=? n) && (n <=? 32).

Fixpoint lstrip (s : string) : string :=
  match s with
  | String c s' => if isspace c then lstrip s' else s
  | EmptyString => EmptyString
  end.

(** [s.strip()] *)
Definition strip (s : string) : string :=
  String.rev (lstrip (String.rev (lstrip s))).

(** The group of [<(.+?)>] matched at a ['<'] that [s] follows: one
    character or more, none of them a newline, up to the first ['>'] after
    the first character. *)
Fixpoint angle_group (first : bool) (s : string) : option string :=
  match s with
  | EmptyString => None
  | String c s' =>
      if Ascii.eqb c newline then None
      else if first then String c <$> angle_group false s'
      else if Ascii.eqb c greater_than then Some EmptyString
      else String c <$> angle_group false s'
  end.

(** [re.search(r'<(.+?)>', s)]: the group of the leftmost match. *)
Fixpoint search_angle (s : string) : option string :=
  match s with
  | EmptyString => None
  | String c s' =>
      if Ascii.eqb c less_than then
        match angle_group true s' with
        | Some group => Some group
        | None => search_angle s'
        end
      else search_angle s'
  end.

(** Lines 106-112: the address out of the [From] header. *)
Definition email_from_clean (email_from : string) : string :=
  match search_angle email_from with
  | Some group => group
  | None => strip email_from
  end.

(** What follows the match of [<[^<]+?>] at a ['<'] that [s] follows: one
    character or more, none of them a ['<'], up to the first ['>'] after the
    first character. *)
Fixpoint tag_end (first : bool) (s : string) : option string :=
  match s with
  | EmptyString => None
  | String c s' =>
      if Ascii.eqb c less_than then None
      else if first then tag_end false s'
      else if Ascii.eqb c greater_than then Some s'
      else tag_end false s'
  end.

(** [re.sub('<[^<]+?>', '', s)], by recursion on a bound for the length of
    [s]: the matches are taken from the left, and the search goes on after
    each of them. *)
Fixpoint sub_tags (fuel : nat) (s : string) : string :=
  match fuel with
  | 0 => s
  | S fuel =>
      match s with
      | EmptyString => EmptyString
      | String c s' =>
          if Ascii.eqb c less_than then
            match tag_end true s' with
            | Some rest => sub_tags fuel rest
            | None => String c (sub_tags fuel s')
            end
          else String c (sub_tags fuel s')
      end
  end.

Definition strip_tags (html_body : string) : string :=
  sub_tags (String.length html_body) html_body.

(** A part of the message as [parsed.walk()] yields it: its content type,
    and the text that [get_content()] returns, [None] when it raises. *)
Record part : Type := {
  content_type : string;
  content : option string
}.

(** Lines 117-132: the loop over the parts, [body] being what was found
    so far. A plain text part that can be read ends the loop; an HTML part
    counts only while [body] is empty. *)
Fixpoint walk_body (body : string) (parts : list part) : string :=
  match parts with
  | [] => body
  | p :: rest =>
      if String.eqb (content_type p) "text/plain" then
        match content p with
        | Some text => text
        | None => walk_body body rest
        end
      else if String.eqb (content_type p) "text/html" && negb (truthy_str body)
      then
        match content p with
        | Some html_body => walk_body (strip_tags html_body) rest
        | None => walk_body body rest
        end
      else walk_body body rest
  end.

(** The message that [BytesParser] gave, as far as [_parse_message] looks
    at it: the three headers, [is_multipart()], the parts of [walk()] and the
    text of [get_content()], [None] when it raises. *)
Record parsed_message : Type := {
  header_from : option string;
  header_to : option string;
  header_subject : option string;
  is_multipart : bool;
  walk : list part;
  get_content : option string
}.

(** Lines 114-140: the body, stripped. *)
Definition extract_body (parsed : parsed_message) : string :=
  strip
    (if is_multipart parsed then walk_body "" (walk parsed)
     else default "Could not extract email body" (get_content parsed)).

(** The message of the Gmail API: [raw] is [None] when the key is missing
    or when its value does not decode or parse. *)
Record gmail_message : Type := {
  message_id : option string;
  raw : option parsed_message;
  threadId : option string;
  labelIds : option (list string)
}.

(** The dict that [_parse_message] returns (lines 142-151). *)
Record parsed_email : Type := {
  parsed_id : string;
  parsed_from : string;
  parsed_from_full : string;
  parsed_to : string;
  parsed_subject : string;
  parsed_body : string;
  parsed_thread_id : option string;
  parsed_labels : list string
}.

(** [_parse_message]: [None] when anything raised (lines 153-155). *)
Definition parse_message (message : gmail_message) : option parsed_email :=
  parsed ← raw message;
  let email_from := default "" (header_from parsed) in
  let body := extract_body parsed in
  id ← message_id message;
  Some {| parsed_id := id;
          parsed_from := email_from_clean email_from;
          parsed_from_full := email_from;
          parsed_to := default "" (header_to parsed);
          parsed_subject := default "" (header_subject parsed);
          parsed_body := body;
          parsed_thread_id := threadId message;
          parsed_labels := default [] (labelIds message) |}.

(** Whether [c] occurs in [s]. *)
Fixpoint occurs (c : Ascii.ascii) (s : string) : bool :=
  match s with
  | EmptyString => false
  | String c' s' => Ascii.eqb c' c || occurs c s'
  end.

(** A message in two parts, the HTML one first. *)
Definition two_parts : list part :=
  [ {| content_type := "multipart/alternative"; content := None |};
    {| content_type := "text/html"; content := Some "<p>Hello <b>you</b></p>" |};
    {| content_type := "text/plain"; content := Some "Hello you" |} ].

(** The HTML texts of the parts that can be read, tags taken out. *)
Definition html_texts (parts : list part) : list string :=
  omap (λ p, if String.eqb (content_type p) "text/html"
             then strip_tags <$> content p else None) parts.

Definition two_part_message : parsed_message := {|
  header_from := Some "John Doe <john@example.com>";
  header_to := Some "you@company.com";
  header_subject := Some "Hello";
  is_multipart := true;
  walk := two_parts;
  get_content := None
|}.

(** Nothing was taken out of the event and decision registries between [σ]
    and [σ']: the ids that had an event or a decision still have one, no
    event was freed, and the events that were set are still set. *)
Record grown (σ σ' : server) : Prop := {
  grown_approval_events :
    ∀ w, is_Some (approval_events σ !! w) → is_Some (approval_events σ' !! w);
  grown_approval_decisions :
    ∀ w, is_Some (approval_decisions σ !! w) →
         is_Some (approval_decisions σ' !! w);
  grown_events : length (events σ) ≤ length (events σ');
  grown_is_set : ∀ e, is_set σ e = true → is_set σ' e = true
}.

(** ** [get_stats] (lines 566-598) *)

(** The two counts that [get_stats] takes over the rows of [email_history]:
    [human_approved = 0 AND action_taken != 'none'], and
    [human_approved = 1]. *)
Definition deny_count (rows : list interaction) : nat :=
  length (filter (λ i, ia_human_approved i = false ∧ ia_action_taken i ≠ "none")
            rows).

Definition approve_count (rows : list interaction) : nat :=
  length (filter (λ i, ia_human_approved i = true) rows).

(** [get_stats], but for the part that [memory.get_stats()] gives: [None]
    is the answer ["Memory not initialized"], else [deny_count],
    [approve_count] and [pending_count]. *)
Definition get_stats (σ : server) : option (nat * nat * nat) :=
  rows ← memory σ;
  Some (deny_count rows, approve_count rows, size (pending_approvals σ)).

(** A row as [run_agent_workflow] saves them: not approved, no action. *)
Definition not_counted (i : interaction) : Prop :=
  ia_human_approved i = false ∧ ia_action_taken i = "none".

(** The coroutine's next operation, if it saves a row, saves such a row. *)
Definition saves_not_counted (p : coro unit) : Prop :=
  match p with
  | Do op _ =>
      match op with
      | SaveEmailInteraction i => not_counted i
      | _ => True
      end
  | _ => True
  end.

(** [always P p]: [P] holds of the coroutine [p] and of whatever it
    becomes, whatever its operations give back, a value or an exception. *)
Fixpoint always {A : Type} (P : coro A → Prop) (p : coro A) : Prop :=
  P p ∧
  match p with
  | Do op k => ∀ r, always P (k r)
  | _ => True
  end.
(** * Proofs *)

(** ** The rest of the process respects [rely] *)

Lemma decision_among_app w l1 l2 :
  decision_among w (l1 ++ l2) → decision_among w l1 ∨ decision_among w l2.
Proof.
  intros [d Hd]. apply elem_of_app in Hd as [Hd|Hd]; [left|right]; by exists d.
Qed.

Lemma decision_among_nil w : ¬ decision_among w [].
Proof. intros [d Hd]. by apply elem_of_nil in Hd. Qed.

Lemma rely_refl w σ : rely w σ σ.
Proof.
  split; auto.
  exists []. rewrite app_nil_r. split; [done|]. split; [done|].
  intros H. by apply decision_among_nil in H.
Qed.

Lemma rely_trans w σ1 σ2 σ3 : rely w σ1 σ2 → rely w σ2 σ3 → rely w σ1 σ3.
Proof.
  intros [A1 E1 S1 G1 (m1 & B1 & F1 & N1) P1 D1]
         [A2 E2 S2 G2 (m2 & B2 & F2 & N2) P2 D2].
  split.
  - congruence.
  - lia.
  - auto.
  - auto.
  - exists (m1 ++ m2). rewrite B2, B1, <- app_assoc. split; [done|].
    split; [by rewrite forallb_app, F1, F2|].
    intros Hd e He Hl. apply decision_among_app in Hd as [Hd|Hd].
    + apply G2. by apply N1.
    + apply N2; [done|congruence|lia].
  - destruct P2 as [H2|[H2 H2']]; [|by right].
    destruct P1 as [H1|[H1 H1']].
    + left. congruence.
    + right. split; [congruence|auto].
  - auto.
Qed.

Lemma set_pending_approvals_id σ f :
  f (pending_approvals σ) = pending_approvals σ → set_pending_approvals f σ = σ.
Proof. intros H. destruct σ. unfold set_pending_approvals. cbn in *. by rewrite H. Qed.

Lemma handle_message_decided m σ :
  in_type m = "human_decision" →
  run_atomic (handle_message m) σ = (decided m σ, Ret ()).
Proof.
  intros Ht. unfold handle_message, decided, signal. rewrite Ht. cbn.
  destruct (approval_events σ !! in_workflow_id m) as [e|] eqn:He; cbn.
  - destruct (background_loop σ) eqn:Hl; cbn; rewrite He; cbn;
      destruct (pending_approvals σ !! in_workflow_id m) eqn:Hp; cbn;
      rewrite ?Hp; try done;
      rewrite set_pending_approvals_id; try done; cbn; by rewrite delete_id.
  - destruct (pending_approvals σ !! in_workflow_id m) eqn:Hp; cbn;
      rewrite ?Hp; try done.
    rewrite set_pending_approvals_id; try done; cbn; by rewrite delete_id.
Qed.


Lemma is_set_insert σ σ' e e' :
  events σ' = <[e':=true]> (events σ) →
  is_set σ e = true → is_set σ' e = true.
Proof.
  unfold is_set. intros -> H.
  destruct (decide (e' = e)) as [->|Hne].
  - destruct (events σ !! e) eqn:Hl; [|done].
    rewrite list_lookup_insert_eq; [done|]. by eapply lookup_lt_Some.
  - by rewrite list_lookup_insert_ne.
Qed.

Lemma is_set_inserted σ σ' e :
  events σ' = <[e:=true]> (events σ) → e < length (events σ) →
  is_set σ' e = true.
Proof. unfold is_set. intros -> H. by rewrite list_lookup_insert_eq. Qed.

(** [signalled] survives whatever keeps the events, their flags and the
    queue of the loop. *)
Lemma signalled_keep e σ σ' :
  length (events σ) ≤ length (events σ') →
  (is_set σ e = true → is_set σ' e = true) →
  (e ∈ scheduled σ → e ∈ scheduled σ' ∨ is_set σ' e = true) →
  signalled e σ → signalled e σ'.
Proof.
  intros Hl Hs Hq [H1 [H2|H2]]; (split; [lia|]); [left; auto|].
  destruct (Hq H2); [by right|by left].
Qed.

Lemma pending_after_decision (pend : gmap string approval)
    (decs : gmap string decision_record) w0 d w :
  delete w0 pend !! w = pend !! w
  ∨ (delete w0 pend !! w = None ∧ is_Some (<[w0:=d]> decs !! w)).
Proof.
  destruct (decide (w0 = w)) as [<-|Hne].
  - right. split; [apply lookup_delete_eq|]. rewrite lookup_insert_eq. eauto.
  - left. by rewrite lookup_delete_ne.
Qed.

Lemma decisions_after_decision (decs : gmap string decision_record) w0 d w :
  is_Some (decs !! w) → is_Some (<[w0:=d]> decs !! w).
Proof.
  intros H. destruct (decide (w0 = w)) as [<-|Hne].
  - rewrite lookup_insert_eq. eauto.
  - by rewrite lookup_insert_ne.
Qed.

(** The fields of the state after a decision. *)
Lemma decided_fields m σ :
  approval_events (decided m σ) = approval_events σ
  ∧ broadcasts (decided m σ)
    = broadcasts σ ++ [decision_recorded (in_workflow_id m) (in_decision m)]
  ∧ pending_approvals (decided m σ)
    = delete (in_workflow_id m) (pending_approvals σ)
  ∧ approval_decisions (decided m σ)
    = <[in_workflow_id m :=
          {| dr_decision := in_decision m;
             dr_edited_content := default "" (in_edited_content m);
             dr_timestamp := clock σ |}]> (approval_decisions σ)
  ∧ match approval_events σ !! in_workflow_id m with
    | Some e =>
        if background_loop σ
        then events (decided m σ) = events σ
             ∧ scheduled (decided m σ) = scheduled σ ++ [e]
        else events (decided m σ) = <[e:=true]> (events σ)
             ∧ scheduled (decided m σ) = scheduled σ
    | None =>
        events (decided m σ) = events σ
        ∧ scheduled (decided m σ) = scheduled σ
    end.
Proof.
  unfold decided, signal. cbn.
  destruct (approval_events σ !! in_workflow_id m) as [e|];
    [destruct (background_loop σ)|]; done.
Qed.

(** The handler signals the event registered for the workflow it decides. *)
Lemma decided_signalled m σ e :
  approval_events σ !! in_workflow_id m = Some e →
  e < length (events σ) →
  signalled e (decided m σ).
Proof.
  intros He Hl. destruct (decided_fields m σ) as (_ & _ & _ & _ & H).
  rewrite He in H. unfold signalled, is_set.
  destruct (background_loop σ); destruct H as [-> ->].
  - split; [done|]. right. apply elem_of_app. right. by apply list_elem_of_singleton.
  - split; [by rewrite length_insert|]. left. by rewrite list_lookup_insert_eq.
Qed.

Lemma decided_events m σ :
  length (events (decided m σ)) = length (events σ)
  ∧ (∀ e, is_set σ e = true → is_set (decided m σ) e = true)
  ∧ (∀ e, e ∈ scheduled σ → e ∈ scheduled (decided m σ)).
Proof.
  destruct (decided_fields m σ) as (_ & _ & _ & _ & H).
  destruct (approval_events σ !! in_workflow_id m) as [e0|];
    [destruct (background_loop σ)|]; destruct H as [He Hs].
  - rewrite Hs. split; [by rewrite He|]. split.
    + intros e. unfold is_set. by rewrite He.
    + intros e H. apply elem_of_app. by left.
  - rewrite Hs. split; [by rewrite He, length_insert|]. split; [|done].
    intros e. by apply is_set_insert with (e' := e0).
  - rewrite Hs. split; [by rewrite He|]. split; [|done].
    intros e. unfold is_set. by rewrite He.
Qed.

Lemma decided_keeps_signalled m σ e : signalled e σ → signalled e (decided m σ).
Proof.
  destruct (decided_events m σ) as (Hl & Hs & Hq).
  apply signalled_keep; [lia|auto|]. intros H. left. auto.
Qed.

Lemma rely_decided w m σ : rely w σ (decided m σ).
Proof.
  destruct (decided_fields m σ) as (Ha & Hb & Hp & Hd & _).
  destruct (decided_events m σ) as (Hl & Hs & Hq).
  split.
  - by rewrite Ha.
  - lia.
  - exact Hs.
  - intros e. apply decided_keeps_signalled.
  - exists [decision_recorded (in_workflow_id m) (in_decision m)].
    split; [done|]. split; [done|].
    intros [d Hm] e He Hlt.
    apply list_elem_of_singleton in Hm. injection Hm as -> ->.
    by apply decided_signalled.
  - rewrite Hp, Hd. apply pending_after_decision.
  - rewrite Hd. apply decisions_after_decision.
Qed.

Lemma rely_websocket_receive w ws m σ : rely w σ (websocket_receive ws m σ).
Proof.
  unfold websocket_receive.
  destruct (String.eqb (in_type m) "human_decision") eqn:Ht.
  - apply String.eqb_eq in Ht. rewrite handle_message_decided by done.
    apply rely_decided.
  - unfold handle_message. rewrite Ht. cbn. apply rely_refl.
Qed.

Lemma run_callback_signalled σ e : signalled e σ → signalled e (run_callback σ).
Proof.
  unfold run_callback. destruct (scheduled σ) as [|e0 q] eqn:Hq; [done|].
  intros H. eapply signalled_keep; [| | |exact H]; cbn.
  - by rewrite length_insert.
  - by apply is_set_insert with (e' := e0).
  - rewrite Hq. intros He. apply elem_of_cons in He as [->|He]; [|by left].
    right. destruct H as [Hl _].
    unfold is_set. cbn. by rewrite list_lookup_insert_eq.
Qed.

Lemma rely_run_callback w σ : rely w σ (run_callback σ).
Proof.
  split; try (intros e; apply run_callback_signalled).
  all: unfold run_callback; destruct (scheduled σ) as [|e q]; cbn; auto.
  all: try (by rewrite length_insert).
  all: try (intros e0; by apply is_set_insert with (e' := e)).
  all: exists []; rewrite app_nil_r; split; [done|]; split; [done|];
    intros H; by apply decision_among_nil in H.
Qed.

Lemma rely_set_clock w t σ : rely w σ (set_clock t σ).
Proof.
  split; cbn; auto.
  exists []. rewrite app_nil_r. split; [done|]. split; [done|].
  intros H. by apply decision_among_nil in H.
Qed.

(** ** Soundness of [invariant] *)

Lemma invariant_Do {A X} R (P : server → coro A → Prop) (op : effect X) k σ :
  (∀ σ', R σ σ' → P σ' (Do op k)) →
  (∀ σ' a σ1 r, R σ σ' → perform op a σ' = Some (σ1, r) →
                invariant R P (k r) σ1) →
  invariant R P (Do op k) σ.
Proof. by split. Qed.

Lemma invariant_Ret {A} R (P : server → coro A → Prop) x σ :
  (∀ σ', R σ σ' → P σ' (Ret x)) → invariant R P (Ret x) σ.
Proof. by split. Qed.

Lemma invariant_now {A} R (P : server → coro A → Prop) p σ σ' :
  invariant R P p σ → R σ σ' → P σ' p.
Proof. destruct p; cbn; intros [H _]; auto. Qed.

Section soundness.
Context {A : Type} (R : relation server) (P : server → coro A → Prop).
Context (R_refl : ∀ σ, R σ σ).
Context (R_trans : ∀ σ1 σ2 σ3, R σ1 σ2 → R σ2 σ3 → R σ1 σ3).
Context (R_environment : ∀ a σ, R σ (environment a σ)).

Lemma under_now c : under R P c → P (fst c) (snd c).
Proof. intros (σ0 & Hinv & Hr). by eapply invariant_now. Qed.

Lemma under_environment a σ p : under R P (σ, p) → under R P (environment a σ, p).
Proof.
  intros (σ0 & Hinv & Hr). exists σ0. split; [done|].
  eapply R_trans; [exact Hr|apply R_environment].
Qed.

Lemma under_resume a σ p :
  under R P (σ, p) → under R P (resume a σ p).
Proof.
  intros (σ0 & Hinv & Hr). cbn in *.
  unfold resume. destruct p as [x|e|X op k]; try (exists σ0; by split).
  destruct (perform op a σ) as [[σ1 r]|] eqn:Hp; [|exists σ0; by split].
  exists σ1. split; [|apply R_refl]. cbn.
  destruct Hinv as [_ Hk]. eapply Hk; eauto.
Qed.

Lemma under_step a c : under R P c → under R P (step a c).
Proof.
  destruct c as [σ p]. intros H.
  destruct a; unfold step; cbn [fst snd];
    first [by apply under_resume | by apply under_environment].
Qed.

Lemma under_exec l c : under R P c → under R P (exec l c).
Proof.
  revert c. induction l as [|a l IH]; intros c H; [done|].
  cbn. apply IH. by apply under_step.
Qed.

Lemma invariant_exec p σ l :
  invariant R P p σ → P (fst (exec l (σ, p))) (snd (exec l (σ, p))).
Proof.
  intros H. apply under_now, under_exec. exists σ. by split.
Qed.

End soundness.

Lemma rely_environment w a σ : rely w σ (environment a σ).
Proof.
  destruct a; cbn; first
    [ apply rely_refl | apply rely_websocket_receive
    | apply rely_run_callback | apply rely_set_clock ].
Qed.

(** ** The workflow's invariant *)

Lemma event_registered_rely wid e σ σ' :
  event_registered wid e σ → rely wid σ σ' → event_registered wid e σ'.
Proof. intros [H1 H2] [A L _ _ _ _ _]. split; [congruence|lia]. Qed.

Lemma announced_rely wid e data σ σ' :
  event_registered wid e σ →
  announced wid e data σ → rely wid σ σ' → announced wid e data σ'.
Proof.
  intros [He Hl] (before & since & Hb & Hs) [_ _ _ G (more & Hm & _ & N) _ _].
  exists before, (since ++ more). split.
  - rewrite Hm, Hb, <- app_assoc. done.
  - intros Hd. apply decision_among_app in Hd as [Hd|Hd]; [auto|].
    by apply N.
Qed.

Lemma pending_or_decided_rely wid data σ σ' :
  pending_or_decided wid data σ → rely wid σ σ' → pending_or_decided wid data σ'.
Proof.
  unfold pending_or_decided. intros H [_ _ _ _ _ P D].
  destruct H as [H|H]; [|right; auto].
  destruct P as [Hp|[_ Hp]]; [left; congruence|by right].
Qed.

(** The registration sequence of both suspension sites: store the pending
    approval, create the event, broadcast, look the event up, wait. *)
Lemma waiting_established wid data σ1 σ2 σ3 σ4 σ5 e k :
  rely wid (set_pending_approvals <[wid:=data]> σ1) σ2 →
  rely wid (set_approval_events <[wid:=length (events σ2)]>
              (set_events (λ l, l ++ [false]) σ2)) σ3 →
  rely wid (do_broadcast_message (approval_required data) σ3) σ4 →
  approval_events σ4 !! wid = Some e →
  rely wid σ4 σ5 →
  ap_workflow_id data = wid →
  registered_while_waiting wid σ5 (Do (WaitFor e 600) k).
Proof.
  intros H12 H23 H34 He H45 Hid.
  assert (P2 : pending_or_decided wid data σ2).
  { eapply pending_or_decided_rely; [|exact H12].
    left. cbn. apply lookup_insert_eq. }
  assert (E3 : event_registered wid (length (events σ2)) σ3).
  { eapply event_registered_rely; [|exact H23].
    split; cbn; [apply lookup_insert_eq|]. rewrite length_app. cbn. lia. }
  assert (P3 : pending_or_decided wid data σ3).
  { eapply pending_or_decided_rely; [|exact H23]. exact P2. }
  assert (A4 : announced wid (length (events σ2)) data σ4).
  { eapply announced_rely; [| |exact H34]; [exact E3|].
    exists (broadcasts σ3), []. split; [done|].
    intros H. by apply decision_among_nil in H. }
  assert (E4 : event_registered wid (length (events σ2)) σ4).
  { eapply event_registered_rely; [|exact H34]. exact E3. }
  assert (P4 : pending_or_decided wid data σ4).
  { eapply pending_or_decided_rely; [|exact H34]. exact P3. }
  assert (e = length (events σ2)) as ->.
  { destruct E4 as [E4 _]. congruence. }
  destruct (event_registered_rely _ _ _ _ E4 H45) as [E5 L5].
  cbn. split; [done|]. split; [done|].
  exists data. split; [done|]. split; [by eapply announced_rely|].
  by eapply pending_or_decided_rely.
Qed.

Arguments invariant : simpl never.
Arguments finish : simpl never.

(** Walking the tree of a coroutine, one node at a time. *)

(** The scrutinee the coroutine's next node waits on. *)
Ltac stuck_on p :=
  lazymatch p with
  | try_except ?m _ => stuck_on m
  | bind ?m _ => stuck_on m
  | mbind _ ?m => stuck_on m
  | match ?x with _ => _ end => x
  end.

(** What [perform] gave: the new state and the value are substituted. *)
Ltac performed Hp :=
  cbn in Hp;
  repeat lazymatch type of Hp with
  | match ?x with _ => _ end = _ => destruct x eqn:?
  end;
  try discriminate Hp;
  injection Hp as <- <-.

Ltac reported :=
  first [ exact I
        | intros ? ?;
          first [ exists ""; reflexivity
                | exists "Failed to create draft: "; reflexivity
                | exists "Execution failed: "; reflexivity ] ].

Ltac assertion :=
  let σ := fresh "σ" in let Hr := fresh "Hr" in
  intros σ Hr;
  lazymatch goal with
  | |- contained _ _ _ => split; [exact I|reported]
  | |- workflow_assertion _ _ _ =>
      split; [exact I|split; [reported|split]];
      [ first [ exact I | reflexivity | split; reflexivity ]
      | first [ exact I
              | eapply waiting_established; [eassumption..|reflexivity] ] ]
  end.

Ltac walk finished :=
  lazymatch goal with
  | |- invariant _ _ (Do _ _) _ =>
      apply invariant_Do;
      [ assertion
      | let σ := fresh "σ" in let a := fresh "a" in let σ1 := fresh "σ" in
        let r := fresh "r" in let Hr := fresh "Hr" in let Hp := fresh "Hp" in
        intros σ a σ1 r Hr Hp; destruct a; try discriminate Hp;
        performed Hp; cbn ]
  | |- invariant _ _ (Ret _) _ => apply invariant_Ret; assertion
  | |- invariant _ _ ?p _ =>
      first
        [ finished
        | let x := stuck_on p in destruct x eqn:?; cbn
        | progress (unfold draft_approval, approval_resume, apply_edit,
                      notify_human, notify_resume, wait_for_decision,
                      register, call);
          cbn ]
  end.

Lemma finish_invariant wid email after σ :
  invariant (rely wid) (workflow_assertion wid)
    (try_except (finish wid email after) (report_error wid)) σ.
Proof.
  destruct after as [|result]; unfold finish; cbn; repeat walk fail.
Qed.

Lemma run_agent_workflow_invariant wid email σ :
  invariant (rely wid) (workflow_assertion wid) (run_agent_workflow wid email) σ.
Proof.
  unfold run_agent_workflow, run_agent_workflow_body; cbn.
  repeat walk ltac:(apply finish_invariant).
Qed.

Lemma finish_contained wid email after σ :
  invariant anything (contained wid)
    (try_except (finish wid email after) (report_error wid)) σ.
Proof.
  destruct after as [|result]; unfold finish; cbn; repeat walk fail.
Qed.

Lemma run_agent_workflow_contained wid email σ :
  invariant anything (contained wid) (run_agent_workflow wid email) σ.
Proof.
  unfold run_agent_workflow, run_agent_workflow_body; cbn.
  repeat walk ltac:(apply finish_contained).
Qed.

(** ** Several workflows in flight *)

(** A step of a workflow writes only what is its own: it stays within what
    the workflows of other e-mails rely on. *)
Lemma acts_for_rely w w' a σ p :
  acts_for w p → w ≠ w' → rely w' σ (fst (resume a σ p)).
Proof.
  intros Hact Hne. destruct p as [x|e|X op k]; try apply rely_refl.
  unfold resume.
  destruct (perform op a σ) as [[σ1 r]|] eqn:Hp; [|apply rely_refl].
  cbn [fst]. unfold acts_for in Hact. clear k.
  destruct op; destruct a; try discriminate Hp; cbn in Hp;
    repeat lazymatch type of Hp with
    | match ?x with _ => _ end = _ => destruct x eqn:?
    end;
    try discriminate Hp; try done;
    injection Hp as <- <-; try apply rely_refl.
  - (* broadcast_message *)
    destruct Hact as [Hw Hd].
    split; cbn; auto. exists [m]. split; [done|]. split.
    + cbn. unfold foreign. rewrite Hd, Hw. cbn.
      destruct (String.eqb_spec w w'); [done|]. done.
    + intros [d Hm]. apply list_elem_of_singleton in Hm. by subst m.
  - (* pending_approvals[w] = a *)
    subst workflow_id. split; cbn; auto.
    + exists []. rewrite app_nil_r. split; [done|]. split; [done|].
      intros H. by apply decision_among_nil in H.
    + left. by rewrite lookup_insert_ne.
  - (* approval_events[w] = asyncio.Event() *)
    subst workflow_id.
    assert (Hset : ∀ e, is_set σ e = true →
              is_set (set_approval_events <[w:=length (events σ)]>
                        (set_events (λ l, l ++ [false]) σ)) e = true).
    { intros e. unfold is_set. cbn.
      destruct (events σ !! e) eqn:He; [|done].
      intros ->. by rewrite (lookup_app_l_Some _ _ _ _ He). }
    split; cbn; auto.
    + by rewrite lookup_insert_ne.
    + rewrite length_app. lia.
    + intros e. apply signalled_keep; cbn; auto. rewrite length_app. lia.
    + exists []. rewrite app_nil_r. split; [done|]. split; [done|].
      intros H. by apply decision_among_nil in H.
  - (* memory.save_email_interaction *)
    split; cbn; auto. exists []. rewrite app_nil_r. split; [done|]. split; [done|].
    intros H. by apply decision_among_nil in H.
Qed.

Lemma pool_under_exec Q mails l c :
  (∀ ia c', pool_under Q mails c' → pool_under Q mails (pool_step ia c')) →
  pool_under Q mails c → pool_under Q mails (pool_exec l c).
Proof.
  intros Hstep. revert c. induction l as [|ia l IH]; intros c H; [done|].
  cbn. apply IH. by apply Hstep.
Qed.

Lemma pool_step_task i a c p :
  snd c !! i = Some p → is_task a = true →
  pool_step (i, a) c
  = (fst (resume a (fst c) p), <[i := snd (resume a (fst c) p)]> (snd c)).
Proof. intros Hp Ha. unfold pool_step. cbn. rewrite Hp. by destruct a. Qed.

Lemma pool_step_idle i a c :
  snd c !! i = None → is_task a = true → pool_step (i, a) c = c.
Proof. intros Hp Ha. unfold pool_step. cbn. rewrite Hp. by destruct a. Qed.

Lemma pool_step_environment i a c :
  is_task a = false → pool_step (i, a) c = (environment a (fst c), snd c).
Proof. intros Ha. unfold pool_step. cbn. by destruct a. Qed.

Lemma pool_contained_step mails ia c :
  pool_under (λ w, under anything (contained w)) mails c →
  pool_under (λ w, under anything (contained w)) mails (pool_step ia c).
Proof.
  destruct ia as [i0 a]. intros H.
  destruct (is_task a) eqn:Ha.
  - destruct (snd c !! i0) as [p0|] eqn:Hp0.
    + rewrite (pool_step_task _ _ _ p0) by done.
      intros i p Hi. cbn in Hi.
      destruct (decide (i0 = i)) as [->|Hne].
      * rewrite list_lookup_insert_eq in Hi by (by eapply lookup_lt_Some).
        injection Hi as <-.
        destruct (H i p0 Hp0) as (m & Hm & Hu). exists m. split; [done|].
        cbn [fst]. rewrite <- surjective_pairing.
        by apply under_resume.
      * rewrite list_lookup_insert_ne in Hi by done.
        destruct (H i p Hi) as (m & Hm & (σ0 & Hinv & _)).
        exists m. split; [done|]. by exists σ0.
    + by rewrite pool_step_idle.
  - rewrite pool_step_environment by done.
    intros i p Hi. destruct (H i p Hi) as (m & Hm & (σ0 & Hinv & _)).
    exists m. split; [done|]. by exists σ0.
Qed.

Lemma pool_registered_step mails ia c :
  NoDup (fst <$> mails) →
  pool_under (λ w, under (rely w) (workflow_assertion w)) mails c →
  pool_under (λ w, under (rely w) (workflow_assertion w)) mails (pool_step ia c).
Proof.
  destruct ia as [i0 a]. intros Hnd H.
  destruct (is_task a) eqn:Ha.
  - destruct (snd c !! i0) as [p0|] eqn:Hp0.
    + rewrite (pool_step_task _ _ _ p0) by done.
      destruct (H i0 p0 Hp0) as (m0 & Hm0 & Hu0).
      intros i p Hi. cbn in Hi.
      destruct (decide (i0 = i)) as [->|Hne].
      * rewrite list_lookup_insert_eq in Hi by (by eapply lookup_lt_Some).
        injection Hi as <-.
        exists m0. split; [done|].
        cbn [fst]. rewrite <- surjective_pairing.
        apply under_resume; [apply rely_refl|done].
      * rewrite list_lookup_insert_ne in Hi by done.
        destruct (H i p Hi) as (m & Hm & (σ0 & Hinv & Hr)).
        exists m. split; [done|]. exists σ0. split; [done|].
        eapply rely_trans; [exact Hr|]. cbn [fst].
        apply (acts_for_rely (fst m0)).
        -- apply (under_now _ _ _ Hu0).
        -- intros Heq. apply Hne.
           eapply NoDup_lookup; [exact Hnd| |];
             rewrite list_lookup_fmap; [by rewrite Hm0|by rewrite Hm, Heq].
    + by rewrite pool_step_idle.
  - rewrite pool_step_environment by done.
    intros i p Hi. destruct (H i p Hi) as (m & Hm & Hu).
    exists m. split; [done|].
    apply under_environment; [apply rely_trans|apply rely_environment|done].
Qed.

Lemma pool_spawn_under Q mails σ :
  (∀ w e, Q w (σ, run_agent_workflow w e)) →
  pool_under Q mails (σ, spawn mails).
Proof.
  intros HQ i p Hi. unfold spawn in Hi. cbn in Hi.
  rewrite list_lookup_fmap in Hi.
  destruct (mails !! i) as [[w e]|] eqn:Hm; [|done].
  injection Hi as <-. exists (w, e). split; [done|]. apply HQ.
Qed.

(** ** Waking a waiting workflow *)




(** ** The theorems *)


(** As long as every [await broadcast_message] returns, which is how
    [perform_go] takes it: in any pool of workflows and along any schedule
    no coroutine ends with an exception; and whenever a workflow awaits a
    pipeline stage and that stage raises [x], the workflow's next step
    broadcasts [workflow_error] for its own id with a text that ends with
    [str x], and the workflow has returned, the state and the other
    coroutines being otherwise untouched. In the poller, a callback that
    raises stops neither the loop over the fetched e-mails (every one of
    them is still handed to the callback) nor the polling loop. *)
Lemma contained_while_broadcasts_return σ mails schedule
    (q : Poller.poller) (emails : list Poller.email) interval listing :
  let c := pool_exec schedule (σ, spawn mails) in
  (∀ i p, snd c !! i = Some p →
     ∃ m, mails !! i = Some m
          ∧ (∀ x, p ≠ Raise x)
          ∧ (∀ call k x, p = Do (RunInExecutor call) k →
               ∃ prefix,
                 pool_exec [(i, Completes (inl x)); (i, Go)] c
                 = (do_broadcast_message
                      (workflow_error (fst m) (prefix +:+ str x)) (fst c),
                    <[i := Ret ()]> (snd c))))
  ∧ (Forall (λ e, Poller.header_fails e = false) emails →
     ∃ q', Poller.for_emails q emails = inr q'
           ∧ Poller.callbacks q' = Poller.callbacks q ++ (Poller.id <$> emails)
           ∧ Poller.running q' = Poller.running q)
  ∧ (listing ≠ Poller.KeyboardInterrupt →
     Poller.running (Poller.cycle interval q listing) = Poller.running q).
Proof.
  intros c. split; [|split].
  - assert (Hu : pool_under (λ w, under anything (contained w)) mails c).
    { apply pool_under_exec.
      - intros ia c'. apply pool_contained_step.
      - apply pool_spawn_under. intros w' e'. exists σ. split; [|done].
        apply run_agent_workflow_contained. }
    intros i p Hi. destruct (Hu i p Hi) as (m & Hm & Hw).
    exists m. split; [done|].
    apply under_now in Hw. cbn [fst snd] in Hw.
    destruct Hw as [Hnot Herr]. split.
    + intros x ->. exact Hnot.
    + intros call k x ->. cbn in Herr.
      destruct (Herr x (fst c)) as [prefix Hres]. exists prefix.
      unfold pool_exec. cbn [foldl].
      rewrite (pool_step_task _ _ _ _ Hi) by done. cbn [resume perform fst snd].
      rewrite (pool_step_task _ _ _ (k (inl x))); [|cbn [snd]|done].
      * cbn [fst snd]. rewrite Hres. cbn [fst snd].
        by rewrite list_insert_insert_eq.
      * apply list_lookup_insert_eq. by eapply lookup_lt_Some.
  - revert q. induction emails as [|e emails IH]; intros q Hh.
    + exists q. cbn. by rewrite app_nil_r.
    + apply Forall_cons in Hh as [He Hh]. cbn. rewrite He.
      destruct (IH (Poller.handle_email q e) Hh) as (q' & Hq' & Hc & Hr).
      exists q'. split; [done|]. rewrite Hc, Hr.
      unfold Poller.handle_email. destruct (Poller.callback_raises e); cbn;
        by rewrite <- app_assoc.
  - intros Hl. unfold Poller.cycle.
    assert (Hfetch : Poller.running (snd (Poller.fetch_unread_emails q listing))
                     = Poller.running q).
    { unfold Poller.fetch_unread_emails. destruct listing; try done.
      by destruct (Poller.fetch_messages _ _). }
    assert (Hfor : ∀ es q0 q1,
              Poller.for_emails q0 es = inr q1 ∨ Poller.for_emails q0 es = inl q1 →
              Poller.running q1 = Poller.running q0).
    { induction es as [|e es IH]; intros q0 q1 H.
      - cbn in H. destruct H as [H|H]; by simplify_eq.
      - cbn in H. destruct (Poller.header_fails e).
        + destruct H as [H|H]; by simplify_eq.
        + rewrite (IH _ _ H). unfold Poller.handle_email.
          by destruct (Poller.callback_raises e). }
    destruct listing; try done;
      destruct (Poller.fetch_unread_emails q _) as [es q0] eqn:Hf;
      cbn [snd] in Hfetch; rewrite <- Hfetch;
      destruct (Poller.for_emails q0 es) as [q1|q1] eqn:Hq;
      cbn; try (by apply Hfor with es; auto).
    all: unfold Poller.check_errors; destruct (decide _); cbn;
      apply Hfor with es; auto.
Qed.

(** C7, which fails where [broadcast_message] does not return. Two clients
    are connected, the first of them gone. Stage 1 of the workflow "m1"
    raises; the outer [except Exception] catches the error and calls
    [broadcast_message] with the [workflow_error]. The [send_json] to the
    first client raises, and the client is put on [disconnected]. While
    the [send_json] to the second client is awaited, the handler of the
    first client meets [WebSocketDisconnect] and removes its connection
    (line 133). The second client is sent the error; then line 150 removes
    the first connection again, and [list.remove] raises [ValueError]
    inside the [except] clause: the exception leaves
    [run_agent_workflow]. Without the handler's step in between, the same
    run returns. *)
Theorem error_broadcast_raises :
  let start :=
    (server_dead_first, Running (run_agent_workflow "m1" refund_mail)) in
  let reporting :=
    [Task (Completes (inl (Exception "quota exceeded"))); Task Go;
     Send Advance; Send SendRaises; Send Advance] in
  let rest := [Send SendReturns; Send Advance] in
  let final :=
    fine_exec (reporting ++ Closes dead_client WebSocketDisconnect :: rest)
      start in
  snd final = Running (Raise (Exception "list.remove(x): x not in list"))
  ∧ broadcasts (fst final) = [workflow_error "m1" "quota exceeded"]
  ∧ outbox (fst final) = [(1, workflow_error "m1" "quota exceeded")]
  ∧ websocket_connections (fst final) = [ {| ws_id := 1; ws_alive := true |} ]
  ∧ fine_exec (reporting ++ rest) start
    = (do_broadcast_message (workflow_error "m1" "quota exceeded")
         server_dead_first,
       Running (Ret ())).
Proof. repeat split. Qed.


(** C5, as stated, fails: with an approval already pending for "m1",
    registering another one for "m1" does not raise; it returns and the new
    approval has taken the place of the old one. *)
Lemma register_over_pending_succeeds :
  pending_approvals server_pending !! "m1" = Some stale_approval
  ∧ snd (run_atomic (register "m1" fresh_approval) server_pending) = Ret ()
  ∧ pending_approvals
      (fst (run_atomic (register "m1" fresh_approval) server_pending)) !! "m1"
    = Some fresh_approval.
Proof. by vm_compute. Qed.

(** C5, amended. Registering never fails, whatever the registry holds: it
    returns, the approval stored under the id is the new one (an older one is
    replaced), the event stored under the id is a new one that is not set,
    and the entries of the other ids are as before. *)
Theorem register_replaces σ workflow_id data :
  let σ' := fst (run_atomic (register workflow_id data) σ) in
  snd (run_atomic (register workflow_id data) σ) = Ret ()
  ∧ pending_approvals σ' !! workflow_id = Some data
  ∧ approval_events σ' !! workflow_id = Some (length (events σ))
  ∧ events σ' = events σ ++ [false]
  ∧ is_set σ' (length (events σ)) = false
  ∧ (∀ w, w ≠ workflow_id →
        pending_approvals σ' !! w = pending_approvals σ !! w
        ∧ approval_events σ' !! w = approval_events σ !! w).
Proof.
  cbn. split; [done|]. split; [apply lookup_insert_eq|].
  split; [apply lookup_insert_eq|]. split; [done|]. split.
  - unfold is_set. cbn. by rewrite lookup_app_r, Nat.sub_diag.
  - intros w Hw. by rewrite !lookup_insert_ne.
Qed.

(** ** The websocket handler *)

Lemma exec_Ret {A} l σ (x : A) : exec l (σ, Ret x) = (environment_all l σ, Ret x).
Proof.
  revert σ. induction l as [|a l IH]; intros σ; [done|].
  cbn. destruct a; cbn; apply IH.
Qed.


Lemma exec_cons {A} a l (c : server * coro A) : exec (a :: l) c = exec l (step a c).
Proof. done. Qed.


Arguments exec : simpl never.





(** ** Resuming after the wait *)

Lemma String_eqb_false (s t : string) : s ≠ t → String.eqb s t = false.
Proof. by apply String.eqb_neq. Qed.

Lemma is_set_fresh σ' σ :
  events σ' = events σ ++ [false] → is_set σ' (length (events σ)) = false.
Proof. unfold is_set. intros ->. by rewrite lookup_app_r, Nat.sub_diag. Qed.

(** The notification block up to its wait, and what the wait returns to. *)
Lemma notification_suspends σ workflow_id email result :
  default "" (st_triage_decision result) = "notify_human" →
  ∃ e k,
    snd (exec (until_waiting result) (σ, run_agent_workflow workflow_id email))
    = Do (WaitFor e 600) k
    ∧ k (inr ())
      = try_except
          (after ← notify_resume workflow_id email result;
           finish workflow_id email after)
          (report_error workflow_id).
Proof.
  intros Ht. unfold exec, until_waiting, run_agent_workflow,
    run_agent_workflow_body. cbn. rewrite Ht. cbn.
  rewrite lookup_insert_eq. cbn. by eexists _, _.
Qed.

(** The approval block up to its wait, and what the wait returns to. *)
Lemma approval_block_suspends workflow_id email result σ :
  truthy_flag (st_requires_approval result) = true →
  st_pending_action result ≠ Some None →
  let data :=
    draft_data workflow_id result (pending_action_of result) (clock σ) in
  let σ' := suspended workflow_id data σ in
  ∃ k,
    run_atomic (from_approval_block workflow_id email result) σ
    = (σ', Do (WaitFor (length (events σ)) 600) k)
    ∧ k (inr ()) = from_approval_resume workflow_id email result
    ∧ pending_approvals σ' !! workflow_id = Some data
    ∧ approval_events σ' !! workflow_id = Some (length (events σ))
    ∧ is_set σ' (length (events σ)) = false
    ∧ (∀ n, exec (replicate n Go) (σ', Do (WaitFor (length (events σ)) 600) k)
            = (σ', Do (WaitFor (length (events σ)) 600) k)).
Proof.
  intros Hr Hpa data σ'.
  assert (Hunset : is_set σ' (length (events σ)) = false).
  { by apply is_set_fresh. }
  assert (Hrun : ∃ k,
    run_atomic (from_approval_block workflow_id email result) σ
    = (σ', Do (WaitFor (length (events σ)) 600) k)
    ∧ k (inr ()) = from_approval_resume workflow_id email result).
  { subst σ' data. clear Hunset.
    unfold from_approval_block, finish, pending_action_of.
    rewrite Hr. unfold draft_approval.
    destruct (st_pending_action result) as [[pa|]|] eqn:Hp; [|done|]; cbn;
      rewrite lookup_insert_eq; cbn;
      rewrite (is_set_fresh _ σ) by done; by eexists. }
  destruct Hrun as (k & Hrun & Hk). exists k. split; [exact Hrun|].
  split; [exact Hk|].
  split; [apply lookup_insert_eq|]. split; [apply lookup_insert_eq|].
  split; [done|].
  induction n as [|n IH]; [done|].
  cbn [replicate]. rewrite exec_cons. unfold step, resume.
  cbn [fst snd perform perform_go]. rewrite Hunset. exact IH.
Qed.

(** Both ways to the approval block. *)
Lemma approval_block_reached workflow_id email result :
  comes_to_approval_block workflow_id email result.
Proof.
  split.
  - intros Ht σ. apply String_eqb_false in Ht.
    unfold exec, run_agent_workflow, run_agent_workflow_body. cbn.
    by rewrite Ht.
  - intros notified draft_result dec σ -> Ht Hd.
    destruct (notification_suspends σ workflow_id email notified Ht)
      as (e & k & Hk & Hres).
    exists e, k. split; [exact Hk|].
    intros σ1 Hdec. rewrite Hres. unfold notify_resume. cbn.
    rewrite Hdec. cbn. rewrite Hd. cbn. by eexists.
Qed.

(** C10. When the wait returns and no decision is recorded for the
    workflow, the notification goes on as for "ignore" and the approval
    block as for "deny": in both, the workflow runs to its end without
    calling the executor at all; it broadcasts the completion and saves a
    row that is not approved, with no action taken. The approval block is
    the one [run_agent_workflow] comes to on either way
    ([comes_to_approval_block]). *)
Theorem missing_decision_defaults σ workflow_id email result :
  (default "" (st_triage_decision result) = "notify_human" →
   ∃ e k,
     snd (exec (until_waiting result) (σ, run_agent_workflow workflow_id email))
     = Do (WaitFor e 600) k
     ∧ ∀ σ', approval_decisions σ' !! workflow_id = None →
         run_atomic (k (inr ())) σ'
         = (set_memory
              (fmap (λ rows, rows ++
                       [not_approved workflow_id email "notify_human"]))
              (do_broadcast_message
                 (workflow_complete workflow_id "ignored" "complete" None) σ'),
            Ret ()))
  ∧ (truthy_flag (st_requires_approval result) = true →
     st_pending_action result ≠ Some None →
     ∃ k,
       run_atomic (from_approval_block workflow_id email result) σ
       = (suspended workflow_id
            (draft_data workflow_id result (pending_action_of result) (clock σ))
            σ,
          Do (WaitFor (length (events σ)) 600) k)
       ∧ ∀ σ', approval_decisions σ' !! workflow_id = None →
           run_atomic (k (inr ())) σ'
           = (do_broadcast_message
                (workflow_complete workflow_id "denied" "cancelled" None)
                (set_memory
                   (fmap (λ rows, rows ++
                            [not_approved workflow_id email
                               (default "respond" (st_triage_decision result))]))
                   σ'),
              Ret ()))
  ∧ comes_to_approval_block workflow_id email result.
Proof.
  split; [|split; [|apply approval_block_reached]].
  - intros Ht.
    destruct (notification_suspends σ workflow_id email result Ht)
      as (e & k & Hk & Hres).
    exists e, k. split; [exact Hk|].
    intros σ' Hd. rewrite Hres. unfold notify_resume. cbn. rewrite Hd. done.
  - intros Hr Hp.
    destruct (approval_block_suspends workflow_id email result σ Hr Hp)
      as (k & Hrun & Hk & _).
    exists k. split; [exact Hrun|].
    intros σ' Hd. rewrite Hk. unfold from_approval_resume, approval_resume.
    cbn. rewrite Hd. done.
Qed.

Lemma apply_edit_body s content pa a :
  st_pending_action s = Some (Some pa) →
  args pa = Some a →
  content ≠ "" →
  apply_edit s "edit" content
  = Ret (with_pending_action (with_human_feedback s content)
           {| action_type := action_type pa;
              args := Some (<["body" := content]> a) |}).
Proof.
  intros Hpa Ha Hc. apply String_eqb_false in Hc.
  unfold apply_edit, truthy_str. rewrite Hc. cbn. rewrite Hpa. cbn.
  rewrite bool_decide_eq_true_2 by (right; rewrite Ha; eauto).
  by rewrite Ha.
Qed.

Lemma apply_edit_without_args s content pa :
  st_pending_action s = Some (Some pa) →
  is_Some (action_type pa) →
  args pa = None →
  content ≠ "" →
  apply_edit s "edit" content = Raise (KeyError "args").
Proof.
  intros Hpa Hty Ha Hc. apply String_eqb_false in Hc.
  unfold apply_edit, truthy_str. rewrite Hc. cbn. rewrite Hpa. cbn.
  rewrite bool_decide_eq_true_2 by (by left). by rewrite Ha.
Qed.

Lemma apply_edit_skipped s content :
  truthy_pending (st_pending_action s) = false →
  content ≠ "" →
  apply_edit s "edit" content = Ret (with_human_feedback s content).
Proof.
  intros Hpa Hc. apply String_eqb_false in Hc.
  unfold apply_edit, truthy_str. rewrite Hc. cbn. by rewrite Hpa.
Qed.

(** C9, as stated, fails: not every draft approval resolved with "edit"
    and a content has a body to take the content. Stage 1 answers with a
    draft whose pending action has a type and no arguments; the approval is
    suspended all the same, the human edits it to "New body", and line 466
    raises [KeyError]: the workflow ends with [workflow_error] "'args'" and
    at no point of the run is [execute_action_node] called. And when stage 1
    requires approval without any pending action, the same edit is
    executed, with a state that has no pending action: "New body" is in
    ["human_feedback"] only. *)
Lemma edit_finds_no_body :
  let edit :=
    [Receive 1 (human_decision "m1" "edit" (Some "New body")); Callback] in
  let failing :=
    until_waiting drafted_without_args ++ edit ++ [Go; Go; Go] in
  let run (l : list action) :=
    exec l (server0, run_agent_workflow "m1" refund_mail) in
  snd (run failing) = Ret ()
  ∧ last (broadcasts (fst (run failing))) = Some (workflow_error "m1" "'args'")
  ∧ forallb (λ n, negb (awaits_execution (snd (run (take n failing)))))
      (seq 0 (S (length failing))) = true
  ∧ awaited (snd (run (until_waiting approval_without_action
                         ++ edit ++ [Go; Go])))
    = Some (execute_action_node
              (with_human_feedback
                 (with_human_decision approval_without_action "edit")
                 "New body"))
  ∧ st_pending_action
      (with_human_feedback
         (with_human_decision approval_without_action "edit") "New body")
    = None.
Proof. repeat split. Qed.

(** C9, amended. A draft awaits approval in the approval block and the
    decision recorded when the wait returns is "edit" with a content that
    is not empty. What happens next depends on the pending action of the
    draft. If it has arguments, the workflow goes on, without changing the
    state, to the executor call of [execute_action_node], and the state it
    hands over has the edited content as the ["body"] argument of the
    pending action (the other arguments being those of the draft), as the
    human feedback, and "edit" as the human decision: execution runs with
    the edited content. If it has a type and no arguments, the
    substitution raises [KeyError]: the workflow broadcasts
    [workflow_error] "'args'" and returns, and the executor is not called.
    If there is no pending action, or an empty one, the substitution is
    skipped: [execute_action_node] is called with the content as the human
    feedback only, the pending action being as it was. The approval block
    is the one [run_agent_workflow] comes to on either way
    ([comes_to_approval_block]). *)
Theorem edited_content_is_executed σ workflow_id email result dec :
  truthy_flag (st_requires_approval result) = true →
  st_pending_action result ≠ Some None →
  dr_decision dec = "edit" →
  dr_edited_content dec ≠ "" →
  let pa := pending_action_of result in
  let content := dr_edited_content dec in
  let unedited :=
    with_human_feedback (with_human_decision result "edit") content in
  (∃ k,
     run_atomic (from_approval_block workflow_id email result) σ
     = (suspended workflow_id (draft_data workflow_id result pa (clock σ)) σ,
        Do (WaitFor (length (events σ)) 600) k)
     ∧ ∀ σ', approval_decisions σ' !! workflow_id = Some dec →
         (∀ a, args pa = Some a →
            ∃ k',
              run_atomic (k (inr ())) σ'
              = (σ', Do (RunInExecutor
                           (execute_action_node
                              (edited_state result pa a content))) k'))
         ∧ (is_Some (action_type pa) → args pa = None →
            run_atomic (k (inr ())) σ'
            = (do_broadcast_message (workflow_error workflow_id "'args'") σ',
               Ret ()))
         ∧ (action_type pa = None → args pa = None →
            ∃ k',
              run_atomic (k (inr ())) σ'
              = (σ', Do (RunInExecutor (execute_action_node unedited)) k')))
  ∧ (∀ a, ∃ a',
       st_pending_action (edited_state result pa a content)
       = Some (Some {| action_type := action_type pa; args := Some a' |})
       ∧ a' !! "body" = Some content
       ∧ (∀ key, key ≠ "body" → a' !! key = a !! key)
       ∧ st_human_feedback (edited_state result pa a content) = Some content
       ∧ st_human_decision (edited_state result pa a content) = Some "edit")
  ∧ st_pending_action unedited = st_pending_action result
  ∧ st_human_feedback unedited = Some content
  ∧ comes_to_approval_block workflow_id email result.
Proof.
  intros Hr Hpa Hd Hc pa content unedited.
  split; [|split; [|split; [done|split; [done|apply approval_block_reached]]]].
  - destruct (approval_block_suspends workflow_id email result σ Hr Hpa)
      as (k & Hrun & Hk & _).
    exists k. split; [exact Hrun|].
    intros σ' Hdec. rewrite Hk. unfold from_approval_resume, approval_resume.
    cbn. rewrite Hdec. cbn. rewrite Hd. cbn.
    subst pa. unfold pending_action_of.
    split; [|split].
    + intros a Ha.
      destruct (st_pending_action result) as [[pa|]|] eqn:Hp;
        [|done|done].
      rewrite (apply_edit_body _ _ pa a) by done. cbn. by eexists.
    + intros Hty Ha.
      destruct (st_pending_action result) as [[pa|]|] eqn:Hp;
        [|done|by destruct Hty].
      by rewrite (apply_edit_without_args _ _ pa).
    + intros Hty Ha.
      rewrite apply_edit_skipped; [cbn; by eexists| |done].
      cbn. destruct (st_pending_action result) as [[pa|]|] eqn:Hp;
        [|done|done].
      cbn in Hty, Ha. cbn. apply bool_decide_eq_false_2.
      rewrite Hty, Ha. by intros [[? ?]|[? ?]].
  - intros a. eexists. split; [reflexivity|].
    split; [apply lookup_insert_eq|]. split; [|done].
    intros key Hk. by rewrite lookup_insert_ne.
Qed.



(** C1: the code at a workflow that times out, in both flavours. The
    workflow returns after one [workflow_timeout] broadcast and records
    nothing, and a decision that arrives later is stored without the
    workflow moving again; but the pending approval is still in
    [pending_approvals] after the timeout: only the late decision removes
    it. *)
Theorem timeout_keeps_pending_approval :
  let timed_out result :=
    exec (until_waiting result ++ [Deadline; Go])
      (server0, run_agent_workflow "m1" refund_mail) in
  let late result :=
    exec [Receive 1 (human_decision "m1" "approve" None); Callback; Go; Go]
      (timed_out result) in
  let outcome result :=
    returned (snd (timed_out result)) = true
    ∧ filter (λ m, is_workflow_timeout "m1" m = true)
        (broadcasts (fst (timed_out result)))
      = [workflow_timeout "m1"]
    ∧ last (broadcasts (fst (timed_out result))) = Some (workflow_timeout "m1")
    ∧ memory (fst (timed_out result)) = Some []
    ∧ is_Some (pending_approvals (fst (timed_out result)) !! "m1")
    ∧ dr_decision <$> approval_decisions (fst (late result)) !! "m1"
      = Some "approve"
    ∧ returned (snd (late result)) = true
    ∧ broadcasts (fst (late result))
      = broadcasts (fst (timed_out result)) ++ [decision_recorded "m1" "approve"]
    ∧ memory (fst (late result)) = Some []
    ∧ pending_approvals (fst (late result)) !! "m1" = None in
  outcome drafted ∧ outcome notified.
Proof.
  cbv zeta. repeat split; try (by vm_compute).
  all: vm_compute; eauto.
Qed.

(** ** The poller's error counter *)




(** ** Witnesses *)

(** The witness of C9: the refund draft, edited to "New body". *)
Lemma edited_content_is_executed_witness :
  ∃ k,
    run_atomic (from_approval_block "m1" refund_mail drafted) server0
    = (suspended "m1"
         (draft_data "m1" drafted (pending_action_of drafted) (clock server0))
         server0,
       Do (WaitFor (length (events server0)) 600) k)
    ∧ ∀ σ', approval_decisions σ' !! "m1" = Some edit_decision →
        ∃ updated_state k',
          run_atomic (k (inr ())) σ'
          = (σ', Do (RunInExecutor (execute_action_node updated_state)) k')
          ∧ st_pending_action updated_state
            = Some (Some {| action_type := Some "send_email";
                            args := Some (<["body" := "New body"]>
                                            {[ "recipient" := "customer@example.com";
                                               "subject" := "Re: Refund request";
                                               "body" := "Dear customer..." ]}) |}).
Proof.
  destruct (edited_content_is_executed server0 "m1" refund_mail drafted
              edit_decision)
    as ((k & Hk & H) & _); [done..|].
  exists k. split; [exact Hk|]. intros σ' Hd.
  destruct (proj1 (H σ' Hd) _ eq_refl) as (k' & Hrun).
  by eexists _, k'.
Defined.


(** The witness of C10: the notification of the refund e-mail, its wait
    returning with no decision recorded. *)
Lemma missing_decision_defaults_witness :
  ∃ e k,
    snd (exec (until_waiting notified) (server0, run_agent_workflow "m1" refund_mail))
    = Do (WaitFor e 600) k
    ∧ snd (run_atomic (k (inr ())) server0) = Ret ().
Proof.
  destruct (proj1 (missing_decision_defaults server0 "m1" refund_mail notified)
              eq_refl) as (e & k & Hk & H).
  exists e, k. split; [exact Hk|]. by rewrite (H server0 eq_refl).
Defined.

(** * More of the code *)

(** ** [broadcast_message] *)

Lemma list_remove_middle x pre l :
  x ∉ pre → list_remove x (pre ++ x :: l) = Some (pre ++ l).
Proof.
  intros H. induction pre as [|y pre IH]; cbn.
  - by rewrite decide_True.
  - apply not_elem_of_cons in H as [Hne H].
    rewrite decide_False by done. by rewrite IH.
Qed.

(** The second loop finds every connection whose [send_json] raised. *)
Lemma remove_each_unreached pre connections sends :
  NoDup (pre ++ connections) →
  length sends = length connections →
  remove_each (unreached connections sends) (pre ++ connections)
  = (pre ++ reached connections sends, None).
Proof.
  revert pre sends.
  induction connections as [|ws connections IH]; intros pre sends Hnd Hlen.
  { by destruct sends. }
  destruct sends as [|[] sends]; [done|injection Hlen as Hlen..];
    cbn [unreached reached remove_each].
  - rewrite (cons_middle ws pre connections), app_assoc, IH.
    + by rewrite <- app_assoc.
    + by rewrite <- app_assoc.
    + done.
  - apply NoDup_app in Hnd as (Hpre & Hdis & Hnd).
    apply NoDup_cons in Hnd as [Hws Hnd].
    rewrite list_remove_middle.
    + apply IH; [|done]. apply NoDup_app. split; [done|]. split; [|done].
      intros x Hx Hin. apply (Hdis x Hx). by apply elem_of_cons; right.
    + intros Hin. apply (Hdis ws Hin). by apply elem_of_cons; left.
Qed.

Lemma set_outbox_app l1 l2 σ :
  set_outbox (λ o, o ++ l2) (set_outbox (λ o, o ++ l1) σ)
  = set_outbox (λ o, o ++ (l1 ++ l2)) σ.
Proof. unfold set_outbox. cbn. by rewrite app_assoc. Qed.

Lemma set_outbox_nil σ : set_outbox (λ o, o ++ []) σ = σ.
Proof. destruct σ. unfold set_outbox. cbn. by rewrite app_nil_r. Qed.

(** The first loop from its position [length pre], and the second loop
    after it. *)
Lemma broadcast_run_from m pre connections sends disconnected σ :
  websocket_connections σ = pre ++ connections →
  length sends = length connections →
  broadcast_run (uninterrupted sends)
    {| bc_message := m; bc_position := length pre; bc_awaited := None;
       bc_disconnected := disconnected |} σ
  = (set_websocket_connections
       (λ _, fst (remove_each (disconnected ++ unreached connections sends)
                    (pre ++ connections)))
       (set_outbox
          (λ o, o ++ ((λ ws, (ws_id ws, m)) <$> reached connections sends)) σ),
     match snd (remove_each (disconnected ++ unreached connections sends)
                  (pre ++ connections)) with
     | Some e => Failed e
     | None => Sent
     end).
Proof.
  revert pre sends disconnected σ.
  induction connections as [|ws connections IH];
    intros pre sends disconnected σ Hσ Hlen.
  - destruct sends; [|done]. unfold uninterrupted.
    cbn [fmap list_fmap concat app broadcast_run unreached reached].
    unfold broadcast_step. cbn [bc_awaited bc_position bc_disconnected].
    rewrite Hσ, !app_nil_r. rewrite lookup_ge_None_2 by done.
    rewrite set_outbox_nil.
    by destruct (remove_each disconnected pre) as [l [e|]].
  - destruct sends as [|returns sends]; [done|]. injection Hlen as Hlen.
    unfold uninterrupted. rewrite fmap_cons. cbn [concat app broadcast_run].
    unfold broadcast_step at 1. cbn [bc_awaited bc_position bc_disconnected
                                       bc_message].
    rewrite Hσ, list_lookup_middle by done.
    unfold broadcast_step at 1. cbn [bc_awaited bc_position bc_disconnected
                                       bc_message].
    assert (Hl : S (length pre) = length (pre ++ [ws])).
    { rewrite length_app. cbn. lia. }
    rewrite Hl. fold (uninterrupted sends).
    destruct returns; cbn [unreached reached].
    + rewrite IH; [|by cbn; rewrite Hσ, <- app_assoc|done].
      rewrite set_outbox_app, <- app_assoc. done.
    + rewrite IH; [|by rewrite Hσ, <- app_assoc|done].
      by rewrite <- !app_assoc.
Qed.

Lemma fine_exec_running sends σ p :
  fine_exec (Send <$> sends) (σ, Running p) = (σ, Running p).
Proof. induction sends as [|ev sends IH]; [done|]. exact IH. Qed.

(** A call that returns takes the workflow to what follows it. *)
Lemma fine_exec_sent evs b k σ σ' :
  broadcast_run evs b σ = (σ', Sent) →
  fine_exec (Send <$> evs) (σ, Broadcasting b k) = (σ', Running (k (inr ()))).
Proof.
  revert b σ. induction evs as [|ev evs IH]; intros b σ H; [done|].
  cbn [broadcast_run] in H. rewrite fmap_cons. unfold fine_exec.
  cbn [foldl]. unfold fine_step at 2. cbn [fst snd].
  destruct (broadcast_step ev b σ) as [σ1 [b1| |e]].
  - by apply IH.
  - injection H as ->. apply fine_exec_running.
  - done.
Qed.

Lemma reached_alive connections :
  reached connections (ws_alive <$> connections)
  = filter (λ ws, ws_alive ws = true) connections.
Proof.
  induction connections as [|ws connections IH]; [done|].
  rewrite fmap_cons, filter_cons. cbn [reached]. rewrite IH.
  destruct (ws_alive ws) eqn:H.
  - by rewrite decide_True.
  - by rewrite decide_False.
Qed.

(** X1. A call of [broadcast_message] that nothing interrupts, on a list
    that holds no connection twice, whatever each [send_json] does. The
    call returns: its second loop finds every connection it removes. The
    message went, in the order of the list, to the connections whose
    [send_json] returned and to nobody else, and these are the connections
    left in the list. With the sends doing what [ws_alive] says, this is
    the step [do_broadcast_message] by which a workflow at an
    [await broadcast_message(m)] moves on when the call is taken as one
    step. *)
Theorem broadcast_message_drops_the_disconnected m sends σ k :
  NoDup (websocket_connections σ) →
  length sends = length (websocket_connections σ) →
  broadcast_run (uninterrupted sends) (broadcast_start m) σ
  = (set_websocket_connections
       (λ _, reached (websocket_connections σ) sends)
       (set_outbox
          (λ o, o ++ ((λ ws, (ws_id ws, m))
                        <$> reached (websocket_connections σ) sends)) σ),
     Sent)
  ∧ (∀ ws, ws ∈ reached (websocket_connections σ) sends →
           ws ∈ websocket_connections σ)
  ∧ (sends = ws_alive <$> websocket_connections σ →
     fine_exec (Task Go :: (Send <$> uninterrupted sends))
       (σ, Running (Do (BroadcastMessage m) k))
     = (do_broadcast_message m σ, Running (k (inr ())))).
Proof.
  intros Hnd Hlen.
  assert (Hrun : ∀ σ0, websocket_connections σ0 = websocket_connections σ →
    broadcast_run (uninterrupted sends) (broadcast_start m) σ0
    = (set_websocket_connections
         (λ _, reached (websocket_connections σ) sends)
         (set_outbox
            (λ o, o ++ ((λ ws, (ws_id ws, m))
                          <$> reached (websocket_connections σ) sends)) σ0),
       Sent)).
  { intros σ0 Hσ0.
    pose proof (broadcast_run_from m [] (websocket_connections σ) sends [] σ0
                  Hσ0 Hlen) as H.
    pose proof (remove_each_unreached [] (websocket_connections σ) sends Hnd
                  Hlen) as Hrm.
    cbn [app length] in H, Hrm. rewrite Hrm in H. exact H. }
  split; [by apply Hrun|]. split.
  - clear. revert sends.
    induction (websocket_connections σ) as [|c l IH]; intros sends ws Hin;
      [by destruct sends|].
    destruct sends as [|[] sends]; cbn in Hin;
      [by apply elem_of_nil in Hin| |].
    + apply elem_of_cons in Hin as [->|Hin]; [by left|].
      right. by apply (IH sends).
    + right. by apply (IH sends).
  - intros Hs. unfold fine_exec. cbn [foldl]. unfold fine_step at 2.
    cbn [fst snd at_broadcast].
    pose proof (fine_exec_sent (uninterrupted sends) (broadcast_start m) k
                  _ _ (Hrun (set_broadcasts (λ b, b ++ [m]) σ) eq_refl)) as H.
    unfold fine_exec in H. rewrite H. f_equal.
    rewrite Hs, reached_alive. done.
Qed.

Lemma broadcast_message_drops_the_disconnected_witness :
  broadcast_run (uninterrupted [true; false])
    (broadcast_start (workflow_timeout "m1")) server_two_clients
  = (set_outbox (λ o, o ++ [(1, workflow_timeout "m1")]) server0, Sent).
Proof.
  refine (proj1 (broadcast_message_drops_the_disconnected
                   (workflow_timeout "m1") [true; false] server_two_clients
                   (λ _, Ret ()) _ eq_refl)).
  apply NoDup_cons. split.
  - intros H. apply elem_of_cons in H as [H|H]; [discriminate H|].
    by apply elem_of_nil in H.
  - apply NoDup_singleton.
Defined.

(** ** The handler's loop *)

(** X2. What one text received on a connection does. A JSON object of
    another type than "human_decision" is ignored, whatever else it holds.
    A decision whose workflow id and verdict are strings is handled,
    [edited_content], a string too, being optional. A text that is not
    JSON, a JSON value that is not an object, an object without ["type"],
    a decision without ["workflow_id"] or without ["decision"], and a
    decision whose workflow id is a list or an object, which cannot be a key
    of [approval_decisions] (line 102), all end the handler without a word
    to the client: nothing is stored or announced, and the connection is
    taken out of [websocket_connections], so that it receives no broadcast
    any more. *)
Theorem receive_text_cases ws data σ :
  (∀ fields v,
     data = Object fields → fields !! "type" = Some v →
     v ≠ JString "human_decision" →
     receive_text ws data σ = Some (σ, true))
  ∧ (∀ fields w d content,
       data = Object fields →
       fields !! "type" = Some (JString "human_decision") →
       fields !! "workflow_id" = Some (JString w) →
       fields !! "decision" = Some (JString d) →
       fields !! "edited_content" = JString <$> content →
       receive_text ws data σ
       = Some (decided (human_decision w d content) σ, true))
  ∧ ((∀ fields,
        data = Object fields →
        fields !! "type" = None
        ∨ (fields !! "type" = Some (JString "human_decision")
           ∧ (fields !! "workflow_id" = None
              ∨ fields !! "decision" = None
              ∨ ∃ type_name,
                  fields !! "workflow_id" = Some (JContainer type_name)))) →
     let σ' := set_websocket_connections (filter (λ c, ws_id c ≠ ws)) σ in
     receive_text ws data σ = Some (σ', false)
     ∧ pending_approvals σ' = pending_approvals σ
     ∧ approval_decisions σ' = approval_decisions σ
     ∧ events σ' = events σ
     ∧ scheduled σ' = scheduled σ
     ∧ broadcasts σ' = broadcasts σ
     ∧ outbox σ' = outbox σ
     ∧ ∀ m, ∀ x, x ∈ outbox (do_broadcast_message m σ') →
                 x ∈ outbox σ ∨ fst x ≠ ws).
Proof.
  split; [|split].
  - intros fields v -> Ht Hne. unfold receive_text, loads. rewrite Ht.
    destruct v as [type| |type_name]; [|done..].
    rewrite String_eqb_false; [done|]. by intros ->.
  - intros fields w d content -> Ht Hw Hd Hc. unfold receive_text, loads.
    rewrite Ht, String.eqb_refl, Hw, Hd, Hc.
    pose proof (handle_message_decided (human_decision w d content) σ eq_refl)
      as H.
    unfold human_decision in H. destruct content; cbn [fmap option_fmap option_map];
      by rewrite H.
  - intros H σ'. split; [|repeat (split; [done|])].
    + unfold receive_text, loads. destruct data as [e|e|fields]; try done.
      destruct (H fields eq_refl) as [Ht|[Ht [Hw|[Hd|[type_name Hw]]]]];
        rewrite Ht; cbn; [done|by rewrite Hw| |].
      * destruct (fields !! "workflow_id"); [|done]. by rewrite Hd.
      * rewrite Hw. by destruct (fields !! "decision").
    + cbn. intros m x Hx.
      apply elem_of_app in Hx as [Hx|Hx]; [by left|]. right.
      apply list_elem_of_fmap in Hx as (c & -> & Hc). cbn.
      apply list_elem_of_filter in Hc as [_ Hc].
      by apply list_elem_of_filter in Hc as [Hc _].
Qed.

Lemma list_remove_elem_of x l : x ∈ l → is_Some (list_remove x l).
Proof.
  induction l as [|y l IH]; intros H; [by apply elem_of_nil in H|].
  cbn. destruct (decide (x = y)); [eauto|].
  apply elem_of_cons in H as [?|H]; [done|].
  destruct (IH H) as [l' ->]. cbn. eauto.
Qed.

Lemma list_remove_not_elem_of x l : x ∉ l → list_remove x l = None.
Proof.
  induction l as [|y l IH]; intros H; [done|].
  apply not_elem_of_cons in H as [Hne H]. cbn.
  rewrite decide_False by done. by rewrite IH.
Qed.

(** X3. The two [except] clauses of the handler differ. While the
    connection is in [websocket_connections], a [WebSocketDisconnect]
    removes it. But once a broadcast has found its [send_json] failing and
    has dropped it, the [WebSocketDisconnect] clause, which removes without
    looking, raises [ValueError] out of the handler, whereas the
    [except Exception] clause, which looks first, leaves the state as it
    is. *)
Theorem disconnect_after_broadcast websocket m e σ :
  websocket ∈ websocket_connections σ →
  ws_alive websocket = false →
  (∃ σ', websocket_closed websocket WebSocketDisconnect σ = inr σ')
  ∧ websocket_closed websocket WebSocketDisconnect (do_broadcast_message m σ)
    = inl (Exception "list.remove(x): x not in list")
  ∧ websocket_closed websocket (OtherException e) (do_broadcast_message m σ)
    = inr (do_broadcast_message m σ).
Proof.
  intros Hin Hdead.
  assert (Hout : websocket ∉ websocket_connections (do_broadcast_message m σ)).
  { cbn. intros H. apply list_elem_of_filter in H as [H _]. congruence. }
  split; [|split].
  - unfold websocket_closed.
    destruct (list_remove_elem_of _ _ Hin) as [l ->]. eauto.
  - unfold websocket_closed. by rewrite list_remove_not_elem_of.
  - unfold websocket_closed. by rewrite decide_False.
Qed.

Lemma disconnect_after_broadcast_witness :
  websocket_closed dead_client WebSocketDisconnect
    (do_broadcast_message (workflow_timeout "m1") server_two_clients)
  = inl (Exception "list.remove(x): x not in list").
Proof.
  refine (proj1 (proj2 (disconnect_after_broadcast dead_client
            (workflow_timeout "m1") TimeoutError server_two_clients _ _))).
  - apply elem_of_cons. right. apply elem_of_cons. by left.
  - reflexivity.
Defined.

(** ** One outcome for each workflow *)

Arguments own : simpl never.

Lemma own_app w l1 l2 : own w (l1 ++ l2) = own w l1 ++ own w l2.
Proof. apply filter_app. Qed.

Lemma own_foreign w l : forallb (foreign w) l = true → own w l = [].
Proof.
  induction l as [|m l IH]; [done|]. cbn. intros H.
  apply andb_prop in H as [Hm Hl]. unfold own. rewrite filter_cons.
  rewrite decide_False by (by rewrite Hm). by apply IH.
Qed.

Lemma own_rely w σ σ' :
  rely w σ σ' → own w (broadcasts σ') = own w (broadcasts σ).
Proof.
  intros [_ _ _ _ (more & -> & Hf & _) _ _].
  by rewrite own_app, (own_foreign _ _ Hf), app_nil_r.
Qed.

Lemma own_snoc w l m :
  message_workflow_id m = w → is_decision_recorded m = false →
  own w (l ++ [m]) = own w l ++ [m].
Proof.
  intros Hw Hd. rewrite own_app. f_equal. unfold own. rewrite filter_cons.
  rewrite decide_True; [done|].
  unfold foreign. by rewrite Hd, Hw, String.eqb_refl.
Qed.

Lemma no_outcome_app l1 l2 :
  no_outcome (l1 ++ l2) = no_outcome l1 && no_outcome l2.
Proof. apply forallb_app. Qed.

Lemma no_outcome_reverse l : no_outcome (reverse l) = no_outcome l.
Proof.
  induction l as [|m l IH]; [done|].
  rewrite reverse_cons, no_outcome_app, IH. cbn.
  rewrite andb_true_r. apply andb_comm.
Qed.

Lemma ends_in_outcome_app l1 l2 :
  ends_in_outcome (l1 ++ l2)
  = match l2 with
    | [] => ends_in_outcome l1
    | _ => no_outcome l1 && ends_in_outcome l2
    end.
Proof.
  destruct l2 as [|m l2]; [by rewrite app_nil_r|].
  unfold ends_in_outcome. rewrite reverse_app.
  destruct (reverse (m :: l2)) as [|m' l'] eqn:H.
  { apply (f_equal length) in H. rewrite length_reverse in H. done. }
  cbn. rewrite no_outcome_app, no_outcome_reverse.
  destruct (is_outcome m'), (no_outcome l'), (no_outcome l1); done.
Qed.

(** What [ends_in_outcome] says. *)
Lemma ends_in_outcome_spec l :
  ends_in_outcome l = true ↔
  ∃ earlier m, l = earlier ++ [m] ∧ is_outcome m = true
               ∧ no_outcome earlier = true.
Proof.
  unfold ends_in_outcome. split.
  - destruct (reverse l) as [|m earlier] eqn:H; [done|].
    intros Hm. apply andb_prop in Hm as [Hm He].
    exists (reverse earlier), m.
    split; [|split; [done|by rewrite no_outcome_reverse]].
    by rewrite <- (reverse_involutive l), H, reverse_cons.
  - intros (earlier & m & -> & Hm & He).
    rewrite reverse_app. cbn. by rewrite Hm, no_outcome_reverse, He.
Qed.

Lemma no_outcome_spec l :
  no_outcome l = true ↔ ∀ m, m ∈ l → is_outcome m = false.
Proof.
  unfold no_outcome. rewrite forallb_forall. split.
  - intros H m Hm. apply negb_true_iff, H. by apply list_elem_of_In.
  - intros H m Hm. apply negb_true_iff, H. by apply list_elem_of_In.
Qed.

(** The walk again, with the messages sent so far kept at hand. *)
Ltac sent_so_far Hr :=
  lazymatch goal with
  | Hown : own ?w (broadcasts _) = ?before ++ _ |- invariant _ _ _ ?s =>
      let H := fresh "Hown" in
      eassert (H : own w (broadcasts s) = before ++ _)
        by (cbn; rewrite ?own_snoc by reflexivity;
            rewrite (own_rely _ _ _ Hr), Hown, <- ?app_assoc; reflexivity);
      clear Hown
  end.

Ltac outcome_assertion :=
  let σ := fresh "σ" in let Hr := fresh "Hr" in
  intros σ Hr; eexists; split;
  [ rewrite (own_rely _ _ _ Hr); eassumption
  | cbn [returned];
    rewrite ?ends_in_outcome_app, ?no_outcome_app;
    lazymatch goal with
    | Hs : no_outcome _ = true |- _ => rewrite ?Hs
    end;
    reflexivity ].

Ltac follow finished :=
  lazymatch goal with
  | |- invariant _ _ (Do _ _) _ =>
      apply invariant_Do;
      [ outcome_assertion
      | let σ := fresh "σ" in let a := fresh "a" in let σ1 := fresh "σ" in
        let r := fresh "r" in let Hr := fresh "Hr" in let Hp := fresh "Hp" in
        intros σ a σ1 r Hr Hp; destruct a; try discriminate Hp;
        performed Hp; sent_so_far Hr; cbn ]
  | |- invariant _ _ (Ret _) _ => apply invariant_Ret; outcome_assertion
  | |- invariant _ _ ?p _ =>
      first
        [ finished
        | let x := stuck_on p in destruct x eqn:?; cbn
        | progress (unfold draft_approval, approval_resume, apply_edit,
                      notify_human, notify_resume, wait_for_decision,
                      register, call);
          cbn ]
  end.

Ltac so_far_none :=
  rewrite ?ends_in_outcome_app, ?no_outcome_app;
  lazymatch goal with
  | Hs : no_outcome _ = true |- _ => rewrite ?Hs
  end;
  reflexivity.

Lemma finish_one_outcome wid email after σ before sent :
  own wid (broadcasts σ) = before ++ sent →
  match after with
  | Returned => ends_in_outcome sent
  | FallsThrough _ => no_outcome sent
  end = true →
  invariant (rely wid) (one_outcome wid before)
    (try_except (finish wid email after) (report_error wid)) σ.
Proof.
  intros Hown Hs. destruct after as [|result]; unfold finish; cbn.
  - apply invariant_Ret. intros σ' Hr. exists sent.
    split; [by rewrite (own_rely _ _ _ Hr)|done].
  - repeat follow fail.
Qed.

Lemma run_agent_workflow_one_outcome wid email σ before sent :
  own wid (broadcasts σ) = before ++ sent →
  no_outcome sent = true →
  invariant (rely wid) (one_outcome wid before) (run_agent_workflow wid email) σ.
Proof.
  intros Hown Hs.
  unfold run_agent_workflow, run_agent_workflow_body; cbn.
  repeat follow ltac:(eapply finish_one_outcome; [eassumption|so_far_none]).
Qed.

Lemma invariant_and {A} R (P Q : server → coro A → Prop) p σ :
  invariant R P p σ → invariant R Q p σ →
  invariant R (λ σ p, P σ p ∧ Q σ p) p σ.
Proof.
  revert σ. induction p as [x|e|X op k IH]; intros σ HP HQ.
  - destruct HP as [HP _], HQ as [HQ _]. split; [|done]. intros σ' Hr. auto.
  - destruct HP as [HP _], HQ as [HQ _]. split; [|done]. intros σ' Hr. auto.
  - destruct HP as [HP HkP], HQ as [HQ HkQ]. apply invariant_Do.
    + intros σ' Hr. auto.
    + intros σ' a σ1 r Hr Hp. apply IH; eauto.
Qed.

(** A pool of workflows with distinct ids, each under an invariant that has
    it write only what is its own: a step of the pool keeps every one of
    them under its invariant. *)
Lemma pool_acting_step (P : string → server → coro unit → Prop) mails ia c :
  (∀ w σ p, P w σ p → acts_for w p) →
  NoDup (fst <$> mails) →
  pool_under (λ w, under (rely w) (P w)) mails c →
  pool_under (λ w, under (rely w) (P w)) mails (pool_step ia c).
Proof.
  destruct ia as [i0 a]. intros Hacts Hnd H.
  destruct (is_task a) eqn:Ha.
  - destruct (snd c !! i0) as [p0|] eqn:Hp0.
    + rewrite (pool_step_task _ _ _ p0) by done.
      destruct (H i0 p0 Hp0) as (m0 & Hm0 & Hu0).
      intros i p Hi. cbn in Hi.
      destruct (decide (i0 = i)) as [->|Hne].
      * rewrite list_lookup_insert_eq in Hi by (by eapply lookup_lt_Some).
        injection Hi as <-.
        exists m0. split; [done|].
        cbn [fst]. rewrite <- surjective_pairing.
        apply under_resume; [apply rely_refl|done].
      * rewrite list_lookup_insert_ne in Hi by done.
        destruct (H i p Hi) as (m & Hm & (σ0 & Hinv & Hr)).
        exists m. split; [done|]. exists σ0. split; [done|].
        eapply rely_trans; [exact Hr|]. cbn [fst].
        apply (acts_for_rely (fst m0)).
        -- apply (Hacts _ (fst c)). apply (under_now _ _ _ Hu0).
        -- intros Heq. apply Hne.
           eapply NoDup_lookup; [exact Hnd| |];
             rewrite list_lookup_fmap; [by rewrite Hm0|by rewrite Hm, Heq].
    + by rewrite pool_step_idle.
  - rewrite pool_step_environment by done.
    intros i p Hi. destruct (H i p Hi) as (m & Hm & Hu).
    exists m. split; [done|].
    apply under_environment; [apply rely_trans|apply rely_environment|done].
Qed.

(** X4. In any pool of workflows with distinct ids and along any
    schedule (the other workflows, the handler, the loop's callbacks and
    the executor jobs, in any order and with any results), the messages a
    workflow has broadcast about itself since the start hold at most one
    outcome ([workflow_complete], [workflow_timeout] or [workflow_error]),
    nothing follows that outcome, and a workflow that has returned has
    broadcast one. Here the registries, the broadcast and the memory do not
    raise; the executor jobs may. *)
Theorem one_outcome_per_workflow σ mails schedule i w mail p :
  NoDup (fst <$> mails) →
  mails !! i = Some (w, mail) →
  snd (pool_exec schedule (σ, spawn mails)) !! i = Some p →
  ∃ sent,
    own w (broadcasts (fst (pool_exec schedule (σ, spawn mails))))
    = own w (broadcasts σ) ++ sent
    ∧ (∀ earlier m later,
         sent = earlier ++ m :: later → is_outcome m = true → later = [])
    ∧ (returned p = true →
       ∃ earlier m, sent = earlier ++ [m] ∧ is_outcome m = true).
Proof.
  intros Hnd Hm Hi.
  set (P := λ w σ' p,
         workflow_assertion w σ' p ∧ one_outcome w (own w (broadcasts σ)) σ' p).
  assert (Hu : pool_under (λ w, under (rely w) (P w)) mails
                 (pool_exec schedule (σ, spawn mails))).
  { apply pool_under_exec.
    - intros ia c'. apply pool_acting_step; [|done].
      by intros w' σ' p' ((_ & _ & Ha & _) & _).
    - apply pool_spawn_under. intros w' e'. exists σ. split; [|apply rely_refl].
      apply invariant_and; [apply run_agent_workflow_invariant|].
      apply run_agent_workflow_one_outcome with (sent := []);
        [by rewrite app_nil_r|done]. }
  destruct (Hu i p Hi) as (m & Hm' & Hw).
  rewrite Hm in Hm'. injection Hm' as <-. cbn [fst] in Hw.
  apply under_now in Hw. cbn [fst snd] in Hw.
  destruct Hw as (_ & sent & Hown & Hshape).
  exists sent. split; [exact Hown|]. split.
  - intros earlier m later -> Hout.
    destruct later as [|m' later]; [done|]. exfalso.
    assert (Hno : no_outcome (earlier ++ m :: m' :: later) = false).
    { rewrite no_outcome_app. cbn. rewrite Hout. cbn. apply andb_false_r. }
    assert (He : ends_in_outcome (earlier ++ m :: m' :: later) = true).
    { destruct (returned p); [done|]. by rewrite Hno in Hshape. }
    apply ends_in_outcome_spec in He as (pre & t & Heq & _ & Hpre).
    assert (m ∈ pre) as Hin.
    { assert (Hl : (earlier ++ [m]) ++ (m' :: later) = pre ++ [t])
        by (by rewrite <- app_assoc).
      destruct (reverse later) as [|x rl] eqn:Hrl.
      - apply (f_equal reverse) in Hrl. rewrite reverse_involutive in Hrl.
        cbn in Hrl. subst later. apply app_inj_tail in Hl as [<- _].
        apply elem_of_app. right. by apply list_elem_of_singleton.
      - apply (f_equal reverse) in Hrl. rewrite reverse_involutive in Hrl.
        rewrite reverse_cons in Hrl. subst later.
        change (m' :: reverse rl ++ [x]) with ((m' :: reverse rl) ++ [x]) in Hl.
        rewrite app_assoc in Hl. apply app_inj_tail in Hl as [<- _].
        apply elem_of_app. left. apply elem_of_app. right.
        by apply list_elem_of_singleton. }
    rewrite (proj1 (no_outcome_spec pre) Hpre m Hin) in Hout. done.
  - intros Hret. rewrite Hret in Hshape.
    apply ends_in_outcome_spec in Hshape as (earlier & m & -> & Hm' & _).
    by exists earlier, m.
Qed.

(** ** A workflow wakes on a decision only *)

Lemma consistent_ext σ σ' :
  events σ' = events σ → scheduled σ' = scheduled σ →
  approval_events σ' = approval_events σ →
  approval_decisions σ' = approval_decisions σ →
  consistent σ → consistent σ'.
Proof.
  intros He Hs Ha Hd [H1 H2 H3 H4].
  split; unfold signalled, is_set in *; rewrite ?He, ?Hs, ?Ha, ?Hd; auto.
Qed.

Lemma consistent_decided m σ : consistent σ → consistent (decided m σ).
Proof.
  intros [H1 H2 H3 H4].
  destruct (decided_fields m σ) as (Ha & _ & _ & Hd & He).
  destruct (decided_events m σ) as (Hl & _ & _).
  assert (Hkeep : ∀ w e, approval_events σ !! w = Some e →
            w ≠ in_workflow_id m → signalled e (decided m σ) → signalled e σ).
  { intros w e Hw Hne [Hlt Hs]. split; [lia|].
    destruct (approval_events σ !! in_workflow_id m) as [e0|] eqn:He0.
    - assert (e ≠ e0) as Hee by (intros ->; apply Hne; eauto).
      destruct (background_loop σ); destruct He as [Hev Hsc].
      + unfold is_set in *. rewrite Hev, Hsc in Hs.
        destruct Hs as [Hs|Hs]; [by left|right].
        apply elem_of_app in Hs as [Hs|Hs]; [done|].
        by apply list_elem_of_singleton in Hs.
      + unfold is_set in *. rewrite Hev, Hsc in Hs.
        destruct Hs as [Hs|Hs]; [left|by right].
        by rewrite list_lookup_insert_ne in Hs.
    - destruct He as [Hev Hsc]. unfold is_set in *.
      by rewrite Hev, Hsc in Hs. }
  split.
  - intros e Hin. rewrite Hl.
    destruct (approval_events σ !! in_workflow_id m) as [e0|] eqn:He0;
      [destruct (background_loop σ)|]; destruct He as [_ Hsc];
      rewrite Hsc in Hin; auto.
    apply elem_of_app in Hin as [Hin|Hin]; [auto|].
    apply list_elem_of_singleton in Hin as ->. eauto.
  - intros w e. rewrite Ha, Hl. apply H2.
  - intros w w' e. rewrite Ha. apply H3.
  - intros w e. rewrite Ha, Hd. intros Hw Hs.
    destruct (decide (in_workflow_id m = w)) as [<-|Hne].
    + rewrite lookup_insert_eq. eauto.
    + rewrite lookup_insert_ne by done. apply (H4 w e Hw). eauto.
Qed.

Lemma consistent_run_callback σ : consistent σ → consistent (run_callback σ).
Proof.
  intros H. unfold run_callback.
  destruct (scheduled σ) as [|e0 q] eqn:Hq; [done|].
  destruct H as [H1 H2 H3 H4].
  assert (He0 : e0 < length (events σ)).
  { apply H1. rewrite Hq. apply elem_of_cons. by left. }
  split; cbn.
  - intros e Hin. rewrite length_insert. apply H1. rewrite Hq.
    apply elem_of_cons. by right.
  - intros w e Hw. rewrite length_insert. eauto.
  - exact H3.
  - intros w e Hw [Hlt Hs]. apply (H4 w e Hw). cbn in Hlt.
    rewrite length_insert in Hlt. split; [done|]. unfold is_set in *. cbn in Hs.
    rewrite Hq. destruct (decide (e = e0)) as [->|Hne].
    + right. apply elem_of_cons. by left.
    + rewrite list_lookup_insert_ne in Hs by done.
      destruct Hs as [Hs|Hs]; [by left|right]. apply elem_of_cons. by right.
Qed.

Lemma consistent_environment a σ : consistent σ → consistent (environment a σ).
Proof.
  intros H. destruct a; cbn; try done.
  - unfold websocket_receive.
    destruct (String.eqb (in_type m) "human_decision") eqn:Ht.
    + apply String.eqb_eq in Ht. rewrite handle_message_decided by done.
      by apply consistent_decided.
    + unfold handle_message. rewrite Ht. done.
  - by apply consistent_run_callback.
  - by apply (consistent_ext σ).
Qed.

Lemma consistent_register w σ :
  consistent σ →
  consistent (set_approval_events <[w:=length (events σ)]>
                (set_events (λ l, l ++ [false]) σ)).
Proof.
  intros [H1 H2 H3 H4]. split; cbn.
  - intros e Hin. rewrite length_app. cbn. apply H1 in Hin. lia.
  - intros w' e. rewrite length_app. cbn.
    destruct (decide (w = w')) as [<-|Hne].
    + rewrite lookup_insert_eq. intros [= <-]. lia.
    + rewrite lookup_insert_ne by done. intros Hw. apply H2 in Hw. lia.
  - intros w1 w2 e.
    destruct (decide (w = w1)) as [<-|Hne1], (decide (w = w2)) as [<-|Hne2];
      rewrite ?lookup_insert_eq, ?lookup_insert_ne by done; try done.
    + intros [= <-] Hw. apply H2 in Hw. lia.
    + intros Hw [= <-]. apply H2 in Hw. lia.
    + apply H3.
  - intros w' e.
    destruct (decide (w = w')) as [<-|Hne].
    + rewrite lookup_insert_eq. intros [= <-] [_ Hs]. exfalso.
      unfold is_set in Hs. cbn in Hs.
      rewrite lookup_app_r, Nat.sub_diag in Hs by done. cbn in Hs.
      destruct Hs as [Hs|Hs]; [done|]. apply H1 in Hs. lia.
    + rewrite lookup_insert_ne by done. intros Hw [_ Hs].
      apply (H4 w' e Hw). pose proof (H2 _ _ Hw) as Hlt.
      split; [done|]. unfold is_set in *. cbn in Hs.
      by rewrite lookup_app_l in Hs.
Qed.

(** A step of a coroutine that writes only what is its workflow's. *)
Lemma consistent_resume w a σ p :
  acts_for w p → consistent σ → consistent (fst (resume a σ p)).
Proof.
  intros Hact H. destruct p as [x|e|X op k]; try done.
  unfold resume.
  destruct (perform op a σ) as [[σ1 r]|] eqn:Hp; [|done].
  cbn [fst]. unfold acts_for in Hact. clear k.
  destruct op; destruct a; try discriminate Hp; cbn in Hp;
    repeat lazymatch type of Hp with
    | match ?x with _ => _ end = _ => destruct x eqn:?
    end;
    try discriminate Hp; try done;
    injection Hp as <- <-; try done;
    try (by apply (consistent_ext σ)).
  by apply consistent_register.
Qed.

Lemma consistent_pool_step mails ia c :
  pool_under (λ w, under (rely w) (workflow_assertion w)) mails c →
  consistent (fst c) → consistent (fst (pool_step ia c)).
Proof.
  destruct ia as [i0 a]. intros Hu H.
  destruct (is_task a) eqn:Ha.
  - destruct (snd c !! i0) as [p0|] eqn:Hp0.
    + rewrite (pool_step_task _ _ _ p0) by done. cbn [fst].
      destruct (Hu i0 p0 Hp0) as (m0 & _ & Hu0).
      apply under_now in Hu0. destruct Hu0 as (_ & _ & Hact & _).
      by apply (consistent_resume (fst m0)).
    + by rewrite pool_step_idle.
  - rewrite pool_step_environment by done. by apply consistent_environment.
Qed.

Lemma consistent_pool_exec mails l c :
  NoDup (fst <$> mails) →
  pool_under (λ w, under (rely w) (workflow_assertion w)) mails c →
  consistent (fst c) →
  pool_under (λ w, under (rely w) (workflow_assertion w)) mails (pool_exec l c)
  ∧ consistent (fst (pool_exec l c)).
Proof.
  intros Hnd. revert c. induction l as [|ia l IH]; intros c Hu H; [done|].
  cbn. apply IH.
  - by apply pool_registered_step.
  - by apply (consistent_pool_step mails).
Qed.

(** X5. From a state whose registries hold together (the state the
    server starts in does), in any pool of workflows with distinct ids and
    along any schedule: the registries still hold together; and whenever a
    workflow is blocked in [wait_for] and its event is set, so that its
    next step is the return of the wait, a decision is stored for it. The
    workflow never wakes without a decision to read: the defaults of lines
    276 and 409 ("ignore", "deny") serve no run of the server. *)
Theorem wakes_with_decision σ mails schedule i w mail e timeout k :
  consistent σ →
  NoDup (fst <$> mails) →
  mails !! i = Some (w, mail) →
  snd (pool_exec schedule (σ, spawn mails)) !! i
    = Some (Do (WaitFor e timeout) k) →
  let c := pool_exec schedule (σ, spawn mails) in
  consistent (fst c)
  ∧ (is_set (fst c) e = true →
     is_Some (approval_decisions (fst c) !! w)
     ∧ pool_step (i, Go) c = (fst c, <[i := k (inr ())]> (snd c))).
Proof.
  intros Hc Hnd Hm Hi c. fold c in Hi.
  destruct (consistent_pool_exec mails schedule (σ, spawn mails) Hnd)
    as [Hu Hc']; [|done|].
  { apply pool_spawn_under. intros w' e'. exists σ. split; [|apply rely_refl].
    apply run_agent_workflow_invariant. }
  fold c in Hu, Hc'. split; [done|]. intros Hset.
  destruct (Hu i _ Hi) as (m & Hm' & Hw).
  rewrite Hm in Hm'. injection Hm' as <-. cbn [fst] in Hw.
  apply under_now in Hw. cbn [fst snd] in Hw.
  destruct Hw as (_ & _ & _ & Hreg & Hlen & _). split.
  - apply (signalled_decided _ Hc' w e Hreg). split; [done|by left].
  - rewrite (pool_step_task _ _ _ _ Hi) by done.
    unfold resume. cbn. by rewrite Hset.
Qed.

(** ** The verdicts *)

(** The approval block once a decision that is not "deny" is read, for a
    state [updated_state] that lines 448-466 compute without raising. *)
Lemma approval_resume_executes wid email result dec σ :
  approval_decisions σ !! wid = Some dec →
  dr_decision dec ≠ "deny" →
  (dr_decision dec = "edit" → dr_edited_content dec = "") →
  run_atomic (from_approval_resume wid email result) σ
  = (σ, from_execution wid (dr_decision dec)
          (decided_state result (dr_decision dec))).
Proof.
  intros Hd Hdeny Hedit. unfold from_approval_resume, approval_resume. cbn.
  rewrite Hd. cbn. rewrite (String_eqb_false _ _ Hdeny). unfold apply_edit.
  destruct (String.eqb (dr_decision dec) "edit") eqn:He; [|done].
  apply String.eqb_eq in He. by rewrite (Hedit He).
Qed.

(** X6. At the approval block only "deny" stops the action. Whatever else
    the stored verdict is ("approve", but also "ignore", "respond", the
    empty string or an edit with no content), the workflow, once awake,
    goes on without changing the state to the executor call of
    [execute_action_node], with the state of the draft and the verdict as
    ["human_decision"]; the pending action is the draft's, unchanged. *)
Theorem every_verdict_but_deny_executes σ workflow_id email result dec :
  truthy_flag (st_requires_approval result) = true →
  st_pending_action result ≠ Some None →
  dr_decision dec ≠ "deny" →
  (dr_decision dec = "edit" → dr_edited_content dec = "") →
  ∃ k,
    run_atomic (from_approval_block workflow_id email result) σ
    = (suspended workflow_id
         (draft_data workflow_id result (pending_action_of result) (clock σ)) σ,
       Do (WaitFor (length (events σ)) 600) k)
    ∧ ∀ σ', approval_decisions σ' !! workflow_id = Some dec →
        ∃ k',
          run_atomic (k (inr ())) σ'
          = (σ', Do (RunInExecutor
                       (execute_action_node
                          (decided_state result (dr_decision dec)))) k')
          ∧ Do (RunInExecutor
                  (execute_action_node (decided_state result (dr_decision dec))))
               k'
            = from_execution workflow_id (dr_decision dec)
                (decided_state result (dr_decision dec))
          ∧ st_pending_action (decided_state result (dr_decision dec))
            = st_pending_action result
          ∧ st_human_decision (decided_state result (dr_decision dec))
            = Some (dr_decision dec).
Proof.
  intros Hr Hp Hdeny Hedit.
  destruct (approval_block_suspends workflow_id email result σ Hr Hp)
    as (k & Hrun & Hk & _).
  exists k. split; [exact Hrun|].
  intros σ' Hd. rewrite Hk.
  rewrite (approval_resume_executes _ _ _ dec) by done.
  eexists. split; [reflexivity|]. done.
Qed.

Lemma every_verdict_but_deny_executes_witness :
  ∃ k k',
    run_atomic (from_approval_block "m1" refund_mail drafted) server0
    = (suspended "m1"
         (draft_data "m1" drafted (pending_action_of drafted) (clock server0))
         server0,
       Do (WaitFor 0 600) k)
    ∧ run_atomic (k (inr ()))
        (set_approval_decisions (insert "m1" later_decision) server0)
      = (set_approval_decisions (insert "m1" later_decision) server0,
         Do (RunInExecutor (execute_action_node (decided_state drafted "later")))
            k').
Proof.
  destruct (every_verdict_but_deny_executes server0 "m1" refund_mail drafted
              later_decision) as (k & Hk & H); [done..|].
  destruct (H (set_approval_decisions (insert "m1" later_decision) server0))
    as (k' & Hk' & _); [done|].
  by exists k, k'.
Defined.




(** X9. A notification knows two verdicts. With any other one stored
    ("approve", "deny", a typing error), the workflow, once awake, neither
    saves anything nor calls the draft stage: it falls through to the
    approval block with the state of stage 1. When that state does not
    require approval, as for a notification, the clients are told
    [workflow_complete] "auto_approved", and nothing is saved to the
    memory. *)
Theorem unknown_verdict_on_notification σ workflow_id email result dec :
  default "" (st_triage_decision result) = "notify_human" →
  dr_decision dec ≠ "ignore" →
  dr_decision dec ≠ "respond" →
  ∃ e k,
    snd (exec (until_waiting result) (σ, run_agent_workflow workflow_id email))
    = Do (WaitFor e 600) k
    ∧ ∀ σ1, approval_decisions σ1 !! workflow_id = Some dec →
        run_atomic (k (inr ())) σ1
        = run_atomic (from_approval_block workflow_id email result) σ1
        ∧ (truthy_flag (st_requires_approval result) = false →
           run_atomic (k (inr ())) σ1
           = (do_broadcast_message
                (workflow_complete workflow_id "auto_approved" "complete" None)
                σ1,
              Ret ())).
Proof.
  intros Ht Hi Hr.
  destruct (notification_suspends σ workflow_id email result Ht)
    as (e & k & Hk & Hres).
  exists e, k. split; [exact Hk|].
  intros σ1 Hd. rewrite Hres.
  assert (Hfall : run_atomic
            (try_except
               (after ← notify_resume workflow_id email result;
                finish workflow_id email after)
               (report_error workflow_id)) σ1
          = run_atomic (from_approval_block workflow_id email result) σ1).
  { unfold notify_resume. cbn. rewrite Hd. cbn.
    by rewrite (String_eqb_false _ _ Hi), (String_eqb_false _ _ Hr). }
  split; [exact Hfall|].
  intros Hflag. rewrite Hfall. unfold from_approval_block, finish.
  by rewrite Hflag.
Qed.

Lemma unknown_verdict_on_notification_witness :
  ∃ e k,
    snd (exec (until_waiting notified)
           (server0, run_agent_workflow "m1" refund_mail))
    = Do (WaitFor e 600) k
    ∧ run_atomic (k (inr ()))
        (set_approval_decisions (insert "m1" later_decision) server0)
      = (do_broadcast_message
           (workflow_complete "m1" "auto_approved" "complete" None)
           (set_approval_decisions (insert "m1" later_decision) server0),
         Ret ()).
Proof.
  destruct (unknown_verdict_on_notification server0 "m1" refund_mail notified
              later_decision) as (e & k & Hk & H); [done..|].
  exists e, k. split; [exact Hk|].
  by apply (H (set_approval_decisions (insert "m1" later_decision) server0)).
Defined.

(** X10. A state that requires approval and whose ["pending_action"] is
    [None] (the key is there, as [process_incoming_email] puts it, and no
    stage has replaced it) cannot be shown: [pending_action.get] raises
    [AttributeError], and the workflow ends with [workflow_error] and that
    error's text. Nothing is stored, no event is created, no approval is
    announced. This is where a notification answered with "respond" ends
    when the draft stage returns no pending action. *)
Theorem pending_action_none_is_an_error σ workflow_id email result :
  truthy_flag (st_requires_approval result) = true →
  st_pending_action result = Some None →
  run_atomic (from_approval_block workflow_id email result) σ
  = (do_broadcast_message (workflow_error workflow_id none_has_no_get) σ, Ret ())
  ∧ (∀ notified draft_result,
       result = with_draft notified draft_result →
       st_pending_action draft_result = Some None
       ∨ (st_pending_action draft_result = None
          ∧ st_pending_action notified = Some None)).
Proof.
  intros Hr Hp. split.
  - unfold from_approval_block, finish. rewrite Hr. unfold draft_approval.
    by rewrite Hp.
  - intros notified draft_result ->. cbn in Hp.
    destruct (st_pending_action draft_result) as [pa|],
      (st_pending_action notified) as [pa'|]; simplify_eq/=; auto.
Qed.

Lemma pending_action_none_is_an_error_witness :
  run_atomic (from_approval_block "m1" refund_mail (with_draft notified no_draft))
    server0
  = (do_broadcast_message
       (workflow_error "m1" "'NoneType' object has no attribute 'get'") server0,
     Ret ()).
Proof.
  exact (proj1 (pending_action_none_is_an_error server0 "m1" refund_mail
                  (with_draft notified no_draft) eq_refl eq_refl)).
Defined.

(** X11. An edit with content, where the pending action has no ["body"]
    to take it. If the pending action is a dict with keys but without
    ["args"], line 466 raises [KeyError]: the workflow ends with
    [workflow_error] "'args'" and the executor is not called. If the
    pending action is absent or an empty dict, line 465 skips the
    substitution: the executor is called with the content as
    ["human_feedback"] only, the pending action being as it was. *)
Theorem edit_without_arguments σ workflow_id email result dec :
  approval_decisions σ !! workflow_id = Some dec →
  dr_decision dec = "edit" →
  dr_edited_content dec ≠ "" →
  (∀ pa, st_pending_action result = Some (Some pa) →
         is_Some (action_type pa) → args pa = None →
         run_atomic (from_approval_resume workflow_id email result) σ
         = (do_broadcast_message (workflow_error workflow_id "'args'") σ,
            Ret ()))
  ∧ (truthy_pending (st_pending_action result) = false →
     run_atomic (from_approval_resume workflow_id email result) σ
     = (σ, from_execution workflow_id "edit"
             (with_human_feedback (decided_state result "edit")
                (dr_edited_content dec)))
     ∧ st_pending_action
         (with_human_feedback (decided_state result "edit")
            (dr_edited_content dec))
       = st_pending_action result).
Proof.
  intros Hd He Hc. apply String_eqb_false in Hc. split.
  - intros pa Hpa Hty Hargs.
    unfold from_approval_resume, approval_resume. cbn. rewrite Hd. cbn.
    rewrite He. cbn. unfold apply_edit, truthy_str. rewrite Hc. cbn.
    rewrite Hpa. cbn. rewrite bool_decide_eq_true_2 by (by left).
    by rewrite Hargs.
  - intros Hfalse. split; [|done].
    unfold from_approval_resume, approval_resume. cbn. rewrite Hd. cbn.
    rewrite He. cbn. unfold apply_edit, truthy_str. rewrite Hc. cbn.
    by rewrite Hfalse.
Qed.

Lemma edit_without_arguments_witness :
  run_atomic (from_approval_resume "m1" refund_mail drafted_without_args)
    (set_approval_decisions (insert "m1" edit_decision) server0)
  = (do_broadcast_message (workflow_error "m1" "'args'")
       (set_approval_decisions (insert "m1" edit_decision) server0),
     Ret ()).
Proof.
  refine (proj1 (edit_without_arguments
                   (set_approval_decisions (insert "m1" edit_decision) server0)
                   "m1" refund_mail drafted_without_args edit_decision
                   eq_refl eq_refl _) _ eq_refl _ eq_refl).
  - done.
  - by eexists.
Defined.

(** ** The poller's bookkeeping *)

Lemma fetch_messages_seen seen messages :
  ∀ i, i ∈ snd (Poller.fetch_messages seen messages) ↔
       i ∈ seen ∨ ∃ e, (i, Poller.Parsed e) ∈ messages.
Proof.
  revert seen. induction messages as [|[j outcome] rest IH]; intros seen i.
  - cbn. split; [by left|]. intros [H|[e H]]; [done|by apply elem_of_nil in H].
  - cbn [Poller.fetch_messages].
    assert (Hskip : (i ∈ seen ∨ ∃ e, (i, Poller.Parsed e) ∈ rest) →
                    i ∈ seen ∨ ∃ e, (i, Poller.Parsed e) ∈ (j, outcome) :: rest).
    { intros [H|[e H]]; [by left|right]. exists e. apply elem_of_cons. by right. }
    destruct (decide (j ∈ seen)) as [Hj|Hj].
    + rewrite IH. split; [exact Hskip|].
      intros [H|[e H]]; [by left|].
      apply elem_of_cons in H as [[= -> <-]|H]; [by left|right; eauto].
    + destruct outcome as [| |e0].
      * rewrite IH. split; [exact Hskip|].
        intros [H|[e H]]; [by left|].
        apply elem_of_cons in H as [?|H]; [simplify_eq|right; eauto].
      * rewrite IH. split; [exact Hskip|].
        intros [H|[e H]]; [by left|].
        apply elem_of_cons in H as [?|H]; [simplify_eq|right; eauto].
      * destruct (Poller.fetch_messages ({[j]} ∪ seen) rest) as [emails seen']
          eqn:Hf.
        cbn [snd]. replace seen' with
          (snd (Poller.fetch_messages ({[j]} ∪ seen) rest)) by (by rewrite Hf).
        rewrite IH. split.
        -- intros [H|[e H]].
           ++ apply elem_of_union in H as [H|H]; [|by left].
              apply elem_of_singleton in H as ->. right. exists e0.
              apply elem_of_cons. by left.
           ++ right. exists e. apply elem_of_cons. by right.
        -- intros [H|[e H]]; [left; apply elem_of_union; by right|].
           apply elem_of_cons in H as [[= -> _]|H].
           ++ left. apply elem_of_union. left. by apply elem_of_singleton.
           ++ right. eauto.
Qed.

Lemma fetch_messages_returned seen messages :
  ∀ e, e ∈ fst (Poller.fetch_messages seen messages) →
       ∃ i, (i, Poller.Parsed e) ∈ messages ∧ i ∉ seen.
Proof.
  revert seen. induction messages as [|[j outcome] rest IH]; intros seen e.
  - cbn. intros H. by apply elem_of_nil in H.
  - cbn [Poller.fetch_messages].
    assert (Hrest : ∀ s, e ∈ fst (Poller.fetch_messages s rest) → seen ⊆ s →
              ∃ i, (i, Poller.Parsed e) ∈ (j, outcome) :: rest ∧ i ∉ seen).
    { intros s H Hs. destruct (IH s e H) as (i & Hi & Hn).
      exists i. split; [apply elem_of_cons; by right|set_solver]. }
    destruct (decide (j ∈ seen)) as [Hj|Hj]; [intros H; by apply (Hrest seen)|].
    destruct outcome as [| |e0]; try (intros H; by apply (Hrest seen)).
    destruct (Poller.fetch_messages ({[j]} ∪ seen) rest) as [emails seen'] eqn:Hf.
    cbn [fst]. intros H. apply elem_of_cons in H as [->|H].
    + exists j. split; [apply elem_of_cons; by left|done].
    + apply (Hrest ({[j]} ∪ seen)); [by rewrite Hf|set_solver].
Qed.

Lemma fetch_messages_complete seen messages i e :
  (i, Poller.Parsed e) ∈ messages → i ∉ seen →
  ∃ e', e' ∈ fst (Poller.fetch_messages seen messages)
        ∧ (i, Poller.Parsed e') ∈ messages.
Proof.
  revert seen. induction messages as [|[j outcome] rest IH]; intros seen Hin Hn.
  - by apply elem_of_nil in Hin.
  - cbn [Poller.fetch_messages].
    assert (Hrest : (i, Poller.Parsed e) ∈ rest →
              ∃ e', e' ∈ fst (Poller.fetch_messages seen rest)
                    ∧ (i, Poller.Parsed e') ∈ (j, outcome) :: rest).
    { intros H. destruct (IH seen H Hn) as (e' & He' & Hi').
      exists e'. split; [done|]. apply elem_of_cons. by right. }
    destruct (decide (j ∈ seen)) as [Hj|Hj].
    + apply elem_of_cons in Hin as [[= -> _]|Hin]; [done|]. by apply Hrest.
    + destruct outcome as [| |e0].
      * apply elem_of_cons in Hin as [?|Hin]; [simplify_eq|]. by apply Hrest.
      * apply elem_of_cons in Hin as [?|Hin]; [simplify_eq|]. by apply Hrest.
      * destruct (Poller.fetch_messages ({[j]} ∪ seen) rest) as [emails seen']
          eqn:Hf. cbn [fst].
        destruct (decide (i = j)) as [->|Hne].
        -- exists e0. split; apply elem_of_cons; by left.
        -- apply elem_of_cons in Hin as [?|Hin]; [simplify_eq|].
           destruct (IH ({[j]} ∪ seen) Hin) as (e' & He' & Hi').
           { intros H. apply elem_of_union in H as [H|H]; [|done].
             by apply elem_of_singleton in H. }
           rewrite Hf in He'. exists e'.
           split; apply elem_of_cons; by right.
Qed.

(** X12. What [fetch_unread_emails] returns and what it remembers. The
    outer [except] makes a listing that raises an empty result. Of a
    listing, every e-mail returned was listed, under an id not processed
    before, and parsed; every such id gives an e-mail; and the ids in
    [processed_ids] afterwards are those that were there and those of the
    messages that parsed. So a message whose [get] raised or that did not
    parse is not remembered, and is fetched again on the next cycle. *)
Theorem fetch_remembers_what_it_returns p messages :
  let emails := fst (Poller.fetch_unread_emails p (Poller.Listed messages)) in
  let p' := snd (Poller.fetch_unread_emails p (Poller.Listed messages)) in
  Poller.fetch_unread_emails p Poller.ListRaises = ([], p)
  ∧ (∀ e, e ∈ emails →
          ∃ i, (i, Poller.Parsed e) ∈ messages ∧ i ∉ Poller.processed_ids p)
  ∧ (∀ i e, (i, Poller.Parsed e) ∈ messages → i ∉ Poller.processed_ids p →
            ∃ e', e' ∈ emails ∧ (i, Poller.Parsed e') ∈ messages)
  ∧ (∀ i, i ∈ Poller.processed_ids p' ↔
          i ∈ Poller.processed_ids p ∨ ∃ e, (i, Poller.Parsed e) ∈ messages)
  ∧ (∀ i, i ∉ Poller.processed_ids p →
          (∀ e, (i, Poller.Parsed e) ∉ messages) →
          i ∉ Poller.processed_ids p')
  ∧ Poller.callbacks p' = Poller.callbacks p
  ∧ Poller.marked_read p' = Poller.marked_read p.
Proof.
  intros emails p'. subst emails p'. unfold Poller.fetch_unread_emails.
  pose proof (fetch_messages_seen (Poller.processed_ids p) messages) as Hs.
  pose proof (fetch_messages_returned (Poller.processed_ids p) messages) as Hr.
  pose proof (fetch_messages_complete (Poller.processed_ids p) messages) as Hc.
  destruct (Poller.fetch_messages (Poller.processed_ids p) messages)
    as [emails seen']. cbn [fst snd] in *.
  split; [done|]. split; [exact Hr|]. split; [intros i e; apply Hc|].
  split; [exact Hs|]. split; [|done].
  intros i Hn Hnone Hin. apply Hs in Hin as [Hin|[e He]]; [done|].
  by apply (Hnone e).
Qed.

(** With the ids agreeing, the e-mails fetched have distinct ids, none of
    them processed before and all of them processed afterwards. *)
Lemma fetch_messages_ids seen messages :
  forallb (λ m, match snd m with
                | Poller.Parsed e => String.eqb (Poller.id e) (fst m)
                | _ => true
                end) messages = true →
  NoDup (Poller.id <$> fst (Poller.fetch_messages seen messages))
  ∧ (∀ e, e ∈ fst (Poller.fetch_messages seen messages) →
          (Poller.id e ∉ seen)
          ∧ Poller.id e ∈ snd (Poller.fetch_messages seen messages))
  ∧ seen ⊆ snd (Poller.fetch_messages seen messages).
Proof.
  revert seen. induction messages as [|[j outcome] rest IH]; intros seen Hag.
  - cbn. split; [apply NoDup_nil_2|]. split; [|done].
    intros e H. by apply elem_of_nil in H.
  - cbn in Hag. apply andb_prop in Hag as [Hj Hag].
    cbn [Poller.fetch_messages].
    destruct (decide (j ∈ seen)) as [Hin|Hin]; [by apply IH|].
    destruct outcome as [| |e0]; try (by apply IH).
    apply String.eqb_eq in Hj. cbn in Hj.
    destruct (IH ({[j]} ∪ seen) Hag) as (Hnd & Hids & Hsub).
    destruct (Poller.fetch_messages ({[j]} ∪ seen) rest) as [emails seen'].
    cbn [fst snd] in *. split; [|split].
    + rewrite fmap_cons. apply NoDup_cons. split; [|done].
      intros H. apply list_elem_of_fmap in H as (e & He & Hin').
      destruct (Hids e Hin') as [Hn _]. apply Hn. rewrite <- He, Hj.
      apply elem_of_union. left. by apply elem_of_singleton.
    + intros e He. apply elem_of_cons in He as [->|He].
      * rewrite Hj. split; [done|]. apply Hsub.
        apply elem_of_union. left. by apply elem_of_singleton.
      * destruct (Hids e He) as [Hn Hs]. split; [|done].
        intros H. apply Hn. apply elem_of_union. by right.
    + intros i Hi. apply Hsub. apply elem_of_union. by right.
Qed.

(** The loop over the e-mails hands a first part of them to the callback,
    and marks as read those whose callback returned. *)
Lemma for_emails_handled p emails p' :
  Poller.for_emails p emails = inr p' ∨ Poller.for_emails p emails = inl p' →
  ∃ handled rest,
    emails = handled ++ rest
    ∧ Poller.callbacks p' = Poller.callbacks p ++ (Poller.id <$> handled)
    ∧ Poller.marked_read p'
      = Poller.marked_read p ++ (Poller.id <$> went_well handled)
    ∧ Poller.processed_ids p' = Poller.processed_ids p.
Proof.
  revert p. induction emails as [|e emails IH]; intros p H.
  - exists [], []. cbn in H.
    assert (p' = p) as -> by (destruct H; by simplify_eq).
    by rewrite !app_nil_r.
  - cbn in H. destruct (Poller.header_fails e).
    + exists [], (e :: emails).
      assert (p' = p) as -> by (destruct H; by simplify_eq).
      by rewrite !app_nil_r.
    + destruct (IH _ H) as (handled & rest & -> & Hc & Hm & Hp).
      exists (e :: handled), rest. split; [done|].
      rewrite Hc, Hm, Hp. unfold went_well. rewrite filter_cons.
      unfold Poller.handle_email.
      destruct (Poller.callback_raises e); cbn; rewrite <- ?app_assoc; done.
Qed.

Lemma check_errors_keeps q :
  Poller.callbacks (Poller.check_errors q) = Poller.callbacks q
  ∧ Poller.marked_read (Poller.check_errors q) = Poller.marked_read q
  ∧ Poller.processed_ids (Poller.check_errors q) = Poller.processed_ids q.
Proof. unfold Poller.check_errors. by destruct (decide _). Qed.

(** One turn of the polling loop on a listing: a first part of the e-mails
    fetched is handed to the callback. *)
Lemma cycle_listed n p messages :
  ∃ handled rest,
    fst (Poller.fetch_unread_emails p (Poller.Listed messages)) = handled ++ rest
    ∧ Poller.callbacks (Poller.cycle n p (Poller.Listed messages))
      = Poller.callbacks p ++ (Poller.id <$> handled)
    ∧ Poller.marked_read (Poller.cycle n p (Poller.Listed messages))
      = Poller.marked_read p ++ (Poller.id <$> went_well handled)
    ∧ Poller.processed_ids (Poller.cycle n p (Poller.Listed messages))
      = snd (Poller.fetch_messages (Poller.processed_ids p) messages).
Proof.
  unfold Poller.cycle, Poller.fetch_unread_emails.
  destruct (Poller.fetch_messages (Poller.processed_ids p) messages)
    as [emails seen']. cbn [fst snd].
  assert (Hfor : ∀ q, Poller.for_emails (Poller.with_processed p seen') emails
                      = inr q
                      ∨ Poller.for_emails (Poller.with_processed p seen') emails
                        = inl q →
            ∃ handled rest, emails = handled ++ rest
              ∧ Poller.callbacks q = Poller.callbacks p ++ (Poller.id <$> handled)
              ∧ Poller.marked_read q
                = Poller.marked_read p ++ (Poller.id <$> went_well handled)
              ∧ Poller.processed_ids q = seen').
  { intros q H. by apply for_emails_handled in H. }
  destruct (Poller.for_emails (Poller.with_processed p seen') emails)
    as [q|q] eqn:Hq.
  - destruct (Hfor q) as (handled & rest & -> & Hc & Hm & Hp); [by right|].
    exists handled, rest. cbn. by rewrite Hc, Hm, Hp.
  - destruct (Hfor q) as (handled & rest & -> & Hc & Hm & Hp); [by left|].
    exists handled, rest.
    destruct (check_errors_keeps q) as (Hc' & Hm' & Hp'). cbn.
    by rewrite Hc', Hm', Hp', Hc, Hm, Hp.
Qed.

(** What one turn of the polling loop hands to the callback. *)
Lemma cycle_handled n p l :
  listed_ids_agree l = true →
  ∃ handled,
    Poller.callbacks (Poller.cycle n p l)
    = Poller.callbacks p ++ (Poller.id <$> handled)
    ∧ Poller.marked_read (Poller.cycle n p l)
      = Poller.marked_read p ++ (Poller.id <$> went_well handled)
    ∧ NoDup (Poller.id <$> handled)
    ∧ (∀ e, e ∈ handled →
            (Poller.id e ∉ Poller.processed_ids p)
            ∧ Poller.id e ∈ Poller.processed_ids (Poller.cycle n p l))
    ∧ Poller.processed_ids p ⊆ Poller.processed_ids (Poller.cycle n p l).
Proof.
  intros Hag.
  assert (Hnone : ∀ q, Poller.callbacks q = Poller.callbacks p →
            Poller.marked_read q = Poller.marked_read p →
            Poller.processed_ids q = Poller.processed_ids p →
            ∃ handled,
              Poller.callbacks q = Poller.callbacks p ++ (Poller.id <$> handled)
              ∧ Poller.marked_read q
                = Poller.marked_read p ++ (Poller.id <$> went_well handled)
              ∧ NoDup (Poller.id <$> handled)
              ∧ (∀ e, e ∈ handled →
                      (Poller.id e ∉ Poller.processed_ids p)
                      ∧ Poller.id e ∈ Poller.processed_ids q)
              ∧ Poller.processed_ids p ⊆ Poller.processed_ids q).
  { intros q Hc Hm Hp. exists []. rewrite Hc, Hm, Hp, !app_nil_r.
    split; [done|]. split; [done|]. split; [apply NoDup_nil_2|].
    split; [|done]. intros e H. by apply elem_of_nil in H. }
  destruct l as [| |messages].
  - unfold Poller.cycle. cbn. apply Hnone; cbn; apply check_errors_keeps.
  - by apply Hnone.
  - cbn in Hag.
    destruct (cycle_listed n p messages) as (handled & rest & He & Hc & Hm & Hp).
    destruct (fetch_messages_ids (Poller.processed_ids p) messages Hag)
      as (Hnd & Hids & Hsub).
    unfold Poller.fetch_unread_emails in He.
    destruct (Poller.fetch_messages (Poller.processed_ids p) messages)
      as [emails seen']. cbn [fst snd] in *. subst emails.
    exists handled. rewrite Hc, Hm, Hp.
    rewrite fmap_app in Hnd. apply NoDup_app in Hnd as (Hnd & _ & _).
    split; [done|]. split; [done|]. split; [done|]. split; [|done].
    intros e He. apply Hids. apply elem_of_app. by left.
Qed.

Lemma polling_cons n l ls p :
  polling n (l :: ls) p
  = polling n ls (if Poller.running p then Poller.cycle n p l else p).
Proof. done. Qed.

(** What the polling loop hands to the callback over any number of
    turns. *)
Lemma polling_handled n ls p :
  forallb listed_ids_agree ls = true →
  ∃ handled,
    Poller.callbacks (polling n ls p)
    = Poller.callbacks p ++ (Poller.id <$> handled)
    ∧ Poller.marked_read (polling n ls p)
      = Poller.marked_read p ++ (Poller.id <$> went_well handled)
    ∧ NoDup (Poller.id <$> handled)
    ∧ (∀ e, e ∈ handled →
            (Poller.id e ∉ Poller.processed_ids p)
            ∧ Poller.id e ∈ Poller.processed_ids (polling n ls p))
    ∧ Poller.processed_ids p ⊆ Poller.processed_ids (polling n ls p).
Proof.
  revert p. induction ls as [|l ls IH]; intros p Hag.
  - exists []. cbn. rewrite !app_nil_r. split; [done|]. split; [done|].
    split; [apply NoDup_nil_2|]. split; [|done].
    intros e H. by apply elem_of_nil in H.
  - cbn in Hag. apply andb_prop in Hag as [Hl Hag].
    rewrite polling_cons.
    destruct (Poller.running p); [|by apply IH].
    destruct (cycle_handled n p l Hl) as (h1 & Hc1 & Hm1 & Hn1 & Hi1 & Hs1).
    destruct (IH (Poller.cycle n p l) Hag) as (h2 & Hc2 & Hm2 & Hn2 & Hi2 & Hs2).
    exists (h1 ++ h2). rewrite Hc2, Hc1, Hm2, Hm1.
    unfold went_well. rewrite filter_app, !fmap_app, <- !app_assoc.
    split; [done|]. split; [done|]. split; [|split].
    + apply NoDup_app. split; [done|]. split; [|done].
      intros i H1 H2.
      apply list_elem_of_fmap in H1 as (e1 & -> & He1).
      apply list_elem_of_fmap in H2 as (e2 & Heq & He2).
      destruct (Hi2 e2 He2) as [Hnot _]. apply Hnot. rewrite <- Heq.
      by apply Hi1.
    + intros e He. apply elem_of_app in He as [He|He].
      * destruct (Hi1 e He) as [Ha Hb]. split; [done|]. by apply Hs2.
      * destruct (Hi2 e He) as [Ha Hb]. split; [|done].
        intros H. apply Ha. by apply Hs1.
    + intros i Hi. by apply Hs2, Hs1.
Qed.

Lemma start_polling_polling n ls p :
  Poller.start_polling n ls p
  = polling n ls (Poller.with_errors (Poller.with_running p true) 0).
Proof. done. Qed.

(** X13. No e-mail is handed to the callback twice. Over any number of
    polling cycles, whatever the listings hold (the same ids again, fetches
    and callbacks that fail, an interrupt), each id reaches the callback at
    most once, as long as no id handed over earlier has been forgotten: the
    ids handed to the callback are all different. For a new poller and
    [process_incoming_email] as the callback, the workflows started are
    those of these ids, one each; so the workflows of a polling session have
    distinct ids. *)
Theorem callback_once n ls p (content : string → incoming) :
  forallb listed_ids_agree ls = true →
  NoDup (Poller.callbacks p) →
  (∀ i, i ∈ Poller.callbacks p → i ∈ Poller.processed_ids p) →
  (∀ i, incoming_id (content i) = i) →
  NoDup (Poller.callbacks (Poller.start_polling n ls p))
  ∧ foldl (λ tasks i, process_incoming_email (content i) tasks) []
      (Poller.callbacks (Poller.start_polling n ls p))
    = spawn ((λ i, (i, agent_input (content i)))
               <$> Poller.callbacks (Poller.start_polling n ls p))
  ∧ NoDup (fst <$> ((λ i, (i, agent_input (content i)))
                      <$> Poller.callbacks (Poller.start_polling n ls p))).
Proof.
  intros Hag Hnd Hsub Hid.
  assert (Hcb : NoDup (Poller.callbacks (Poller.start_polling n ls p))).
  { rewrite start_polling_polling.
    destruct (polling_handled n ls
                (Poller.with_errors (Poller.with_running p true) 0) Hag)
      as (handled & Hc & _ & Hn & Hi & _).
    rewrite Hc. cbn. apply NoDup_app. split; [done|]. split; [|done].
    intros i H1 H2. apply list_elem_of_fmap in H2 as (e & -> & He).
    destruct (Hi e He) as [Hnot _]. apply Hnot. cbn. by apply Hsub. }
  split; [done|]. split.
  - generalize (Poller.callbacks (Poller.start_polling n ls p)). intros ids.
    unfold spawn. rewrite <- (app_nil_l (_ <$> (_ <$> ids))).
    generalize (@nil (coro unit)). induction ids as [|i ids IH]; intros tasks.
    + cbn. by rewrite app_nil_r.
    + cbn [foldl]. rewrite IH. unfold process_incoming_email.
      rewrite Hid, <- app_assoc. done.
  - rewrite <- list_fmap_compose. by rewrite list_fmap_id.
Qed.

Lemma callback_once_witness :
  Poller.callbacks (Poller.start_polling 60 three_cycles new_poller)
  = ["m7"; "m8"]
  ∧ NoDup (Poller.callbacks (Poller.start_polling 60 three_cycles new_poller)).
Proof.
  split; [by vm_compute|].
  refine (proj1 (callback_once 60 three_cycles new_poller inbox
                   eq_refl _ _ (λ _, eq_refl))).
  - apply NoDup_nil_2.
  - intros i H. by apply elem_of_nil in H.
Defined.

Lemma NoDup_fmap_elem_of {A B} (f : A → B) (l : list A) x y :
  NoDup (f <$> l) → x ∈ l → y ∈ l → f x = f y → x = y.
Proof.
  intros Hnd Hx Hy Hf.
  apply list_elem_of_lookup in Hx as [i Hi].
  apply list_elem_of_lookup in Hy as [j Hj].
  assert (i = j) as ->.
  { eapply NoDup_lookup; [exact Hnd| |]; rewrite list_lookup_fmap.
    - by rewrite Hi.
    - by rewrite Hj, Hf. }
  congruence.
Qed.

(** X14. An e-mail whose callback raised is not tried again. Its id went
    into [processed_ids] when it was fetched, before the callback ran; so
    for the rest of the session, whatever the later listings hold, it is
    never handed to the callback again and never marked as read: it stays
    unread in the mailbox and unprocessed. *)
Theorem failed_callback_is_not_retried n p messages ls e :
  listed_ids_agree (Poller.Listed messages) = true →
  forallb listed_ids_agree ls = true →
  e ∈ fst (Poller.fetch_unread_emails p (Poller.Listed messages)) →
  Poller.callback_raises e = true →
  Poller.id e ∉ Poller.marked_read p →
  let p1 := Poller.cycle n p (Poller.Listed messages) in
  let p2 := polling n ls p1 in
  Poller.id e ∈ Poller.processed_ids p1
  ∧ (Poller.id e ∉ Poller.marked_read p2)
  ∧ ∃ more, Poller.callbacks p2 = Poller.callbacks p1 ++ more
            ∧ Poller.id e ∉ more.
Proof.
  intros Hag Hags He Hraise Hunread p1 p2. cbn in Hag.
  destruct (cycle_listed n p messages) as (handled & rest & Hem & Hc & Hm & Hp).
  destruct (fetch_messages_ids (Poller.processed_ids p) messages Hag)
    as (Hnd & Hids & Hsub).
  unfold Poller.fetch_unread_emails in He, Hem.
  destruct (Poller.fetch_messages (Poller.processed_ids p) messages)
    as [emails seen']. cbn [fst snd] in *. subst emails.
  assert (H1 : Poller.id e ∈ Poller.processed_ids p1).
  { subst p1. rewrite Hp. by apply Hids. }
  assert (H2 : Poller.id e ∉ Poller.marked_read p1).
  { subst p1. rewrite Hm. intros H. apply elem_of_app in H as [H|H]; [done|].
    apply list_elem_of_fmap in H as (e' & Hid & He').
    apply list_elem_of_filter in He' as [Hok He'].
    assert (e = e') as <-.
    { apply (NoDup_fmap_elem_of Poller.id (handled ++ rest)); try done.
      apply elem_of_app. by left. }
    congruence. }
  destruct (polling_handled n ls p1 Hags) as (h2 & Hc2 & Hm2 & _ & Hi2 & _).
  fold p2 in Hc2, Hm2, Hi2.
  assert (H3 : Poller.id e ∉ Poller.id <$> h2).
  { intros H. apply list_elem_of_fmap in H as (e' & Hid & He').
    destruct (Hi2 e' He') as [Hnot _]. apply Hnot. by rewrite <- Hid. }
  split; [done|]. split.
  - rewrite Hm2. intros H. apply elem_of_app in H as [H|H]; [done|].
    apply H3. apply list_elem_of_fmap in H as (e' & Hid & He').
    apply list_elem_of_filter in He' as [_ He'].
    apply list_elem_of_fmap. eauto.
  - by exists (Poller.id <$> h2).
Qed.

Lemma failed_callback_is_not_retried_witness :
  "m7" ∉ Poller.marked_read
           (polling 60 [Poller.Listed [("m7", Poller.Parsed failing_email);
                                       ("m8", Poller.Parsed fine_email)]]
              (Poller.cycle 60 (Poller.with_running new_poller true)
                 (Poller.Listed [("m7", Poller.Parsed failing_email)]))).
Proof.
  refine (proj1 (proj2 (failed_callback_is_not_retried 60
            (Poller.with_running new_poller true)
            [("m7", Poller.Parsed failing_email)]
            [Poller.Listed [("m7", Poller.Parsed failing_email);
                            ("m8", Poller.Parsed fine_email)]]
            failing_email eq_refl eq_refl _ eq_refl _))).
  - vm_compute. apply elem_of_cons. by left.
  - intros H. by apply elem_of_nil in H.
Defined.

Lemma polling_stopped n ls p :
  Poller.running p = false → polling n ls p = p.
Proof.
  intros Hr. induction ls as [|l ls IH]; [done|].
  by rewrite polling_cons, Hr.
Qed.

Lemma polling_app n ls1 ls2 p :
  polling n (ls1 ++ ls2) p = polling n ls2 (polling n ls1 p).
Proof. apply foldl_app. Qed.

Lemma fetch_unread_emails_running p l :
  Poller.running (snd (Poller.fetch_unread_emails p l)) = Poller.running p
  ∧ Poller.sleeps (snd (Poller.fetch_unread_emails p l)) = Poller.sleeps p.
Proof.
  unfold Poller.fetch_unread_emails. destruct l; try done.
  by destruct (Poller.fetch_messages _ _).
Qed.

Lemma for_emails_running emails p p' :
  Poller.for_emails p emails = inr p' ∨ Poller.for_emails p emails = inl p' →
  Poller.running p' = Poller.running p
  ∧ Poller.sleeps p' = Poller.sleeps p.
Proof.
  revert p. induction emails as [|e emails IH]; intros p H.
  - cbn in H. destruct H as [H|H]; by simplify_eq.
  - cbn in H. destruct (Poller.header_fails e).
    + destruct H as [H|H]; by simplify_eq.
    + destruct (IH _ H) as [-> ->]. unfold Poller.handle_email.
      by destruct (Poller.callback_raises e).
Qed.

(** X15. The ways the polling loop ends, and the one way it is left. A
    [KeyboardInterrupt] that arrives while a cycle is listing, inside the
    [try], is caught (lines 258-261): the loop clears [running] and
    breaks, without sleeping; what comes after the interrupt in the listings
    is never fetched, and the poller is left as the interrupt found it but
    for [running]. A poller that [stop] was called on runs no further
    cycle. But a [KeyboardInterrupt] that arrives in the [time.sleep] of
    line 266, inside the [except Exception] clause, is caught by nothing:
    it leaves [start_polling] with [running] as it was, still set for a
    poller that was polling, and that sleep is not completed. *)
Theorem keyboard_interrupt_stops n ls1 ls2 p q l :
  let interrupted := Poller.start_polling n (ls1 ++ [Poller.KeyboardInterrupt]) p in
  Poller.running interrupted = false
  ∧ Poller.start_polling n (ls1 ++ Poller.KeyboardInterrupt :: ls2) p = interrupted
  ∧ interrupted = Poller.with_running (Poller.start_polling n ls1 p) false
  ∧ polling n ls2 (stop q) = stop q
  ∧ (∀ q', interrupted_in_except q l = Some q' →
       Poller.running q' = Poller.running q
       ∧ Poller.sleeps q' = Poller.sleeps q).
Proof.
  intros interrupted. subst interrupted.
  rewrite !start_polling_polling, (cons_middle _ ls1 ls2), app_assoc.
  rewrite (polling_app _ (ls1 ++ _) ls2), polling_app.
  set (p1 := polling n ls1 _).
  assert (Hint : polling n [Poller.KeyboardInterrupt] p1
                 = Poller.with_running p1 false).
  { unfold polling. cbn. destruct (Poller.running p1) eqn:Hr; [done|].
    destruct p1. cbn in Hr. by rewrite Hr. }
  rewrite Hint. split; [done|]. split; [by apply polling_stopped|].
  split; [done|]. split; [by apply polling_stopped|].
  intros q' Hq'. unfold interrupted_in_except in Hq'.
  destruct (fetch_unread_emails_running q l) as [Hr Hs].
  destruct l; [| done |];
    destruct (Poller.fetch_unread_emails q _) as [emails q0];
    cbn [fst snd] in *;
    destruct (Poller.for_emails q0 emails) as [q1|q1] eqn:Hfor;
    try discriminate Hq'; injection Hq' as <-; cbn;
    destruct (for_emails_running emails q0 q1) as [-> ->]; auto.
Qed.

(** A cycle that lists an e-mail without its headers comes to line 266. *)
Lemma keyboard_interrupt_stops_witness :
  let p := Poller.with_running new_poller true in
  let l := Poller.Listed
             [("m9", Poller.Parsed {| Poller.id := "m9";
                                      Poller.header_fails := true;
                                      Poller.callback_raises := false |})] in
  ∃ p', interrupted_in_except p l = Some p' ∧ Poller.running p' = true.
Proof.
  intros p l. eexists. split; [reflexivity|].
  exact (proj1 (proj2 (proj2 (proj2 (proj2
           (keyboard_interrupt_stops 60 [] [] new_poller p l)))) _ eq_refl)).
Defined.

(** ** Parsing a message *)

Lemma tag_end_length first s rest :
  tag_end first s = Some rest → String.length rest < String.length s.
Proof.
  revert first. induction s as [|c s IH]; intros first H; [done|].
  cbn in H. destruct (Ascii.eqb c less_than); [done|].
  destruct first.
  - apply IH in H. cbn. lia.
  - destruct (Ascii.eqb c greater_than).
    + injection H as ->. cbn. lia.
    + apply IH in H. cbn. lia.
Qed.

Lemma sub_tags_fuel n m s :
  String.length s ≤ n → String.length s ≤ m → sub_tags n s = sub_tags m s.
Proof.
  revert m s. induction n as [|n IH]; intros m s Hn Hm.
  - destruct s; [|cbn in Hn; lia]. by destruct m.
  - destruct s as [|c s]; [by destruct m|].
    destruct m as [|m]; [cbn in Hm; lia|]. cbn in Hn, Hm. cbn.
    destruct (Ascii.eqb c less_than).
    + destruct (tag_end true s) as [rest|] eqn:Ht.
      * apply tag_end_length in Ht. apply IH; lia.
      * f_equal. apply IH; lia.
    + f_equal. apply IH; lia.
Qed.

Lemma strip_tags_cons c s :
  strip_tags (String c s)
  = if Ascii.eqb c less_than then
      match tag_end true s with
      | Some rest => strip_tags rest
      | None => String c (strip_tags s)
      end
    else String c (strip_tags s).
Proof.
  unfold strip_tags. cbn.
  destruct (Ascii.eqb c less_than); [|done].
  destruct (tag_end true s) as [rest|] eqn:Ht; [|done].
  apply tag_end_length in Ht. apply sub_tags_fuel; lia.
Qed.

Lemma app_String c s t : String c s +:+ t = String c (s +:+ t).
Proof. done. Qed.

Lemma app_EmptyString t : "" +:+ t = t.
Proof. done. Qed.

Lemma tag_end_closes t b :
  occurs less_than t = false → occurs greater_than t = false →
  tag_end false (t +:+ String greater_than b) = Some b.
Proof.
  induction t as [|c t IH]; intros Hl Hg; [done|].
  cbn in Hl, Hg. apply orb_false_elim in Hl as [Hl1 Hl2].
  apply orb_false_elim in Hg as [Hg1 Hg2].
  rewrite app_String. cbn. rewrite Hl1, Hg1. by apply IH.
Qed.

Lemma sub_tags_length n s : String.length (sub_tags n s) ≤ String.length s.
Proof.
  revert s. induction n as [|n IH]; intros s; [done|].
  destruct s as [|c s]; [done|]. cbn.
  destruct (Ascii.eqb c less_than).
  - destruct (tag_end true s) as [rest|] eqn:Ht.
    + apply tag_end_length in Ht. specialize (IH rest). lia.
    + cbn. specialize (IH s). lia.
  - cbn. specialize (IH s). lia.
Qed.

(** X16. The HTML fallback's [re.sub('<[^<]+?>', '', html_body)]. A text
    without ['<'] is left as it is. A tag (a ['<'], one character or more
    that are neither ['<'] nor ['>'], a ['>']) after a text without ['<'] is
    taken out, and the search goes on in what follows the tag. The result
    is never longer than the text. *)
Theorem strip_tags_takes_tags_out a t b :
  occurs less_than a = false →
  t ≠ "" →
  occurs less_than t = false →
  occurs greater_than t = false →
  strip_tags (a +:+ String less_than (t +:+ String greater_than b))
  = a +:+ strip_tags b
  ∧ strip_tags a = a
  ∧ String.length (strip_tags b) ≤ String.length b.
Proof.
  intros Ha Ht Hl Hg. split; [|split].
  - induction a as [|c a IH].
    + rewrite app_EmptyString, strip_tags_cons. cbn.
      destruct t as [|c t]; [done|].
      cbn in Hl, Hg. apply orb_false_elim in Hl as [Hl1 Hl2].
      apply orb_false_elim in Hg as [Hg1 Hg2].
      rewrite app_String. cbn. rewrite Hl1. by rewrite tag_end_closes.
    + cbn in Ha. apply orb_false_elim in Ha as [Ha1 Ha2].
      rewrite app_String, strip_tags_cons, Ha1. by rewrite IH.
  - clear Ht Hl Hg. induction a as [|c a IH]; [done|].
    cbn in Ha. apply orb_false_elim in Ha as [Ha1 Ha2].
    rewrite strip_tags_cons, Ha1. by rewrite IH.
  - apply sub_tags_length.
Qed.

Lemma strip_tags_takes_tags_out_witness :
  strip_tags "Hello <b>you</b>" = "Hello " +:+ strip_tags "you</b>".
Proof. apply (strip_tags_takes_tags_out "Hello " "b" "you</b>"); done. Defined.

Lemma angle_group_closes addr rest :
  occurs greater_than addr = false → occurs newline addr = false →
  angle_group false (addr +:+ String greater_than rest) = Some addr.
Proof.
  induction addr as [|c addr IH]; intros Hg Hn; [done|].
  cbn in Hg, Hn. apply orb_false_elim in Hg as [Hg1 Hg2].
  apply orb_false_elim in Hn as [Hn1 Hn2].
  rewrite app_String. cbn. rewrite Hn1, Hg1. by rewrite IH.
Qed.

(** X17. The address out of the [From] header. From a header with a name
    that holds no ['<'], followed by an address between ['<'] and ['>'] (not
    empty, with no ['>'] and no newline in it), the address is taken,
    whatever follows. A header without ['<'] is taken whole, stripped. *)
Theorem email_from_clean_takes_the_address name addr rest :
  occurs less_than name = false →
  addr ≠ "" →
  occurs greater_than addr = false →
  occurs newline addr = false →
  email_from_clean (name +:+ String less_than (addr +:+ String greater_than rest))
  = addr
  ∧ email_from_clean name = strip name.
Proof.
  intros Hname Ha Hg Hn. unfold email_from_clean. split.
  - assert (H : search_angle
                  (name +:+ String less_than (addr +:+ String greater_than rest))
                = Some addr); [|by rewrite H].
    induction name as [|c name IH].
    + rewrite app_EmptyString. cbn. destruct addr as [|c addr]; [done|].
      cbn in Hg, Hn. apply orb_false_elim in Hg as [Hg1 Hg2].
      apply orb_false_elim in Hn as [Hn1 Hn2].
      rewrite app_String. cbn. rewrite Hn1. by rewrite angle_group_closes.
    + cbn in Hname. apply orb_false_elim in Hname as [H1 H2].
      rewrite app_String. cbn. rewrite H1. by apply IH.
  - assert (H : search_angle name = None); [|by rewrite H].
    clear Ha Hg Hn. induction name as [|c name IH]; [done|].
    cbn in Hname. apply orb_false_elim in Hname as [H1 H2].
    cbn. rewrite H1. by apply IH.
Qed.

Lemma email_from_clean_takes_the_address_witness :
  email_from_clean "John Doe <john@example.com>" = "john@example.com".
Proof.
  apply (email_from_clean_takes_the_address "John Doe " "john@example.com" "");
    done.
Defined.


Lemma walk_body_plain before p after text body :
  content_type p = "text/plain" → content p = Some text →
  Forall (λ q, content_type q = "text/plain" → content q = None) before →
  walk_body body (before ++ p :: after) = text.
Proof.
  intros Hp Ht Hbefore. revert body.
  induction Hbefore as [|q before Hq _ IH]; intros body.
  - cbn. by rewrite Hp, Ht.
  - cbn. destruct (String.eqb (content_type q) "text/plain") eqn:Hplain.
    + apply String.eqb_eq in Hplain. by rewrite (Hq Hplain).
    + destruct (String.eqb (content_type q) "text/html" && negb (truthy_str body));
        [destruct (content q)|]; apply IH.
Qed.

Lemma walk_body_html parts body :
  Forall (λ q, content_type q = "text/plain" → content q = None) parts →
  walk_body body parts
  = if truthy_str body then body
    else default "" (head (filter (λ h, h ≠ "") (html_texts parts))).
Proof.
  intros Hparts. revert body.
  induction Hparts as [|q parts Hq _ IH]; intros body.
  - cbn. unfold truthy_str. by destruct (String.eqb_spec body "").
  - cbn. unfold html_texts. cbn [omap list_omap]. fold (html_texts parts).
    destruct (String.eqb (content_type q) "text/plain") eqn:Hplain.
    + apply String.eqb_eq in Hplain. rewrite (Hq Hplain), Hplain. cbn.
      apply IH.
    + destruct (String.eqb (content_type q) "text/html"); [|apply IH].
      cbn. destruct (truthy_str body) eqn:Hb; cbn.
      * rewrite IH. by rewrite Hb.
      * destruct (content q) as [h|]; cbn; [|by rewrite IH, Hb].
        rewrite IH. unfold truthy_str.
        destruct (String.eqb_spec (strip_tags h) ""); cbn.
        -- by rewrite decide_False by (by intros ?).
        -- by rewrite decide_True.
Qed.

(** X18. The body of a multipart message. The first plain text part that
    can be read gives the body, wherever it stands among the parts: an HTML
    part before it does not count. Only when no plain text part can be
    read, the body is the first HTML part that can be read and is not empty
    once its tags are taken out, and the empty string if there is none. In
    both cases the body is stripped. *)
Theorem plain_text_is_preferred parsed :
  is_multipart parsed = true →
  (∀ before p after text,
     walk parsed = before ++ p :: after →
     content_type p = "text/plain" → content p = Some text →
     Forall (λ q, content_type q = "text/plain" → content q = None) before →
     extract_body parsed = strip text)
  ∧ (Forall (λ q, content_type q = "text/plain" → content q = None)
       (walk parsed) →
     extract_body parsed
     = strip (default ""
                (head (filter (λ h, h ≠ "") (html_texts (walk parsed)))))).
Proof.
  intros Hm. unfold extract_body. rewrite Hm. split.
  - intros before p after text -> Hp Ht Hbefore.
    by rewrite (walk_body_plain before p after text).
  - intros Hparts. by rewrite walk_body_html.
Qed.

Lemma plain_text_is_preferred_witness :
  extract_body two_part_message = strip "Hello you".
Proof.
  refine (proj1 (plain_text_is_preferred two_part_message eq_refl)
            [ {| content_type := "multipart/alternative"; content := None |};
              {| content_type := "text/html";
                 content := Some "<p>Hello <b>you</b></p>" |} ]
            {| content_type := "text/plain"; content := Some "Hello you" |}
            [] "Hello you" eq_refl eq_refl eq_refl _).
  repeat constructor; done.
Defined.

Lemma walk_body_unreadable parts :
  Forall (λ q, content q = None) parts → walk_body "" parts = "".
Proof.
  induction 1 as [|q parts Hq _ IH]; [done|].
  cbn. rewrite Hq.
  by destruct (String.eqb (content_type q) "text/plain"),
    (String.eqb (content_type q) "text/html").
Qed.

(** X19. A message whose body cannot be read is parsed all the same.
    [_parse_message] gives an e-mail as soon as the raw message parses and
    the message has an id: that id is the e-mail's, and the [From] header is
    kept whole beside the cleaned address. If [get_content] raises on a
    message that is not multipart, the body is the text "Could not extract
    email body"; if no part of a multipart message can be read, the body is
    empty. Either way the e-mail goes on to the callback. *)
Theorem unreadable_body_is_still_parsed message parsed i :
  raw message = Some parsed →
  message_id message = Some i →
  ∃ e,
    parse_message message = Some e
    ∧ parsed_id e = i
    ∧ parsed_from_full e = default "" (header_from parsed)
    ∧ parsed_from e = email_from_clean (default "" (header_from parsed))
    ∧ (is_multipart parsed = false → get_content parsed = None →
       parsed_body e = "Could not extract email body")
    ∧ (is_multipart parsed = true →
       Forall (λ q, content q = None) (walk parsed) →
       parsed_body e = "").
Proof.
  intros Hraw Hid. unfold parse_message. rewrite Hraw, Hid. cbn.
  eexists. split; [reflexivity|]. cbn. split; [done|]. split; [done|].
  split; [done|]. unfold extract_body. split.
  - intros -> ->. done.
  - intros -> Hparts. by rewrite walk_body_unreadable.
Qed.

Lemma unreadable_body_is_still_parsed_witness :
  parsed_body
    <$> parse_message
          {| message_id := Some "m9";
             raw := Some {| header_from := Some "John Doe <john@example.com>";
                            header_to := None; header_subject := None;
                            is_multipart := false; walk := [];
                            get_content := None |};
             threadId := None; labelIds := None |}
  = Some "Could not extract email body".
Proof.
  destruct (unreadable_body_is_still_parsed
              {| message_id := Some "m9";
                 raw := Some {| header_from := Some "John Doe <john@example.com>";
                                header_to := None; header_subject := None;
                                is_multipart := false; walk := [];
                                get_content := None |};
                 threadId := None; labelIds := None |} _ "m9" eq_refl eq_refl)
    as (e & -> & _ & _ & _ & Hbody & _).
  cbn. f_equal. by apply Hbody.
Defined.

(** ** Witnesses of the invariants *)

Lemma consistent_server0 : consistent server0.
Proof.
  split; cbn.
  - intros e H. by apply elem_of_nil in H.
  - intros w e H. by rewrite lookup_empty in H.
  - intros w w' e H. by rewrite lookup_empty in H.
  - intros w e H. by rewrite lookup_empty in H.
Qed.

(** The refund workflow, approved while it waits; the loop has run the
    callback, so that the event is set. *)
Lemma wakes_with_decision_witness :
  is_Some
    (approval_decisions
       (fst (pool_exec
               (((λ a, (0, a)) <$> until_waiting drafted)
                ++ [(0, Receive 1 (human_decision "m1" "approve" None));
                    (0, Callback)])
               (server0, spawn [("m1", refund_mail)]))) !! "m1").
Proof.
  refine (proj1 (proj2 (wakes_with_decision server0 [("m1", refund_mail)]
            (((λ a, (0, a)) <$> until_waiting drafted)
             ++ [(0, Receive 1 (human_decision "m1" "approve" None));
                 (0, Callback)])
            0 "m1" refund_mail 0 600 _ consistent_server0 _ eq_refl eq_refl) _)).
  - apply NoDup_singleton.
  - reflexivity.
Defined.

(** The refund workflow, timed out. *)
Lemma one_outcome_per_workflow_witness :
  ∃ sent,
    own "m1"
      (broadcasts
         (fst (pool_exec ((λ a, (0, a)) <$> (until_waiting drafted ++ [Deadline; Go]))
                 (server0, spawn [("m1", refund_mail)]))))
    = own "m1" (broadcasts server0) ++ sent
    ∧ ∃ earlier m, sent = earlier ++ [m] ∧ is_outcome m = true.
Proof.
  destruct (one_outcome_per_workflow server0 [("m1", refund_mail)]
              ((λ a, (0, a)) <$> (until_waiting drafted ++ [Deadline; Go]))
              0 "m1" refund_mail (Ret ())) as (sent & Hown & _ & Hret).
  - apply NoDup_singleton.
  - reflexivity.
  - reflexivity.
  - exists sent. split; [exact Hown|]. by apply Hret.
Defined.

(** ** The registries only grow *)

Lemma grown_refl σ : grown σ σ.
Proof. by split. Qed.

Lemma grown_trans σ1 σ2 σ3 : grown σ1 σ2 → grown σ2 σ3 → grown σ1 σ3.
Proof. intros [A1 D1 E1 S1] [A2 D2 E2 S2]. split; [auto|auto|lia|auto]. Qed.

Lemma grown_rely σ σ' : (∀ w, rely w σ σ') → grown σ σ'.
Proof.
  intros H. split.
  - intros w. by rewrite (rely_approval_events _ _ _ (H w)).
  - intros w. apply (rely_approval_decisions _ _ _ (H w)).
  - apply (rely_events "" _ _ (H "")).
  - apply (rely_is_set "" _ _ (H "")).
Qed.

Lemma grown_resume w a σ p : acts_for w p → grown σ (fst (resume a σ p)).
Proof.
  intros Hact. destruct p as [x|e|X op k]; try apply grown_refl.
  unfold resume.
  destruct (perform op a σ) as [[σ1 r]|] eqn:Hp; [|apply grown_refl].
  cbn [fst]. unfold acts_for in Hact. clear k.
  destruct op; destruct a; try discriminate Hp; cbn in Hp;
    repeat lazymatch type of Hp with
    | match ?x with _ => _ end = _ => destruct x eqn:?
    end;
    try discriminate Hp; try done;
    injection Hp as <- <-; try apply grown_refl; try (by split).
  split; cbn; try done.
  - intros w'. destruct (decide (workflow_id = w')) as [->|Hne].
    + rewrite lookup_insert_eq. eauto.
    + by rewrite lookup_insert_ne.
  - rewrite length_app. lia.
  - intros e. unfold is_set. cbn.
    destruct (events σ !! e) eqn:He; [|done].
    intros ->. by rewrite (lookup_app_l_Some _ _ _ _ He).
Qed.

(** X20. Nothing is ever taken out of [approval_events] and
    [approval_decisions], and no event is ever cleared. In any pool of
    workflows with distinct ids and along any schedule, an id that had an
    event or a stored decision at the start has one at the end, the events
    created are all still there, and those that were set are still set:
    the two registries grow by one entry for each workflow that waited and
    for each id a decision was received for, and keep it after the workflow
    has ended. *)
Theorem registries_only_grow σ mails schedule :
  NoDup (fst <$> mails) →
  grown σ (fst (pool_exec schedule (σ, spawn mails))).
Proof.
  intros Hnd.
  assert (Hgen : ∀ c,
            pool_under (λ w, under (rely w) (workflow_assertion w)) mails c →
            grown (fst c) (fst (pool_exec schedule c))).
  { induction schedule as [|[i a] l IH]; intros c Hu; [apply grown_refl|].
    cbn. eapply grown_trans; [|apply IH; by apply pool_registered_step].
    destruct (is_task a) eqn:Ha.
    - destruct (snd c !! i) as [p0|] eqn:Hp0.
      + rewrite (pool_step_task _ _ _ p0) by done. cbn [fst].
        destruct (Hu i p0 Hp0) as (m0 & _ & Hu0).
        apply under_now in Hu0. destruct Hu0 as (_ & _ & Hact & _).
        by apply (grown_resume (fst m0)).
      + rewrite pool_step_idle by done. apply grown_refl.
    - rewrite pool_step_environment by done. cbn [fst].
      apply grown_rely. intros w. apply rely_environment. }
  apply (Hgen (σ, spawn mails)).
  apply pool_spawn_under. intros w' e'. exists σ. split; [|apply rely_refl].
  apply run_agent_workflow_invariant.
Qed.

(** A decision was stored for "m0"; the refund workflow "m1" runs from its
    start to its end, denied: the decision of "m0" is still there. *)
Lemma registries_only_grow_witness :
  is_Some
    (approval_decisions
       (fst (pool_exec
               (((λ a, (0, a)) <$> until_waiting drafted)
                ++ [(0, Receive 1 (human_decision "m1" "deny" None));
                    (0, Callback); (0, Go); (0, Go); (0, Go); (0, Go)])
               (decided (human_decision "m0" "approve" None) server0,
                spawn [("m1", refund_mail)]))) !! "m0").
Proof.
  refine (grown_approval_decisions _ _
            (registries_only_grow
               (decided (human_decision "m0" "approve" None) server0)
               [("m1", refund_mail)]
               (((λ a, (0, a)) <$> until_waiting drafted)
                ++ [(0, Receive 1 (human_decision "m1" "deny" None));
                    (0, Callback); (0, Go); (0, Go); (0, Go); (0, Go)])
               _) "m0" _).
  - apply NoDup_singleton.
  - vm_compute. eauto.
Defined.

(** ** The timeout *)





(** ** The rows the coordinator saves *)

Ltac scrutinee x :=
  lazymatch x with
  | match ?y with _ => _ end => scrutinee y
  | _ => x
  end.

Ltac amble finished :=
  lazymatch goal with
  | |- True => exact I
  | |- not_counted _ => by split
  | |- _ ∧ _ => split
  | |- ∀ r : _ + _, _ => let r := fresh "r" in intros [r|r]; cbn
  | |- always _ ?p =>
      first
        [ finished
        | progress (unfold except_TimeoutError, except_Exception,
                      report_error);
          cbn
        | let x := stuck_on p in let y := scrutinee x in
          destruct y eqn:?; cbn
        | progress (unfold draft_approval, approval_resume, apply_edit,
                      notify_human, notify_resume, wait_for_decision,
                      register, call);
          cbn ]
  end.

Lemma finish_saves wid email after :
  always saves_not_counted
    (try_except (finish wid email after) (report_error wid)).
Proof.
  destruct after as [|result]; unfold finish; cbn; repeat amble fail.
Qed.

Lemma run_agent_workflow_saves wid email :
  always saves_not_counted (run_agent_workflow wid email).
Proof.
  unfold run_agent_workflow, run_agent_workflow_body; cbn.
  repeat amble ltac:(apply finish_saves).
Qed.

Lemma counts_not_counted rows saved :
  Forall not_counted saved →
  deny_count (rows ++ saved) = deny_count rows
  ∧ approve_count (rows ++ saved) = approve_count rows.
Proof.
  intros H. unfold deny_count, approve_count. rewrite !filter_app, !length_app.
  assert (H0 : length (filter (λ i, ia_human_approved i = false
                                     ∧ ia_action_taken i ≠ "none") saved) = 0
               ∧ length (filter (λ i, ia_human_approved i = true) saved) = 0).
  { induction H as [|i saved [Hi1 Hi2] _ [IH1 IH2]]; [done|].
    rewrite !filter_cons.
    rewrite decide_False by (intros [_ ?]; done).
    by rewrite decide_False by congruence. }
  destruct H0 as [-> ->]. lia.
Qed.

(** X22. What [run_agent_workflow] itself saves to the memory never shows
    in the counts of [get_stats]. Whatever the pipeline stages return or
    raise and whatever any other operation gives back, a row that
    [run_agent_workflow] hands to [save_email_interaction] (for a
    notification that was ignored, for a draft that was denied) says
    "not approved" with the action "none". And rows that say so, however
    many, change neither [deny_count], which leaves out the rows whose
    action is "none", nor [approve_count]: with them added to the table,
    [get_stats] answers as before, so that a denied draft is not counted
    as a denial. *)
Theorem denials_are_not_counted workflow_id email σ rows saved :
  always saves_not_counted (run_agent_workflow workflow_id email)
  ∧ (Forall not_counted saved →
     deny_count (rows ++ saved) = deny_count rows
     ∧ approve_count (rows ++ saved) = approve_count rows
     ∧ get_stats (set_memory (λ _, Some (rows ++ saved)) σ)
       = get_stats (set_memory (λ _, Some rows) σ)).
Proof.
  split; [apply run_agent_workflow_saves|].
  intros Hf. destruct (counts_not_counted rows saved Hf) as [Hd Ha].
  split; [done|]. split; [done|].
  unfold get_stats. cbn. by rewrite Hd, Ha.
Qed.
